(** * SmartFlow CRM voice sidecar: session manager, protocol loop and
      context store, embedded from [personaplex_server/server.py] and
      [personaplex_server/context_api.py].

    Conventions of the embedding.
    - Clock readings ([datetime.now()], [time.time()]) are integers in one
      fixed unit, the unit in which timeouts and TTLs are given; the code only
      subtracts and compares them.  Every operation that reads the clock takes
      the reading as an argument.
    - [uuid.uuid4()] is an input of the operation that calls it.
    - Python objects that are shared between the registry and a connection
      handler live in an explicit heap; the registry stores references.
    - [asyncio.Lock] bodies contain no suspension point, so each method runs
      as one atomic state transformer.
    - Code that can raise returns a sum whose left side is the exception,
      next to the state it leaves behind: the [HTTPException]s of the
      handlers, the [OverflowError] of subtracting a float from an integer
      that has none, and pydantic's [ValidationError] for a value that is
      not of the declared type. *)

From stdpp Require Import gmap strings list fin_maps sorting.
From Stdlib Require Import ZArith Lia.
From Stdlib.Strings Require Import Byte.

Local Open Scope Z_scope.

(* ===================================================================== *)
(** ** server.py *)
(* ===================================================================== *)

Module Server.

(** [class Settings] (the fields the modelled code reads). *)
Record Settings := {
  API_KEY : string;
  MAX_CONCURRENT_SESSIONS : Z;
  SESSION_TIMEOUT_SEC : Z;
  MAX_AUDIO_CHUNK_SIZE : Z
}.

(** The values of the class body when the environment sets nothing. *)
Definition settings : Settings :=
  {| API_KEY := "";
     MAX_CONCURRENT_SESSIONS := 4;
     SESSION_TIMEOUT_SEC := 300;
     MAX_AUDIO_CHUNK_SIZE := 32000 |}.

(** One element of [VoiceSession.transcript]. *)
Record Turn := {
  speaker : string;
  text : string;
  timestamp : Z
}.

(** [@dataclass class VoiceSession]. *)
Record VoiceSession := {
  session_id : string;
  persona : string;
  created_at : Z;
  transcript : list Turn;
  audio_chunks_in : Z;
  audio_chunks_out : Z;
  is_active : bool;
  last_activity : Z
}.

Definition set_is_active (b : bool) (v : VoiceSession) : VoiceSession :=
  {| session_id := session_id v; persona := persona v;
     created_at := created_at v; transcript := transcript v;
     audio_chunks_in := audio_chunks_in v;
     audio_chunks_out := audio_chunks_out v;
     is_active := b; last_activity := last_activity v |}.

Definition transcript_append (t : Turn) (v : VoiceSession) : VoiceSession :=
  {| session_id := session_id v; persona := persona v;
     created_at := created_at v; transcript := transcript v ++ [t];
     audio_chunks_in := audio_chunks_in v;
     audio_chunks_out := audio_chunks_out v;
     is_active := is_active v; last_activity := last_activity v |}.

Definition incr_audio_chunks_in (v : VoiceSession) : VoiceSession :=
  {| session_id := session_id v; persona := persona v;
     created_at := created_at v; transcript := transcript v;
     audio_chunks_in := audio_chunks_in v + 1;
     audio_chunks_out := audio_chunks_out v;
     is_active := is_active v; last_activity := last_activity v |}.

Definition incr_audio_chunks_out (v : VoiceSession) : VoiceSession :=
  {| session_id := session_id v; persona := persona v;
     created_at := created_at v; transcript := transcript v;
     audio_chunks_in := audio_chunks_in v;
     audio_chunks_out := audio_chunks_out v + 1;
     is_active := is_active v; last_activity := last_activity v |}.

Definition set_last_activity (t : Z) (v : VoiceSession) : VoiceSession :=
  {| session_id := session_id v; persona := persona v;
     created_at := created_at v; transcript := transcript v;
     audio_chunks_in := audio_chunks_in v;
     audio_chunks_out := audio_chunks_out v;
     is_active := is_active v; last_activity := t |}.

(** A reference to a [VoiceSession] object: its index in the heap. *)
Abbreviation ref := nat.

(** [class SessionManager]: the registry [self.sessions] holds references. *)
Record SessionManager := {
  sessions : gmap string ref;
  max_sessions : Z
}.

(** The program state: the session objects and the manager. *)
Record State := {
  heap : list VoiceSession;
  mgr : SessionManager
}.

Definition with_sessions (m : gmap string ref) (st : State) : State :=
  {| heap := heap st;
     mgr := {| sessions := m; max_sessions := max_sessions (mgr st) |} |}.

(** In-place mutation of the object behind a reference. *)
Definition update (l : ref) (f : VoiceSession → VoiceSession) (st : State)
  : State :=
  {| heap := alter f l (heap st); mgr := mgr st |}.

(** [SessionManager(max_sessions)] on an empty heap. *)
Definition init (max : Z) : State :=
  {| heap := []; mgr := {| sessions := ∅; max_sessions := max |} |}.

(** [s.is_active] for the object a registry value refers to. *)
Definition active_at (h : list VoiceSession) (l : ref) : bool :=
  match h !! l with
  | Some v => is_active v
  | None => false
  end.

(** [sum(1 for s in self.sessions.values() if s.is_active)] *)
Definition active_count (st : State) : Z :=
  Z.of_nat
    (length (filter (λ l, active_at (heap st) l = true)
                    (map_to_list (sessions (mgr st))).*2)).

(** What the modelled code can raise: [HTTPException(status, detail)], or
    any other exception (a fault of the inference step, a JSON error). *)
Inductive exn :=
  | HTTPException (status_code : Z) (detail : string)
  | Fault (message : string).

(** [SessionManager.create]; [sid] is [str(uuid.uuid4())], [t_created] the
    clock reading of [created_at=datetime.now()] and [t_activity] the one of
    the [last_activity] default factory. *)
Definition create (persona : string) (sid : string) (t_created t_activity : Z)
    (st : State) : (exn + ref) * State :=
  let active := active_count st in
  if bool_decide (max_sessions (mgr st) ≤ active) then
    (inl (HTTPException 503 "Server at capacity"), st)
  else
    let session :=
      {| session_id := sid; persona := persona; created_at := t_created;
         transcript := []; audio_chunks_in := 0; audio_chunks_out := 0;
         is_active := true; last_activity := t_activity |} in
    let l := length (heap st) in
    (inr l,
     {| heap := heap st ++ [session];
        mgr := {| sessions := <[sid := l]> (sessions (mgr st));
                  max_sessions := max_sessions (mgr st) |} |}).

(** [SessionManager.get] *)
Definition get (sid : string) (st : State) : option ref :=
  sessions (mgr st) !! sid.

(** The dictionary [SessionManager.end] returns. *)
Record Summary := {
  sum_session_id : string;
  sum_persona : string;
  duration_seconds : Z;
  turn_count : Z;
  sum_transcript : list Turn;
  sum_audio_chunks_in : Z;
  sum_audio_chunks_out : Z
}.

(** [SessionManager.end]: pop, then mark inactive, then summarise. *)
Definition end_ (sid : string) (now : Z) (st : State)
  : option Summary * State :=
  match sessions (mgr st) !! sid with
  | None => (None, st)
  | Some l =>
      let st1 := with_sessions (delete sid (sessions (mgr st))) st in
      let st2 := update l (set_is_active false) st1 in
      match heap st2 !! l with
      | None => (None, st2)
      | Some session =>
          let duration := now - created_at session in
          (Some {| sum_session_id := sid;
                   sum_persona := persona session;
                   duration_seconds := duration;
                   turn_count := Z.of_nat (length (transcript session));
                   sum_transcript := transcript session;
                   sum_audio_chunks_in := audio_chunks_in session;
                   sum_audio_chunks_out := audio_chunks_out session |},
           st2)
      end
  end.

(** [(now - s.last_activity).total_seconds() > timeout_sec] *)
Definition is_stale (h : list VoiceSession) (now timeout_sec : Z) (l : ref)
  : bool :=
  match h !! l with
  | Some s => bool_decide (timeout_sec < now - last_activity s)
  | None => false
  end.

(** [SessionManager.cleanup_stale] *)
Definition cleanup_stale (timeout_sec : Z) (now : Z) (st : State)
  : Z * State :=
  let stale :=
    (filter (λ kv : string * ref, is_stale (heap st) now timeout_sec kv.2 = true)
            (map_to_list (sessions (mgr st)))).*1 in
  let m := foldl (λ m sid, delete sid m) (sessions (mgr st)) stale in
  (Z.of_nat (length stale), with_sessions m st).

(** [ModelManager.process_audio]: counts the chunk, stamps the activity and
    returns [None]. *)
Definition process_audio (audio_chunk : list byte) (l : ref) (now : Z)
    (st : State) : option (list byte) * State :=
  let st1 := update l incr_audio_chunks_in st in
  let st2 := update l (set_last_activity now) st1 in
  (None, st2).

(** *** The [/infer] endpoint *)

(** The dictionary [ModelManager.infer_text] returns; the handler only
    copies its fields, the two numbers are carried as integers. *)
Record InferResult := {
  intent : string;
  confidence_pct : Z;
  response_text : string;
  latency_ms : Z
}.

Record InferRequest := {
  req_text : string;
  req_persona : string
}.

Record InferResponse := {
  resp_session_id : string;
  resp_intent : string;
  resp_confidence_pct : Z;
  resp_response_text : string;
  resp_latency_ms : Z
}.

(** The clock readings and the uuid one call of [text_inference] consumes. *)
Record InferEnv := {
  env_uuid : string;
  env_created : Z;
  env_activity : Z;
  env_user_turn : Z;
  env_assistant_turn : Z;
  env_end : Z
}.

(** [try: body finally: end(session_id)] *)
Definition try_finally_end {A : Type} (sid : string) (now : Z)
    (body : State → (exn + A) * State) (st : State) : (exn + A) * State :=
  let '(r, st1) := body st in
  let '(_, st2) := end_ sid now st1 in
  (r, st2).

(** [text_inference].  The inference capability is the argument
    [infer_text]: it returns a result or raises. *)
Definition text_inference (loaded : bool)
    (infer_text : string → string → exn + InferResult)
    (env : InferEnv) (request : InferRequest) (st : State)
  : (exn + InferResponse) * State :=
  if negb loaded then (inl (HTTPException 503 "Model not ready"), st)
  else
    match create (req_persona request) (env_uuid env)
                 (env_created env) (env_activity env) st with
    | (inl e, st1) => (inl e, st1)
    | (inr session, st1) =>
        try_finally_end (env_uuid env) (env_end env)
          (λ st,
             match infer_text (req_text request) (req_persona request) with
             | inl e => (inl e, st)
             | inr result =>
                 let st2 :=
                   update session
                     (transcript_append
                        {| speaker := "user"; text := req_text request;
                           timestamp := env_user_turn env |}) st in
                 let st3 :=
                   update session
                     (transcript_append
                        {| speaker := "assistant";
                           text := response_text result;
                           timestamp := env_assistant_turn env |}) st2 in
                 (inr {| resp_session_id := env_uuid env;
                         resp_intent := intent result;
                         resp_confidence_pct := confidence_pct result;
                         resp_response_text := response_text result;
                         resp_latency_ms := latency_ms result |},
                  st3)
             end)
          st1
    end.

(** *** The main loop of [websocket_endpoint] *)

(** The parsed text of a control message: [data.get(...)] of each key. *)
Record Control := {
  action : option string;
  ctl_speaker : option string;
  ctl_text : option string
}.

(** What [websocket.receive()] yields. *)
Inductive Message :=
  | ReceiveBytes (audio_chunk : list byte)
  | ReceiveText (data : exn + Control)
  | ReceiveNeither
  | Disconnect
  | OtherType.

(** One turn of [asyncio.wait_for(websocket.receive(), timeout=...)], with
    the clock reading the handling of the message uses. *)
Inductive Event :=
  | Received (message : Message) (now : Z)
  | TimeoutError.

(** What the handler sends on the socket. *)
Inductive Frame :=
  | SendBytes (b : list byte)
  | TranscriptAck
  | TimeoutWarning
  | ErrorFrame (message : string)
  | SessionEnded (summary : option Summary).

Inductive Control_flow :=
  | Continue
  | Break
  | Raise (e : exn).

(** The body of [while True:] for one event, on the session object [session];
    the result is the control flow, the frames sent and the new state. *)
Definition loop_body (cfg : Settings) (session : ref) (ev : Event)
    (st : State) : Control_flow * list Frame * State :=
  match ev with
  | TimeoutError => (Break, [TimeoutWarning], st)
  | Received (ReceiveBytes audio_chunk) now =>
      if bool_decide (MAX_AUDIO_CHUNK_SIZE cfg < Z.of_nat (length audio_chunk))
      then (Continue, [], st)
      else
        let '(response_audio, st1) :=
          process_audio audio_chunk session now st in
        match response_audio with
        | Some (b :: bs) =>
            (Continue, [SendBytes (b :: bs)],
             update session incr_audio_chunks_out st1)
        | _ => (Continue, [], st1)
        end
  | Received (ReceiveText (inl e)) now => (Raise e, [], st)
  | Received (ReceiveText (inr data)) now =>
      match action data with
      | Some a =>
          if bool_decide (a = "transcript") then
            (Continue, [TranscriptAck],
             update session
               (transcript_append
                  {| speaker := default "user" (ctl_speaker data);
                     text := default "" (ctl_text data);
                     timestamp := now |}) st)
          else if bool_decide (a = "end") then (Break, [], st)
          else (Continue, [], st)
      | None => (Continue, [], st)
      end
  | Received ReceiveNeither now => (Continue, [], st)
  | Received Disconnect now => (Break, [], st)
  | Received OtherType now => (Continue, [], st)
  end.

(** How the loop stands after a finite script of events: still waiting for
    the next message, left by [break], or left by an exception. *)
Inductive Loop_status :=
  | Waiting
  | Left
  | Raised (e : exn).

(** [while True:] over the events the socket delivers. *)
Fixpoint main_loop (cfg : Settings) (session : ref) (evs : list Event)
    (st : State) : Loop_status * list Frame * State :=
  match evs with
  | [] => (Waiting, [], st)
  | ev :: evs' =>
      match loop_body cfg session ev st with
      | (Continue, out, st1) =>
          let '(status, out', st2) := main_loop cfg session evs' st1 in
          (status, out ++ out', st2)
      | (Break, out, st1) => (Left, out, st1)
      | (Raise e, out, st1) => (Raised e, out, st1)
      end
  end.

(** [except Exception] and [finally] of [websocket_endpoint], once the loop
    is left: the error frame, then [end(session_id)] and the final frame. *)
Definition finish (sid : string) (now : Z) (status : Loop_status)
    (st : State) : list Frame * State :=
  match status with
  | Waiting => ([], st)
  | Left =>
      let '(summary, st1) := end_ sid now st in
      ([SessionEnded summary], st1)
  | Raised e =>
      let '(summary, st1) := end_ sid now st in
      ([ErrorFrame (match e with
                    | HTTPException _ d => d
                    | Fault m => m
                    end);
        SessionEnded summary], st1)
  end.

(** *** Call sequences *)

(** The calls that reach the shared state: the manager's methods and the
    two mutations a connection handler performs on its own session object. *)
Inductive Op :=
  | OpCreate (persona sid : string) (t_created t_activity : Z)
  | OpGet (sid : string)
  | OpEnd (sid : string) (now : Z)
  | OpCleanupStale (timeout_sec now : Z)
  | OpTranscript (session : ref) (t : Turn)
  | OpAudio (session : ref) (audio_chunk : list byte) (now : Z).

Definition step (st : State) (o : Op) : State :=
  match o with
  | OpCreate persona sid t_created t_activity =>
      (create persona sid t_created t_activity st).2
  | OpGet sid => st
  | OpEnd sid now => (end_ sid now st).2
  | OpCleanupStale timeout_sec now => (cleanup_stale timeout_sec now st).2
  | OpTranscript session t => update session (transcript_append t) st
  | OpAudio session audio_chunk now =>
      (process_audio audio_chunk session now st).2
  end.

Definition run (st : State) (ops : list Op) : State := foldl step st ops.

(** The turns a call sequence appends to the object [session]. *)
Fixpoint appended (session : ref) (ops : list Op) : list Turn :=
  match ops with
  | [] => []
  | OpTranscript l t :: ops' =>
      if decide (l = session) then t :: appended session ops'
      else appended session ops'
  | _ :: ops' => appended session ops'
  end.

(** The registry invariant: every registered reference points to a live
    object that is active and carries the key it is registered under. *)
Definition registry_ok (st : State) : Prop :=
  ∀ sid l, sessions (mgr st) !! sid = Some l →
    ∃ v, heap st !! l = Some v ∧ is_active v = true ∧ session_id v = sid.

(** No [create] of the sequence draws the id [sid]. *)
Definition never_creates (sid : string) (ops : list Op) : Prop :=
  Forall (λ o, match o with
               | OpCreate _ sid' _ _ => sid' ≠ sid
               | _ => True
               end) ops.

(** A mutation of a session object that leaves its identity and its
    [is_active] flag alone. *)
Definition keeps_identity (f : VoiceSession → VoiceSession) : Prop :=
  ∀ v, is_active (f v) = is_active v ∧ session_id (f v) = session_id v.

(** *** Further endpoints and the whole websocket handler *)

(** [end_session] ([DELETE /sessions/{session_id}]) *)
Definition end_session (sid : string) (now : Z) (st : State)
  : (exn + Summary) * State :=
  let '(summary, st1) := end_ sid now st in
  match summary with
  | None => (inl (HTTPException 404 "Session not found"), st1)
  | Some s => (inr s, st1)
  end.

(** [class SessionInfo] *)
Record SessionInfo := {
  info_session_id : string;
  info_persona : string;
  info_created_at : Z;
  info_duration_seconds : Z;
  info_turn_count : Z;
  info_status : string
}.

(** [list_sessions]: one [SessionInfo] per registered object, in the
    iteration order of the registry. *)
Definition list_sessions (now : Z) (st : State) : list SessionInfo :=
  omap (λ l : ref,
          (λ s, {| info_session_id := session_id s;
                   info_persona := persona s;
                   info_created_at := created_at s;
                   info_duration_seconds := now - created_at s;
                   info_turn_count := Z.of_nat (length (transcript s));
                   info_status :=
                     if is_active s then "active" else "ended" |})
          <$> heap st !! l)
       (map_to_list (sessions (mgr st))).*2.

(** [settings.API_KEY and key != settings.API_KEY], the test of both
    [verify_api_key] and the websocket handshake. *)
Definition key_rejected (cfg : Settings) (key : option string) : bool :=
  bool_decide (API_KEY cfg ≠ "") && bool_decide (key ≠ Some (API_KEY cfg)).

(** [verify_api_key] *)
Definition verify_api_key (cfg : Settings) (x_api_key : option string)
  : exn + bool :=
  if key_rejected cfg x_api_key
  then inl (HTTPException 401 "Invalid API key")
  else inr true.

(** A route declared with [dependencies=[Depends(verify_api_key)]]: the
    dependency runs on the request's [X-API-Key] header, and the handler
    runs only when it returns. *)
Definition depends_verify_api_key {A : Type} (cfg : Settings)
    (x_api_key : option string) (handler : State → (exn + A) * State)
    (st : State) : (exn + A) * State :=
  match verify_api_key cfg x_api_key with
  | inl e => (inl e, st)
  | inr _ => handler st
  end.

(** [DELETE /sessions/{session_id}] *)
Definition delete_session_route (cfg : Settings) (x_api_key : option string)
    (sid : string) (now : Z) (st : State) : (exn + Summary) * State :=
  depends_verify_api_key cfg x_api_key (end_session sid now) st.

(** [GET /sessions]; the personas of the sessions are strings, as
    [SessionInfo] wants them. *)
Definition get_sessions_route (cfg : Settings) (x_api_key : option string)
    (now : Z) (st : State) : (exn + list SessionInfo) * State :=
  depends_verify_api_key cfg x_api_key
    (λ st, (inr (list_sessions now st), st)) st.

(** [POST /infer] with a body that is an [InferRequest]. *)
Definition post_infer_route (cfg : Settings) (x_api_key : option string)
    (loaded : bool) (infer_text : string → string → exn + InferResult)
    (env : InferEnv) (request : InferRequest) (st : State)
  : (exn + InferResponse) * State :=
  depends_verify_api_key cfg x_api_key
    (text_inference loaded infer_text env request) st.

(** [w in s] for Python strings; both are UTF-8 byte strings here, for
    which the byte-wise test and the test by code points agree. *)
Fixpoint contains (w s : string) : bool :=
  String.prefix w s
  || match s with
     | EmptyString => false
     | String _ s' => contains w s'
     end.

(** [any(w in text_lower for w in ws)] *)
Definition any_in (ws : list string) (text_lower : string) : bool :=
  existsb (λ w, contains w text_lower) ws.

(** [ModelManager.infer_text].  [lower] is [str.lower] and [latency] the
    measured [(time.time() - start) * 1000]; confidences are in percent. *)
Definition infer_text (lower : string → string) (latency : Z)
    (text persona : string) : InferResult :=
  let text_lower := lower text in
  if any_in ["randevu"; "görüşme"; "tarih"; "saat"] text_lower then
    {| intent := "appointment"; confidence_pct := 90;
       response_text :=
         "Randevu talebinizi aldım. Hangi tarih ve saat uygun olur?";
       latency_ms := latency |}
  else if any_in ["şikayet"; "sorun"; "problem"; "memnun değil"] text_lower
  then
    {| intent := "complaint"; confidence_pct := 85;
       response_text :=
         "Yaşadığınız sorunu anlıyorum. Detayları alabilir miyim?";
       latency_ms := latency |}
  else if any_in ["bilgi"; "fiyat"; "nasıl"; "nedir"] text_lower then
    {| intent := "info_request"; confidence_pct := 80;
       response_text := "Size bu konuda bilgi verebilirim.";
       latency_ms := latency |}
  else if any_in ["iptal"; "vazgeç"; "istemiyorum"] text_lower then
    {| intent := "cancellation"; confidence_pct := 90;
       response_text := "İptal talebinizi not aldım.";
       latency_ms := latency |}
  else
    {| intent := "unknown"; confidence_pct := 50;
       response_text := "Anlıyorum, size nasıl yardımcı olabilirim?";
       latency_ms := latency |}.

(** How the wait for the initial configuration message ends. *)
Inductive Handshake :=
  | ConfigTimeout
  | ConfigDisconnect
  | Config (api_key : option string) (persona : option string).

(** What [websocket_endpoint] sends: the frames of the handshake and of the
    exception handler, and the frames of the loop and of [finally]. *)
Inductive Sent :=
  | InvalidApiKey
  | CloseSocket (code : Z)
  | SessionStarted (sid persona : string)
  | ErrorMessage (e : exn)
  | InLoop (f : Frame).

(** [websocket_endpoint] for one connection that nothing interleaves with:
    the handshake, [create], the main loop over the events [evs], and the
    handlers [except] and [finally].  A script that ends while the loop is
    still waiting leaves the connection open. *)
Definition websocket_endpoint (cfg : Settings) (hs : Handshake)
    (uuid : string) (t_created t_activity : Z) (evs : list Event)
    (t_end : Z) (st : State) : list Sent * State :=
  match hs with
  | ConfigTimeout => ([ErrorMessage (Fault "")], st)
  | ConfigDisconnect => ([], st)
  | Config api_key persona =>
      if key_rejected cfg api_key then ([InvalidApiKey; CloseSocket 4001], st)
      else
        match create (default "default" persona) uuid t_created t_activity st
        with
        | (inl e, st1) => ([ErrorMessage e], st1)
        | (inr session, st1) =>
            let '(status, out, st2) := main_loop cfg session evs st1 in
            let '(out', st3) := finish uuid t_end status st2 in
            (SessionStarted uuid (default "default" persona)
               :: (InLoop <$> out) ++ (InLoop <$> out'),
             st3)
        end
  end.

(** An event at which the loop is left: the idle timeout, a disconnect, the
    control action "end", a text that does not parse. *)
Definition is_terminal (ev : Event) : bool :=
  match ev with
  | TimeoutError => true
  | Received Disconnect _ => true
  | Received (ReceiveText (inl _)) _ => true
  | Received (ReceiveText (inr data)) _ =>
      bool_decide (action data = Some "end")
  | Received _ _ => false
  end.

(** The events the loop handles before it is left. *)
Fixpoint live (evs : list Event) : list Event :=
  match evs with
  | [] => []
  | ev :: evs' => if is_terminal ev then [] else ev :: live evs'
  end.

(** The turn a "transcript" control message carries. *)
Definition turn_of (ev : Event) : option Turn :=
  match ev with
  | Received (ReceiveText (inr data)) now =>
      if bool_decide (action data = Some "transcript")
      then Some {| speaker := default "user" (ctl_speaker data);
                   text := default "" (ctl_text data);
                   timestamp := now |}
      else None
  | _ => None
  end.

(** An audio frame that is not oversized. *)
Definition is_accepted_audio (cfg : Settings) (ev : Event) : bool :=
  match ev with
  | Received (ReceiveBytes audio_chunk) _ =>
      bool_decide (Z.of_nat (length audio_chunk) ≤ MAX_AUDIO_CHUNK_SIZE cfg)
  | _ => false
  end.

(** The clock reading of the last accepted audio frame, if any. *)
Definition last_audio (cfg : Settings) (evs : list Event) : option Z :=
  last (omap (λ ev, match ev with
                    | Received (ReceiveBytes _) now =>
                        if is_accepted_audio cfg ev then Some now else None
                    | _ => None
                    end) evs).

(** [w] occurs in [s]. *)
Definition occurs (w s : string) : Prop := ∃ a b, s = a +:+ w +:+ b.

(** The keyword groups of [infer_text]. *)
Definition appointment_words : list string :=
  ["randevu"; "görüşme"; "tarih"; "saat"].
Definition complaint_words : list string :=
  ["şikayet"; "sorun"; "problem"; "memnun değil"].
Definition info_words : list string := ["bilgi"; "fiyat"; "nasıl"; "nedir"].
Definition cancellation_words : list string :=
  ["iptal"; "vazgeç"; "istemiyorum"].

(** Some word of [ws] occurs in [s]. *)
Definition has_word (ws : list string) (s : string) : Prop :=
  ∃ w, w ∈ ws ∧ occurs w s.

(** *** Sample inputs *)

Definition two_turns : list Op :=
  [OpCreate "support" "s1" 2 3;
   OpTranscript 0%nat {| speaker := "user"; text := "a"; timestamp := 4 |};
   OpTranscript 0%nat {| speaker := "user"; text := "b"; timestamp := 5 |}].

Definition idle_after_two_turns : list Event :=
  [Received (ReceiveText
     (inr {| action := Some "transcript"; ctl_speaker := None;
             ctl_text := Some "merhaba" |})) 11;
   Received (ReceiveText
     (inr {| action := Some "transcript"; ctl_speaker := Some "assistant";
             ctl_text := Some "buyurun" |})) 12;
   TimeoutError].

Definition busy_day : list Op :=
  [OpCreate "default" "s1" 0 0; OpCreate "sales" "s2" 1 1;
   OpTranscript 0%nat {| speaker := "user"; text := "merhaba"; timestamp := 2 |};
   OpEnd "s1" 3; OpCleanupStale 300 400; OpCreate "support" "s3" 401 401].

End Server.

(* ===================================================================== *)
(** ** context_api.py *)
(* ===================================================================== *)

Module ContextApi.

(** [Any]: a value as the JSON body of a request carries it.  A number
    keeps its literal, no modelled code computes with one. *)
#[warnings="-register-all"] Inductive Any :=
  | JNull
  | JBool (b : bool)
  | JNumber (literal : string)
  | JStr (s : string)
  | JList (l : list Any)
  | JDict (d : list (string * Any)).

(** [Dict[str, Any]] *)
Definition Data := list (string * Any).

(** The exceptions the modelled code lets escape. *)
Inductive exn :=
  | OverflowError
  | ValidationError.

(** What pydantic 2 (the code calls [model_dump]) accepts of a JSON value
    for a field declared [str], [Dict[str, Any]], [Dict[str, str]] and
    [List[Dict[str, str]]]: a value of that shape and no other, a number is
    not turned into a string.  The result [None] stands for its
    [ValidationError]. *)
Definition as_str (v : Any) : option string :=
  match v with
  | JStr s => Some s
  | _ => None
  end.

Definition as_dict (v : Any) : option Data :=
  match v with
  | JDict d => Some d
  | _ => None
  end.

Definition as_str_dict (v : Any) : option (list (string * string)) :=
  match v with
  | JDict d => mapM (λ kv, pair kv.1 <$> as_str kv.2) d
  | _ => None
  end.

Definition as_transcript (v : Any) : option (list (list (string * string))) :=
  match v with
  | JList l => mapM as_str_dict l
  | _ => None
  end.

(** [int - float] converts the integer with [float(n)], which raises
    [OverflowError] when [n] rounds to a magnitude beyond the largest double,
    that is from [2^1024 - 2^970] on. *)
Definition float_limit : Z := 2 ^ 1024 - 2 ^ 970.

Definition fits_float (n : Z) : bool :=
  bool_decide (- float_limit < n < float_limit).

(** [class ContextSettings] (the field the modelled code reads). *)
Record ContextSettings := {
  CONTEXT_TTL_SEC : Z
}.

Definition settings : ContextSettings := {| CONTEXT_TTL_SEC := 1800 |}.

(** [class ContextPayload] *)
Record ContextPayload := {
  p_session_id : string;
  p_type : string;
  p_data : Data;
  p_priority : string;
  p_ttl_seconds : option Z;
  p_source : string
}.

(** [class ContextEntry] *)
Record ContextEntry := {
  id : string;
  session_id : string;
  type : string;
  data : Data;
  priority : string;
  source : string;
  created_at : Z;
  ttl : Z;
  accessed_count : Z
}.

(** [ContextEntry.__init__]; [uuid] is [str(uuid.uuid4())] and [now] is
    [time.time()]. *)
Definition new_entry (payload : ContextPayload) (ttl : Z) (uuid : string)
    (now : Z) : ContextEntry :=
  {| id := uuid;
     session_id := p_session_id payload;
     type := p_type payload;
     data := p_data payload;
     priority := p_priority payload;
     source := p_source payload;
     created_at := now;
     ttl := ttl;
     accessed_count := 0 |}.

(** [ContextEntry.is_expired] at clock reading [now]. *)
Definition is_expired (now : Z) (e : ContextEntry) : bool :=
  bool_decide (ttl e < now - created_at e).

(** The dictionary [ContextEntry.to_dict] builds. *)
Record ContextDict := {
  d_id : string;
  d_type : string;
  d_data : Data;
  d_priority : string;
  d_source : string;
  d_created_at : Z;
  d_ttl_remaining : Z;
  d_accessed_count : Z
}.

(** The dictionary literal of [to_dict], once every value of it is
    computed. *)
Definition dict_of (now : Z) (e : ContextEntry) : ContextDict :=
  {| d_id := id e;
     d_type := type e;
     d_data := data e;
     d_priority := priority e;
     d_source := source e;
     d_created_at := created_at e;
     d_ttl_remaining := Z.max 0 (ttl e - (now - created_at e));
     d_accessed_count := accessed_count e |}.

(** [ContextEntry.to_dict] at clock reading [now]: [self.ttl - (time.time()
    - self.created_at)] subtracts a float from the integer [ttl] and raises
    when [ttl] has no float. *)
Definition to_dict (now : Z) (e : ContextEntry) : exn + ContextDict :=
  if fits_float (ttl e) then inr (dict_of now e) else inl OverflowError.

(** [entry.accessed_count += 1] *)
Definition incr_accessed (e : ContextEntry) : ContextEntry :=
  {| id := id e; session_id := session_id e; type := type e;
     data := data e; priority := priority e; source := source e;
     created_at := created_at e; ttl := ttl e;
     accessed_count := accessed_count e + 1 |}.

(** One element of a session's event log. *)
Record EventRecord := {
  ev_event : string;
  ev_timestamp : Z;
  ev_data : Data
}.

(** [class ContextStore] *)
Record ContextStore := {
  _store : gmap string (list ContextEntry);
  _events : gmap string (list EventRecord)
}.

Definition empty_store : ContextStore := {| _store := ∅; _events := ∅ |}.

(** Python's [x or y] for [x : Optional[int]]: [None] and [0] are falsy. *)
Definition or_int (x : option Z) (y : Z) : Z :=
  match x with
  | Some v => if bool_decide (v = 0) then y else v
  | None => y
  end.

(** [ContextStore.add_context] *)
Definition add_context (payload : ContextPayload) (default_ttl : Z)
    (uuid : string) (now : Z) (st : ContextStore)
  : ContextEntry * ContextStore :=
  let ttl := or_int (p_ttl_seconds payload) default_ttl in
  let entry := new_entry payload ttl uuid now in
  let store1 :=
    match _store st !! p_session_id payload with
    | None => <[p_session_id payload := []]> (_store st)
    | Some _ => _store st
    end in
  let bucket := default [] (store1 !! p_session_id payload) in
  (entry,
   {| _store := <[p_session_id payload := bucket ++ [entry]]> store1;
      _events := _events st |}).

(** [types and entry.type not in types] *)
Definition type_filtered (types : option (list string)) (e : ContextEntry)
  : bool :=
  match types with
  | None => false
  | Some [] => false
  | Some ts => bool_decide (type e ∉ ts)
  end.

(** The [for entry in entries] loop of [get_context]: the entries after the
    in-place increments, and [result] or the exception that ended the loop.
    The counter of an entry is raised before [to_dict] is called on it, so
    an exception leaves that increment and those before it in place and the
    entries after it unvisited. *)
Fixpoint get_loop (types : option (list string)) (include_expired : bool)
    (now : Z) (entries : list ContextEntry)
  : list ContextEntry * (exn + list ContextDict) :=
  match entries with
  | [] => ([], inr [])
  | entry :: rest =>
      if negb include_expired && is_expired now entry then
        let '(rest', result) := get_loop types include_expired now rest in
        (entry :: rest', result)
      else if type_filtered types entry then
        let '(rest', result) := get_loop types include_expired now rest in
        (entry :: rest', result)
      else
        let entry' := incr_accessed entry in
        match to_dict now entry' with
        | inl err => (entry' :: rest, inl err)
        | inr d =>
            let '(rest', result) := get_loop types include_expired now rest in
            (entry' :: rest',
             match result with
             | inl err => inl err
             | inr ds => inr (d :: ds)
             end)
        end
  end.

(** [priority_order.get(x["priority"], 2)] *)
Definition priority_order (p : string) : Z :=
  if bool_decide (p = "urgent") then 0
  else if bool_decide (p = "high") then 1
  else if bool_decide (p = "normal") then 2
  else 2.

(** [list.sort(key=...)]: Python's built-in sort orders by key and keeps
    elements of equal key in their order; insertion from the right in front
    of the first element that is not smaller computes that list. *)
Fixpoint insert_by {A : Type} (key : A → Z) (x : A) (l : list A) : list A :=
  match l with
  | [] => [x]
  | y :: l' =>
      if bool_decide (key x ≤ key y) then x :: y :: l'
      else y :: insert_by key x l'
  end.

Fixpoint sort_by {A : Type} (key : A → Z) (l : list A) : list A :=
  match l with
  | [] => []
  | x :: l' => insert_by key x (sort_by key l')
  end.

(** [ContextStore.get_context]; [now] stands for every [time.time()] the
    call reads while it holds the lock.  The call returns the sorted list or
    raises what the loop raised; the increments made until then stay. *)
Definition get_context (sid : string) (types : option (list string))
    (include_expired : bool) (now : Z) (st : ContextStore)
  : (exn + list ContextDict) * ContextStore :=
  match _store st !! sid with
  | None => (inr [], st)
  | Some entries =>
      let '(entries', result) := get_loop types include_expired now entries in
      (match result with
       | inl err => inl err
       | inr ds => inr (sort_by (λ x, priority_order (d_priority x)) ds)
       end,
       {| _store := <[sid := entries']> (_store st);
          _events := _events st |})
  end.

(** [ContextStore.delete_context] *)
Definition delete_context (sid : string) (st : ContextStore)
  : Z * ContextStore :=
  let entries := default [] (_store st !! sid) in
  (Z.of_nat (length entries),
   {| _store := delete sid (_store st);
      _events := delete sid (_events st) |}).

(** [ContextStore.add_event] *)
Definition add_event (sid : string) (r : EventRecord) (st : ContextStore)
  : ContextStore :=
  {| _store := _store st;
     _events := <[sid := default [] (_events st !! sid) ++ [r]]> (_events st) |}.

(** [ContextStore.get_events] *)
Definition get_events (sid : string) (st : ContextStore) : list EventRecord :=
  default [] (_events st !! sid).

(** [ContextStore.get_context_types_used]: the list of a Python set has no
    specified order, the model keeps the set. *)
Definition get_context_types_used (sid : string) (st : ContextStore)
  : gset string :=
  let entries := default [] (_store st !! sid) in
  list_to_set
    (type <$> filter (λ e, 0 < accessed_count e) entries).

(** The state of the first loop of [cleanup_expired]. *)
Record Sweep := {
  sw_store : gmap string (list ContextEntry);
  sw_cleaned : Z;
  sw_empty_sessions : list string
}.

(** One iteration of [for session_id, entries in self._store.items()]. *)
Definition sweep_step (now : Z) (acc : Sweep)
    (item : string * list ContextEntry) : Sweep :=
  let '(session_id, entries) := item in
  let before := Z.of_nat (length entries) in
  let kept := filter (λ e, is_expired now e = false) entries in
  let store1 := <[session_id := kept]> (sw_store acc) in
  let cleaned := sw_cleaned acc + (before - Z.of_nat (length kept)) in
  match kept with
  | [] => {| sw_store := store1; sw_cleaned := cleaned;
             sw_empty_sessions := sw_empty_sessions acc ++ [session_id] |}
  | _ :: _ => {| sw_store := store1; sw_cleaned := cleaned;
                 sw_empty_sessions := sw_empty_sessions acc |}
  end.

(** [ContextStore.cleanup_expired]; [now] stands for every [time.time()]
    the call reads while it holds the lock. *)
Definition cleanup_expired (now : Z) (st : ContextStore)
  : Z * ContextStore :=
  let acc :=
    foldl (sweep_step now)
          {| sw_store := _store st; sw_cleaned := 0;
             sw_empty_sessions := [] |}
          (map_to_list (_store st)) in
  let store2 :=
    foldl (λ m sid, delete sid m) (sw_store acc) (sw_empty_sessions acc) in
  (sw_cleaned acc, {| _store := store2; _events := _events st |}).

(** *** Bulk injection *)

(** One element of [BulkContextPayload.items], a [Dict[str, Any]]: of the
    four keys the handler reads each is absent or carries some value. *)
Record BulkItem := {
  item_type : option Any;
  item_data : option Any;
  item_priority : option Any;
  item_source : option Any
}.

(** [item.get(key, default)] checked against the declared type of the field
    it is passed for. *)
Definition validated {A : Type} (check : Any → option A) (dflt : A)
    (v : option Any) : option A :=
  match v with
  | None => Some dflt
  | Some x => check x
  end.

(** The [ContextPayload(...)] the handler builds from one item: pydantic
    raises [ValidationError] when a value is not of the declared type. *)
Definition payload_of_item (sid : string) (item : BulkItem)
  : exn + ContextPayload :=
  match validated as_str "custom" (item_type item),
        validated as_dict [] (item_data item),
        validated as_str "normal" (item_priority item),
        validated as_str "n8n" (item_source item) with
  | Some t, Some d, Some p, Some s =>
      inr {| p_session_id := sid;
             p_type := t;
             p_data := d;
             p_priority := p;
             p_ttl_seconds := None;
             p_source := s |}
  | _, _, _, _ => inl ValidationError
  end.

(** The [for item in payload.items] loop of [receive_bulk_context]; the
    [i]-th call of [add_context] draws its uuid and clock reading from
    [env i].  The result is [results], a list of [(context_id, type)], or
    the exception that ended the loop: nothing catches it, the items before
    it are stored and those after it are not looked at. *)
Fixpoint bulk_loop (cfg : ContextSettings) (sid : string)
    (env : nat → string * Z) (i : nat) (items : list BulkItem)
    (st : ContextStore) : (exn + list (string * string)) * ContextStore :=
  match items with
  | [] => (inr [], st)
  | item :: items' =>
      match payload_of_item sid item with
      | inl err => (inl err, st)
      | inr ctx =>
          let '(entry, st1) :=
            add_context ctx (CONTEXT_TTL_SEC cfg) (env i).1 (env i).2 st in
          let '(results, st2) := bulk_loop cfg sid env (S i) items' st1 in
          (match results with
           | inl err => inl err
           | inr rs => inr ((id entry, p_type ctx) :: rs)
           end, st2)
      end
  end.

(** The response of [receive_bulk_context]. *)
Record BulkResponse := {
  bulk_session_id : string;
  injected_count : Z;
  bulk_items : list (string * string)
}.

Definition receive_bulk_context (cfg : ContextSettings) (sid : string)
    (env : nat → string * Z) (items : list BulkItem) (st : ContextStore)
  : (exn + BulkResponse) * ContextStore :=
  let '(results, st1) := bulk_loop cfg sid env 0%nat items st in
  (match results with
   | inl err => inl err
   | inr rs =>
       inr {| bulk_session_id := sid;
              injected_count := Z.of_nat (length rs);
              bulk_items := rs |}
   end, st1).

(** *** Call sequences *)

Inductive Op :=
  | OpAdd (payload : ContextPayload) (default_ttl : Z) (uuid : string)
          (now : Z)
  | OpGet (sid : string) (types : option (list string))
          (include_expired : bool) (now : Z)
  | OpDelete (sid : string)
  | OpTypesUsed (sid : string)
  | OpCleanup (now : Z).

Definition step (st : ContextStore) (o : Op) : ContextStore :=
  match o with
  | OpAdd payload default_ttl uuid now =>
      (add_context payload default_ttl uuid now st).2
  | OpGet sid types include_expired now =>
      (get_context sid types include_expired now st).2
  | OpDelete sid => (delete_context sid st).2
  | OpTypesUsed sid => st
  | OpCleanup now => (cleanup_expired now st).2
  end.

Definition run (st : ContextStore) (ops : list Op) : ContextStore :=
  foldl step st ops.

(** [self._store.get(session_id, [])] *)
Definition entries_of (sid : string) (st : ContextStore) : list ContextEntry :=
  default [] (_store st !! sid).

(** The entries one pass of the [get_context] loop does not skip. *)
Definition is_selected (types : option (list string)) (include_expired : bool)
    (now : Z) (e : ContextEntry) : bool :=
  negb (negb include_expired && is_expired now e)
  && negb (type_filtered types e).

(** The ids a call of [get_context] returns: those of its list, none when
    it raises. *)
Definition result_ids (r : exn + list ContextDict) : list string :=
  match r with
  | inl _ => []
  | inr result => d_id <$> result
  end.

(** The ids of the entries that the [get_context] calls of a call sequence
    return for the session [sid], the sequence starting in state [st]. *)
Fixpoint returned (sid : string) (st : ContextStore) (ops : list Op)
  : list string :=
  match ops with
  | [] => []
  | o :: ops' =>
      match o with
      | OpGet sid' types include_expired now =>
          if decide (sid' = sid)
          then result_ids (get_context sid' types include_expired now st).1
          else []
      | _ => []
      end ++ returned sid (step st o) ops'
  end.

(** Every [get_context] call of a call sequence returns. *)
Fixpoint gets_return (st : ContextStore) (ops : list Op) : bool :=
  match ops with
  | [] => true
  | o :: ops' =>
      match o with
      | OpGet sid types include_expired now =>
          match (get_context sid types include_expired now st).1 with
          | inl _ => false
          | inr _ => true
          end
      | _ => true
      end && gets_return (step st o) ops'
  end.

(** Of those, the ids of the entries that were not expired at the clock
    reading of the [get_context] call that returned them. *)
Fixpoint returned_unexpired (sid : string) (st : ContextStore)
    (ops : list Op) : list string :=
  match ops with
  | [] => []
  | o :: ops' =>
      match o with
      | OpGet sid' types include_expired now =>
          if decide (sid' = sid)
          then filter
                 (λ i, i ∈ id <$> filter (λ e, is_expired now e = false)
                                         (entries_of sid st))
                 (result_ids
                    (get_context sid' types include_expired now st).1)
          else []
      | _ => []
      end ++ returned_unexpired sid (step st o) ops'
  end.

(** The uuids the [add_context] calls of a call sequence draw. *)
Fixpoint added_ids (ops : list Op) : list string :=
  match ops with
  | [] => []
  | OpAdd _ _ uuid _ :: ops' => uuid :: added_ids ops'
  | _ :: ops' => added_ids ops'
  end.

(** An item [ContextPayload(...)] accepts. *)
Definition item_valid (sid : string) (item : BulkItem) : bool :=
  match payload_of_item sid item with
  | inl _ => false
  | inr _ => true
  end.

(** The entries [receive_bulk_context] appends for the payloads [ctxs], the
    first of them drawing from [env i]. *)
Fixpoint bulk_entries (cfg : ContextSettings) (env : nat → string * Z)
    (i : nat) (ctxs : list ContextPayload) : list ContextEntry :=
  match ctxs with
  | [] => []
  | ctx :: ctxs' =>
      new_entry ctx (CONTEXT_TTL_SEC cfg) (env i).1 (env i).2
      :: bulk_entries cfg env (S i) ctxs'
  end.

(** An entry a read skips neither as expired nor by its type and on which
    [to_dict] raises. *)
Definition raises (types : option (list string)) (include_expired : bool)
    (now : Z) (e : ContextEntry) : bool :=
  is_selected types include_expired now e && negb (fits_float (ttl e)).

(** The order [list.sort] sorts by. *)
Definition key_le {A : Type} (key : A → Z) (x y : A) : Prop := key x ≤ key y.

(** [[e for e in entries if not e.is_expired]] *)
Definition kept (now : Z) (es : list ContextEntry) : list ContextEntry :=
  filter (λ e, is_expired now e = false) es.

(** The number of expired entries of a list. *)
Definition expired_count (now : Z) (es : list ContextEntry) : Z :=
  Z.of_nat (length (filter (λ e, is_expired now e = true) es)).

(** The invariant of the store along a call sequence: [added] are the uuids
    drawn so far and [log sid] the ids returned so far for [sid].  Ids are
    distinct within a bucket, every stored id was drawn, and the access
    counter of a stored entry is positive exactly when a [get_context]
    returned it. *)
Definition store_inv (added : list string) (log : string → list string)
    (st : ContextStore) : Prop :=
  ∀ sid,
    NoDup (id <$> entries_of sid st)
    ∧ (∀ e, e ∈ entries_of sid st →
         id e ∈ added ∧ 0 ≤ accessed_count e
         ∧ (0 < accessed_count e ↔ id e ∈ log sid))
    ∧ (∀ i, i ∈ log sid → i ∈ added).

(** *** Further endpoints *)

(** [s.split(",")] *)
Fixpoint split_comma (s : string) : list string :=
  match s with
  | EmptyString => [EmptyString]
  | String c s' =>
      if bool_decide (String c EmptyString = ",")
      then EmptyString :: split_comma s'
      else match split_comma s' with
           | piece :: pieces => String c piece :: pieces
           | [] => [String c EmptyString]
           end
  end.

(** The response of the [GET /context/{session_id}] handler. *)
Record ContextResponse := {
  cr_session_id : string;
  context_count : Z;
  contexts : list ContextDict;
  merged : gmap string Data
}.

(** The handler [get_context] of [GET /context/{session_id}]; what the
    store raises passes through it. *)
Definition get_context_endpoint (sid : string) (types : option string)
    (include_expired : bool) (now : Z) (st : ContextStore)
  : (exn + ContextResponse) * ContextStore :=
  let type_list :=
    match types with
    | Some s => if bool_decide (s = "") then None else Some (split_comma s)
    | None => None
    end in
  let '(r, st1) := get_context sid type_list include_expired now st in
  match r with
  | inl err => (inl err, st1)
  | inr contexts =>
      let summary :=
        foldl (λ m ctx, <[d_type ctx := d_data ctx]> m) ∅ contexts in
      (inr {| cr_session_id := sid;
              context_count := Z.of_nat (length contexts);
              contexts := contexts;
              merged := summary |}, st1)
  end.

(** [ContextStore.stats] *)
Record Stats := {
  active_sessions : Z;
  total_entries : Z;
  total_events : Z
}.

Definition stats (st : ContextStore) : Stats :=
  {| active_sessions := Z.of_nat (size (_store st));
     total_entries :=
       Z.of_nat (sum_list_with length (map_to_list (_store st)).*2);
     total_events :=
       Z.of_nat (sum_list_with length (map_to_list (_events st)).*2) |}.

(** [class EventPayload] *)
Record EventPayload := {
  e_session_id : string;
  e_event : string;
  e_data : option Data;
  e_customer_phone : option string;
  e_customer_name : option string;
  e_agent_id : option string
}.

(** [class CallbackPayload] *)
Record CallbackPayload := {
  cb_session_id : string;
  cb_event : string;
  cb_duration_seconds : Z;
  cb_transcript : list (list (string * string));
  cb_intent_summary : string;
  cb_context_used : gset string;
  cb_customer_phone : option string;
  cb_customer_name : option string;
  cb_timestamp : Z
}.

(** [d.get(key)] on a payload. *)
Fixpoint data_get (key : string) (d : Data) : option Any :=
  match d with
  | [] => None
  | (k, v) :: d' => if bool_decide (k = key) then Some v else data_get key d'
  end.

(** [next((e for e in events if e["event"] == "call_start"), None)] *)
Definition start_event (events : list EventRecord) : option EventRecord :=
  head (filter (λ e, ev_event e = "call_start") events).

(** What [receive_event] hands to the background tasks: the callback for
    n8n and the session whose context the delayed cleanup deletes. *)
Record Background := {
  bg_callback : CallbackPayload;
  bg_delayed_cleanup : string
}.

(** [receive_event].  [t_event] is the clock reading of the stored event,
    [t_now] the one the duration is taken at and [t_stamp] the one of the
    callback.  Of the stored event dictionary the record keeps the fields
    the code reads back.  [CallbackPayload(...)] validates the transcript
    and the intent summary it is given from the event's data; its
    [ValidationError] escapes after the event is stored and before anything
    is scheduled. *)
Definition receive_event (payload : EventPayload) (t_event t_now t_stamp : Z)
    (st : ContextStore) : (exn + option Background) * ContextStore :=
  let st1 :=
    add_event (e_session_id payload)
      {| ev_event := e_event payload; ev_timestamp := t_event;
         ev_data := default [] (e_data payload) |} st in
  if bool_decide (e_event payload = "call_end") then
    let events := get_events (e_session_id payload) st1 in
    let context_types :=
      get_context_types_used (e_session_id payload) st1 in
    let duration :=
      match start_event events with
      | Some e => t_now - ev_timestamp e
      | None => 0
      end in
    match validated as_transcript []
            (data_get "transcript" (default [] (e_data payload))),
          validated as_str ""
            (data_get "intent_summary" (default [] (e_data payload))) with
    | Some transcript, Some intent_summary =>
        (inr (Some {| bg_callback :=
                        {| cb_session_id := e_session_id payload;
                           cb_event := "call_ended";
                           cb_duration_seconds := duration;
                           cb_transcript := transcript;
                           cb_intent_summary := intent_summary;
                           cb_context_used := context_types;
                           cb_customer_phone := e_customer_phone payload;
                           cb_customer_name := e_customer_name payload;
                           cb_timestamp := t_stamp |};
                      bg_delayed_cleanup := e_session_id payload |}),
         st1)
    | _, _ => (inl ValidationError, st1)
    end
  else (inr None, st1).

(** The background task [delayed_cleanup], when it runs. *)
Definition delayed_cleanup (bg : Background) (st : ContextStore)
  : ContextStore :=
  (delete_context (bg_delayed_cleanup bg) st).2.

(** *** Sample inputs *)

Definition three_items : list BulkItem :=
  [ {| item_type := Some (JStr "invoice"); item_data := None;
       item_priority := Some (JStr "high"); item_source := None |};
    {| item_type := None; item_data := None;
       item_priority := None; item_source := None |};
    {| item_type := Some (JStr "appointment"); item_data := None;
       item_priority := Some (JStr "urgent"); item_source := None |} ].

(** Three items of which the second carries [null] as its type. *)
Definition null_type_items : list BulkItem :=
  [ {| item_type := Some (JStr "invoice"); item_data := None;
       item_priority := Some (JStr "high"); item_source := None |};
    {| item_type := Some JNull; item_data := None;
       item_priority := None; item_source := None |};
    {| item_type := Some (JStr "appointment"); item_data := None;
       item_priority := Some (JStr "urgent"); item_source := None |} ].

Definition three_env (i : nat) : string * Z :=
  match i with
  | O => ("id-0", 10)
  | S O => ("id-1", 11)
  | _ => ("id-2", 12)
  end.

Definition invoice_payload : ContextPayload :=
  {| p_session_id := "call-1"; p_type := "invoice"; p_data := [];
     p_priority := "high"; p_ttl_seconds := Some 60; p_source := "n8n" |}.

Definition appointment_payload : ContextPayload :=
  {| p_session_id := "call-1"; p_type := "appointment"; p_data := [];
     p_priority := "urgent"; p_ttl_seconds := None; p_source := "n8n" |}.

Definition same_type_twice : list Op :=
  [OpAdd {| p_session_id := "call-1"; p_type := "invoice";
            p_data := [("amount", JStr "old")]; p_priority := "normal";
            p_ttl_seconds := None; p_source := "n8n" |} 1800 "id-0" 0;
   OpAdd {| p_session_id := "call-1"; p_type := "invoice";
            p_data := [("amount", JStr "new")]; p_priority := "urgent";
            p_ttl_seconds := None; p_source := "n8n" |} 1800 "id-1" 1].

Definition two_adds : list Op :=
  [OpAdd invoice_payload 1800 "id-0" 0;
   OpAdd appointment_payload 1800 "id-1" 0].

(** An injection whose TTL override has no float. *)
Definition huge_ttl_payload : ContextPayload :=
  {| p_session_id := "call-1"; p_type := "invoice"; p_data := [];
     p_priority := "high"; p_ttl_seconds := Some (2 ^ 1024);
     p_source := "n8n" |}.

End ContextApi.

(* ===================================================================== *)
(** ** Properties of the session manager *)
(* ===================================================================== *)

Section server_registry.
Import Server.

Lemma foldl_delete_lookup {A} (ks : list string) (m : gmap string A) k :
  foldl (λ m sid, delete sid m) m ks !! k =
  if bool_decide (k ∈ ks) then None else m !! k.
Proof.
  revert m. induction ks as [|a ks IH]; intros m; cbn [foldl].
  - case_bool_decide as H; [by apply elem_of_nil in H | done].
  - rewrite IH. destruct (decide (k = a)) as [->|Hne].
    + rewrite lookup_delete_eq.
      rewrite (bool_decide_eq_true_2 (a ∈ a :: ks)) by left.
      by case_bool_decide.
    + rewrite lookup_delete_ne by done.
      case_bool_decide as H1; case_bool_decide as H2; try done.
      * exfalso. apply H2. by right.
      * exfalso. apply elem_of_cons in H2 as [?|?]; done.
Qed.

Lemma foldl_delete_subseteq {A} (ks : list string) (m : gmap string A) :
  foldl (λ m sid, delete sid m) m ks ⊆ m.
Proof.
  apply map_subseteq_spec. intros k v. rewrite foldl_delete_lookup.
  by case_bool_decide.
Qed.

Lemma filter_all {A} (P : A → Prop) `{!∀ x, Decision (P x)} (l : list A) :
  Forall P l → filter P l = l.
Proof.
  induction 1 as [|x l Hx _ IH]; [done|].
  by rewrite filter_cons_True, IH.
Qed.

Lemma active_count_size st :
  registry_ok st → active_count st = Z.of_nat (size (sessions (mgr st))).
Proof.
  intros Hok. unfold active_count. f_equal.
  rewrite <- length_map_to_list, <- (length_fmap snd).
  f_equal. apply filter_all. apply Forall_forall. intros l Hl.
  apply list_elem_of_fmap in Hl as [[k l'] [-> Hin]].
  apply elem_of_map_to_list in Hin. apply Hok in Hin as (v & Hv & Hact & _).
  unfold active_at. simpl. by rewrite Hv.
Qed.

Lemma registry_ok_init max : registry_ok (init max).
Proof. intros sid l H. simpl in H. by rewrite lookup_empty in H. Qed.

Lemma registry_ok_create persona sid t1 t2 st :
  registry_ok st → registry_ok (create persona sid t1 t2 st).2.
Proof.
  intros Hok. unfold create. case_bool_decide; simpl; [done|].
  intros k l. simpl. destruct (decide (sid = k)) as [->|Hne].
  - rewrite lookup_insert_eq. intros [= <-].
    eexists. split; [by rewrite lookup_app_r, Nat.sub_diag by done|done].
  - rewrite lookup_insert_ne by done. intros Hk.
    destruct (Hok _ _ Hk) as (v & Hv & ? & ?).
    exists v. split; [|done]. by apply lookup_app_l_Some.
Qed.

Lemma registry_ok_update l f st :
  keeps_identity f → registry_ok st → registry_ok (update l f st).
Proof.
  intros Hf Hok k l' Hk. simpl in Hk.
  destruct (Hok _ _ Hk) as (v & Hv & Hact & Hid).
  unfold update; simpl. rewrite list_lookup_alter.
  case_decide as E; [|eauto].
  subst l'. rewrite Hv. simpl. exists (f v).
  destruct (Hf v) as [-> ->]. done.
Qed.

Lemma registry_ok_end sid now st :
  registry_ok st → registry_ok (end_ sid now st).2.
Proof.
  intros Hok. unfold end_.
  destruct (sessions (mgr st) !! sid) as [l|] eqn:Hsid; [|done].
  assert (Hok' : registry_ok
    (update l (set_is_active false)
       (with_sessions (delete sid (sessions (mgr st))) st))).
  { intros k l' Hk. simpl in Hk.
    apply lookup_delete_Some in Hk as [Hne Hk].
    destruct (Hok _ _ Hk) as (v & Hv & Hact & Hid).
    destruct (Hok _ _ Hsid) as (w & Hw & _ & Hidw).
    simpl. rewrite list_lookup_alter_ne; [eauto|].
    intros ->. congruence. }
  by destruct (heap _ !! l).
Qed.

Lemma registry_ok_cleanup_stale timeout now st :
  registry_ok st → registry_ok (cleanup_stale timeout now st).2.
Proof.
  intros Hok k l Hk. simpl in Hk.
  eapply lookup_weaken in Hk; [|apply foldl_delete_subseteq].
  apply (Hok _ _ Hk).
Qed.

Lemma keeps_identity_transcript_append t : keeps_identity (transcript_append t).
Proof. by intros v. Qed.
Lemma keeps_identity_incr_in : keeps_identity incr_audio_chunks_in.
Proof. by intros v. Qed.
Lemma keeps_identity_incr_out : keeps_identity incr_audio_chunks_out.
Proof. by intros v. Qed.
Lemma keeps_identity_last_activity t : keeps_identity (set_last_activity t).
Proof. by intros v. Qed.

Lemma registry_ok_step st o : registry_ok st → registry_ok (step st o).
Proof.
  intros Hok. destruct o; simpl.
  - by apply registry_ok_create.
  - done.
  - by apply registry_ok_end.
  - by apply registry_ok_cleanup_stale.
  - apply registry_ok_update; [apply keeps_identity_transcript_append | done].
  - apply registry_ok_update; [apply keeps_identity_last_activity|].
    apply registry_ok_update; [apply keeps_identity_incr_in | done].
Qed.

Lemma registry_ok_run ops st : registry_ok st → registry_ok (run st ops).
Proof.
  revert st. induction ops as [|o ops IH]; intros st Hok; [done|].
  apply IH. by apply registry_ok_step.
Qed.

Lemma max_sessions_step st o : max_sessions (mgr (step st o)) = max_sessions (mgr st).
Proof.
  destruct o; simpl; try done.
  - unfold create. by case_bool_decide.
  - unfold end_. destruct (sessions (mgr st) !! sid); [|done].
    by destruct (heap _ !! _).
Qed.

(** Registry size after each operation. *)
Lemma size_step_le st o :
  registry_ok st →
  Z.of_nat (size (sessions (mgr st))) ≤ max_sessions (mgr st) →
  Z.of_nat (size (sessions (mgr (step st o)))) ≤ max_sessions (mgr st).
Proof.
  intros Hok Hle. destruct o; simpl; try done.
  - unfold create. rewrite (active_count_size _ Hok).
    case_bool_decide as Hcap; simpl; [done|].
    pose proof (map_size_insert sid (length (heap st)) (sessions (mgr st))) as Hs.
    destruct (sessions (mgr st) !! sid); simpl in *; lia.
  - unfold end_. destruct (sessions (mgr st) !! sid) as [l|] eqn:E; [|done].
    assert (size (delete sid (sessions (mgr st))) ≤ size (sessions (mgr st)))%nat
      by (apply map_subseteq_size, delete_subseteq).
    destruct (heap _ !! l); simpl; lia.
  - match goal with |- context [size ?m] =>
      assert (size m ≤ size (sessions (mgr st)))%nat
        by (apply map_subseteq_size, foldl_delete_subseteq) end.
    lia.
Qed.

Lemma active_count_bounded_run ops st :
  registry_ok st →
  Z.of_nat (size (sessions (mgr st))) ≤ max_sessions (mgr st) →
  active_count (run st ops) ≤ max_sessions (mgr st).
Proof.
  revert st. induction ops as [|o ops IH]; intros st Hok Hle.
  - simpl. by rewrite active_count_size.
  - simpl. rewrite <- (max_sessions_step st o). apply IH.
    + by apply registry_ok_step.
    + rewrite max_sessions_step. by apply size_step_le.
Qed.

(** Claim C1.  [create] raises exactly when the number of active sessions
    has reached [max_sessions], and then it raises the 503 "Server at
    capacity" and leaves the whole state as it was.  When it returns and the
    uuid it drew is not a key of the registry, the registry gains exactly
    that one key, bound to the new session object.  From a fresh manager
    with a non-negative maximum, [active_count] stays at or below the maximum
    along every sequence of calls. *)
Theorem create_admission_control :
  (∀ st persona sid t_created t_activity,
     let r := create persona sid t_created t_activity st in
     ((∃ e, r.1 = inl e) ↔ max_sessions (mgr st) ≤ active_count st)
     ∧ (∀ e, r.1 = inl e →
          e = HTTPException 503 "Server at capacity" ∧ r.2 = st)
     ∧ (∀ l, r.1 = inr l → sessions (mgr st) !! sid = None →
          sessions (mgr r.2) = <[sid := l]> (sessions (mgr st))
          ∧ size (sessions (mgr r.2)) = S (size (sessions (mgr st)))
          ∧ heap r.2 =
              heap st ++
                [ {| session_id := sid; persona := persona;
                     created_at := t_created; transcript := [];
                     audio_chunks_in := 0; audio_chunks_out := 0;
                     is_active := true; last_activity := t_activity |} ]
          ∧ heap r.2 !! l =
              Some {| session_id := sid; persona := persona;
                      created_at := t_created; transcript := [];
                      audio_chunks_in := 0; audio_chunks_out := 0;
                      is_active := true; last_activity := t_activity |}
          ∧ (registry_ok st → active_count r.2 = active_count st + 1)))
  ∧ (∀ max ops, 0 ≤ max → active_count (run (init max) ops) ≤ max).
Proof.
  split.
  - intros st persona sid t1 t2 r. subst r. split; [|split].
    + unfold create. case_bool_decide; simpl; split; intros; try done.
      * by eexists.
      * destruct H0 as [e He]. discriminate.
    + intros e. unfold create. case_bool_decide; simpl; [|discriminate].
      by intros [= <-].
    + intros l Hl Hfresh.
      pose proof (registry_ok_create persona sid t1 t2 st) as Hpres.
      revert Hl Hpres. unfold create. case_bool_decide; simpl; [discriminate|].
      intros [= <-] Hpres. split; [done|]. split; [by apply map_size_insert_None|].
      split; [done|]. split; [by rewrite lookup_app_r, Nat.sub_diag|].
      intros Hok. rewrite (active_count_size _ (Hpres Hok)), (active_count_size _ Hok).
      simpl. rewrite map_size_insert_None by done. lia.
  - intros max ops Hmax.
    apply (active_count_bounded_run ops (init max)).
    + apply registry_ok_init.
    + simpl. rewrite map_size_empty. lia.
Qed.

Lemma create_admission_control_witness :
  active_count
    (run (init 2) [OpCreate "default" "s1" 0 0; OpCreate "sales" "s2" 1 1;
                   OpCreate "support" "s3" 2 2]) ≤ 2
  ∧ (create "support" "s3" 2 2
       (run (init 2) [OpCreate "default" "s1" 0 0; OpCreate "sales" "s2" 1 1])).2
    = run (init 2) [OpCreate "default" "s1" 0 0; OpCreate "sales" "s2" 1 1]
  ∧ size (sessions (mgr (create "sales" "s2" 1 1
       (run (init 2) [OpCreate "default" "s1" 0 0])).2)) = 2%nat.
Proof.
  destruct create_admission_control as [Hcreate Hrun].
  split; [apply Hrun; lia|]. split.
  - destruct (Hcreate (run (init 2) [OpCreate "default" "s1" 0 0; OpCreate "sales" "s2" 1 1])
                "support" "s3" 2 2) as (_ & Hfail & _).
    apply (Hfail (HTTPException 503 "Server at capacity")). vm_compute. reflexivity.
  - destruct (Hcreate (run (init 2) [OpCreate "default" "s1" 0 0])
                "sales" "s2" 1 1) as (_ & _ & Hsucc).
    destruct (Hsucc 1%nat) as (_ & Hsize & _).
    + vm_compute. reflexivity.
    + vm_compute. reflexivity.
    + rewrite Hsize. vm_compute. reflexivity.
Defined.

(** Claim C9.  In every state a fresh manager reaches through [create],
    [get], [end], [cleanup_stale] and the handlers' mutations, every
    registered session object is active, so [active_count] is the number of
    registered sessions, and an object whose [is_active] is false is not
    referenced by the registry. *)
Theorem registry_invariant (max : Z) (ops : list Op) :
  let st := run (init max) ops in
  (∀ sid l, sessions (mgr st) !! sid = Some l →
     ∃ v, heap st !! l = Some v ∧ is_active v = true)
  ∧ active_count st = Z.of_nat (size (sessions (mgr st)))
  ∧ (∀ l v, heap st !! l = Some v → is_active v = false →
       ∀ sid, sessions (mgr st) !! sid ≠ Some l).
Proof.
  intros st.
  assert (Hok : registry_ok st) by apply registry_ok_run, registry_ok_init.
  split; [|split].
  - intros sid l H. destruct (Hok _ _ H) as (v & ? & ? & _). eauto.
  - by apply active_count_size.
  - intros l v Hv Hina sid H. destruct (Hok _ _ H) as (w & Hw & Hact & _).
    congruence.
Qed.

Lemma registry_invariant_witness :
  active_count (run (init 2) busy_day) = 1
  ∧ size (sessions (mgr (run (init 2) busy_day))) = 1%nat.
Proof.
  destruct (registry_invariant 2 busy_day) as (_ & Hcount & _).
  split; [rewrite Hcount|]; vm_compute; reflexivity.
Defined.

(** An id that is not registered stays unregistered until a [create] draws
    it again. *)
Lemma unregistered_step st o sid :
  never_creates sid [o] →
  sessions (mgr st) !! sid = None → sessions (mgr (step st o)) !! sid = None.
Proof.
  intros Hnc Hnone. apply Forall_cons in Hnc as [Ho _].
  destruct o; simpl; try done.
  - unfold create. case_bool_decide; simpl; [done|].
    by rewrite lookup_insert_ne.
  - unfold end_. destruct (sessions (mgr st) !! sid0) as [l|] eqn:E; [|done].
    assert (delete sid0 (sessions (mgr st)) !! sid = None).
    { apply lookup_delete_None. by right. }
    by destruct (heap _ !! l).
  - rewrite foldl_delete_lookup. by case_bool_decide.
Qed.

Lemma unregistered_run ops st sid :
  never_creates sid ops →
  sessions (mgr st) !! sid = None → sessions (mgr (run st ops)) !! sid = None.
Proof.
  revert st. induction ops as [|o ops IH]; intros st Hnc Hnone; [done|].
  apply Forall_cons in Hnc as [Ho Hnc]. simpl. apply IH; [done|].
  apply unregistered_step; [|done]. by apply Forall_cons.
Qed.

Lemma end_unregistered sid now st :
  sessions (mgr st) !! sid = None → end_ sid now st = (None, st).
Proof. intros H. unfold end_. by rewrite H. Qed.

(** What a call sequence does to one session object: only the handler's
    appends change its transcript, nothing changes its creation time. *)
Lemma step_object st o l v :
  heap st !! l = Some v →
  ∃ v', heap (step st o) !! l = Some v'
        ∧ transcript v' = transcript v ++ appended l [o]
        ∧ created_at v' = created_at v
        ∧ persona v' = persona v.
Proof.
  intros Hv. destruct o; simpl.
  - unfold create. case_bool_decide; simpl.
    + exists v. by rewrite app_nil_r.
    + exists v. rewrite app_nil_r. split; [|done]. by apply lookup_app_l_Some.
  - exists v. by rewrite app_nil_r.
  - unfold end_. destruct (sessions (mgr st) !! sid) as [l'|] eqn:E.
    + assert (∃ v', alter (set_is_active false) l' (heap st) !! l = Some v'
               ∧ transcript v' = transcript v ++ []
               ∧ created_at v' = created_at v ∧ persona v' = persona v) as Hgoal.
      { rewrite list_lookup_alter. case_decide as El.
        - subst l'. rewrite Hv. simpl. eexists. split; [done|].
          by rewrite app_nil_r.
        - exists v. by rewrite app_nil_r. }
      unfold update, with_sessions. simpl. by destruct (alter _ _ _ !! l').
    + exists v. by rewrite app_nil_r.
  - exists v. by rewrite app_nil_r.
  - rewrite list_lookup_alter. case_decide as El.
    + subst session. rewrite Hv. simpl. eexists. split; [done|]. done.
    + exists v. by rewrite app_nil_r.
  - rewrite list_lookup_alter. case_decide as El.
    + subst session. rewrite list_lookup_alter_eq, Hv. simpl.
      eexists. split; [done|]. by rewrite app_nil_r.
    + rewrite list_lookup_alter_ne by done. exists v. by rewrite app_nil_r.
Qed.

Lemma appended_app l ops1 ops2 :
  appended l (ops1 ++ ops2) = appended l ops1 ++ appended l ops2.
Proof.
  induction ops1 as [|o ops1 IH]; [done|].
  destruct o; simpl; try done. case_decide; [|done]. by rewrite IH.
Qed.

Lemma run_object ops st l v :
  heap st !! l = Some v →
  ∃ v', heap (run st ops) !! l = Some v'
        ∧ transcript v' = transcript v ++ appended l ops
        ∧ created_at v' = created_at v
        ∧ persona v' = persona v.
Proof.
  revert st v. induction ops as [|o ops IH]; intros st v Hv.
  - exists v. by rewrite app_nil_r.
  - destruct (step_object st o l v Hv) as (v1 & Hv1 & Ht1 & Hc1 & Hp1).
    destruct (IH (step st o) v1 Hv1) as (v2 & Hv2 & Ht2 & Hc2 & Hp2).
    exists v2. split; [done|]. split; [|split; congruence].
    rewrite Ht2, Ht1, <- app_assoc. f_equal.
    change (o :: ops) with ([o] ++ ops). by rewrite appended_app.
Qed.

(** Claim C2.  [end] of a registered id removes the id from the registry
    and returns a summary with [duration_seconds = now - created_at] and
    [turn_count] the length of the transcript; from then on, until a
    [create] draws that id again, every [end] of it returns [None] and
    changes nothing.  The transcript of a session object is the list of the
    turns appended to it since its creation, and its [created_at] is the one
    [create] gave it. *)
Theorem end_first_summary_then_absent :
  (∀ st sid l v now,
     sessions (mgr st) !! sid = Some l → heap st !! l = Some v →
     ∃ s st',
       end_ sid now st = (Some s, st')
       ∧ sum_session_id s = sid
       ∧ sum_persona s = persona v
       ∧ duration_seconds s = now - created_at v
       ∧ turn_count s = Z.of_nat (length (transcript v))
       ∧ sum_transcript s = transcript v
       ∧ sessions (mgr st') = delete sid (sessions (mgr st))
       ∧ heap st' = alter (set_is_active false) l (heap st)
       ∧ ∀ ops now', never_creates sid ops →
           end_ sid now' (run st' ops) = (None, run st' ops))
  ∧ (∀ st persona sid t_created t_activity l st1 ops,
       create persona sid t_created t_activity st = (inr l, st1) →
       ∃ v, heap (run st1 ops) !! l = Some v
            ∧ transcript v = appended l ops
            ∧ created_at v = t_created).
Proof.
  split.
  - intros st sid l v now Hsid Hv. unfold end_. rewrite Hsid.
    unfold update, with_sessions. simpl.
    rewrite list_lookup_alter_eq, Hv. simpl.
    eexists _, _. split; [reflexivity|]. simpl.
    repeat (split; [done|]).
    intros ops now' Hnc. apply end_unregistered, unregistered_run; [done|].
    simpl. apply lookup_delete_eq.
  - intros st persona sid t0 t1 l st1 ops. unfold create.
    case_bool_decide; [discriminate|]. intros [= <- <-].
    set (new := {| session_id := sid; persona := persona; created_at := t0;
                   transcript := []; audio_chunks_in := 0;
                   audio_chunks_out := 0; is_active := true;
                   last_activity := t1 |}).
    match goal with |- context [run ?s ops] =>
      destruct (run_object ops s (length (heap st)) new)
        as (v & Hv & Ht & Hc & _) end.
    { simpl. by rewrite lookup_app_r, Nat.sub_diag. }
    exists v. by repeat split.
Qed.

Lemma end_first_summary_then_absent_witness :
  (∃ s st',
     end_ "s1" 9 (run (init 2) two_turns) = (Some s, st')
     ∧ duration_seconds s = 7 ∧ turn_count s = 2
     ∧ end_ "s1" 10 (run st' [OpCleanupStale 300 11])
       = (None, run st' [OpCleanupStale 300 11]))
  ∧ (∃ v, heap (run (create "support" "s1" 2 3 (init 2)).2 (tail two_turns))
            !! 0%nat = Some v
          ∧ length (transcript v) = 2%nat ∧ created_at v = 2).
Proof.
  destruct end_first_summary_then_absent as [Hend Hcreated]. split.
  - destruct (Hend (run (init 2) two_turns) "s1" 0%nat
      {| session_id := "s1"; persona := "support"; created_at := 2;
         transcript :=
           [ {| speaker := "user"; text := "a"; timestamp := 4 |};
             {| speaker := "user"; text := "b"; timestamp := 5 |} ];
         audio_chunks_in := 0; audio_chunks_out := 0; is_active := true;
         last_activity := 3 |} 9)
      as (s & st' & Heq & _ & _ & Hd & Ht & _ & _ & _ & Hnext).
    + vm_compute. reflexivity.
    + vm_compute. reflexivity.
    + exists s, st'. split; [exact Heq|]. split; [exact Hd|].
      split; [exact Ht|]. apply Hnext. repeat constructor.
  - destruct (Hcreated (init 2) "support" "s1" 2 3 0%nat
                (create "support" "s1" 2 3 (init 2)).2 (tail two_turns))
      as (v & Hv & Ht & Hc).
    + vm_compute. reflexivity.
    + exists v. split; [exact Hv|]. split; [by rewrite Ht | exact Hc].
Defined.

Lemma active_at_app_inactive h v l :
  is_active v = false → active_at (h ++ [v]) l = active_at h l.
Proof.
  intros Hv. unfold active_at.
  destruct (decide (l < length h)%nat) as [Hlt|Hge].
  - by rewrite lookup_app_l.
  - rewrite lookup_app_r by lia. rewrite (lookup_ge_None_2 h) by lia.
    by destruct (l - length h)%nat as [|[|n]]; simpl.
Qed.

Lemma active_count_app_inactive h v m :
  is_active v = false →
  active_count {| heap := h ++ [v]; mgr := m |} =
  active_count {| heap := h; mgr := m |}.
Proof.
  intros Hv. unfold active_count. simpl. f_equal. f_equal.
  apply list_filter_iff. intros l. by rewrite active_at_app_inactive.
Qed.

Lemma update_last h x m f :
  update (length h) f {| heap := h ++ [x]; mgr := m |} =
  {| heap := h ++ [f x]; mgr := m |}.
Proof.
  unfold update. simpl. f_equal.
  rewrite alter_app_r_alt, Nat.sub_diag by lia. done.
Qed.

Lemma end_last h x m mx sid now :
  m !! sid = None →
  end_ sid now
    {| heap := h ++ [x];
       mgr := {| sessions := <[sid := length h]> m; max_sessions := mx |} |} =
  (Some {| sum_session_id := sid;
           sum_persona := persona x;
           duration_seconds := now - created_at x;
           turn_count := Z.of_nat (length (transcript x));
           sum_transcript := transcript x;
           sum_audio_chunks_in := audio_chunks_in x;
           sum_audio_chunks_out := audio_chunks_out x |},
   {| heap := h ++ [set_is_active false x];
      mgr := {| sessions := m; max_sessions := mx |} |}).
Proof.
  intros Hfresh. unfold end_. simpl. rewrite lookup_insert_eq.
  unfold with_sessions. simpl. rewrite update_last. simpl.
  rewrite list_lookup_alter_eq, lookup_app_r, Nat.sub_diag by lia. simpl.
  by rewrite delete_insert_id.
Qed.

(** Claim C10.  When the uuid it draws is not already registered,
    [text_inference] leaves the registry and [active_count] as it found
    them, whether it is refused, the inference returns or the inference
    raises; the session it created is an inactive, unregistered object when
    it returns. *)
Theorem text_inference_releases_session
    (loaded : bool) (infer_text : string → string → exn + InferResult)
    (env : InferEnv) (request : InferRequest) (st : State) :
  sessions (mgr st) !! env_uuid env = None →
  let r := text_inference loaded infer_text env request st in
  sessions (mgr r.2) = sessions (mgr st)
  ∧ active_count r.2 = active_count st
  ∧ (∀ l st1,
       loaded = true →
       create (req_persona request) (env_uuid env) (env_created env)
              (env_activity env) st = (inr l, st1) →
       ∃ v, heap r.2 = heap st ++ [v]
            ∧ heap r.2 !! l = Some v
            ∧ session_id v = env_uuid env
            ∧ is_active v = false
            ∧ match infer_text (req_text request) (req_persona request) with
              | inl e => r.1 = inl e ∧ transcript v = []
              | inr result =>
                  (∃ resp, r.1 = inr resp
                           ∧ resp_session_id resp = env_uuid env
                           ∧ resp_response_text resp = response_text result)
                  ∧ length (transcript v) = 2%nat
              end).
Proof.
  intros Hfresh r. subst r. unfold text_inference.
  destruct loaded; simpl; [|by repeat split].
  unfold create. case_bool_decide as Hcap; simpl.
  { split; [done|]. split; [done|]. intros l st1 _ [=]. }
  unfold try_finally_end. destruct st as [h [m mx]]. simpl in *.
  destruct (infer_text (req_text request) (req_persona request)) as [e|result].
  - rewrite end_last by done. simpl. split; [done|]. split.
    + by apply active_count_app_inactive.
    + intros l st1 _ [= <- <-]. eexists. split; [done|].
      rewrite lookup_app_r, Nat.sub_diag by lia. done.
  - rewrite !update_last, end_last by done. simpl. split; [done|]. split.
    + by apply active_count_app_inactive.
    + intros l st1 _ [= <- <-]. eexists. split; [done|].
      rewrite lookup_app_r, Nat.sub_diag by lia. repeat split; eauto.
Qed.

Lemma text_inference_releases_session_witness :
  active_count
    (text_inference true (λ _ _, inl (Fault "model crashed"))
       {| env_uuid := "u1"; env_created := 5; env_activity := 5;
          env_user_turn := 6; env_assistant_turn := 6; env_end := 7 |}
       {| req_text := "randevu"; req_persona := "default" |}
       (run (init 4) [OpCreate "default" "s1" 0 0])).2
  = active_count (run (init 4) [OpCreate "default" "s1" 0 0]).
Proof.
  refine (proj1 (proj2
    (text_inference_releases_session true (λ _ _, inl (Fault "model crashed"))
       {| env_uuid := "u1"; env_created := 5; env_activity := 5;
          env_user_turn := 6; env_assistant_turn := 6; env_end := 7 |}
       {| req_text := "randevu"; req_persona := "default" |}
       (run (init 4) [OpCreate "default" "s1" 0 0]) _))).
  vm_compute. reflexivity.
Defined.

(** Claim C8.  An audio frame longer than [MAX_AUDIO_CHUNK_SIZE] changes
    nothing, sends nothing and the loop goes on as if it had not arrived; a
    frame of at most that size adds one to [audio_chunks_in] and stamps
    [last_activity], and leaves the rest of the session and the registry
    alone. *)
Theorem oversized_audio_dropped
    (cfg : Settings) (session : ref) (audio_chunk : list byte) (now : Z)
    (st : State) :
  (MAX_AUDIO_CHUNK_SIZE cfg < Z.of_nat (length audio_chunk) →
     loop_body cfg session (Received (ReceiveBytes audio_chunk) now) st
       = (Continue, [], st)
     ∧ ∀ evs,
         main_loop cfg session
           (Received (ReceiveBytes audio_chunk) now :: evs) st
         = main_loop cfg session evs st)
  ∧ (Z.of_nat (length audio_chunk) ≤ MAX_AUDIO_CHUNK_SIZE cfg →
     ∀ v, heap st !! session = Some v →
       ∃ st' v',
         loop_body cfg session (Received (ReceiveBytes audio_chunk) now) st
           = (Continue, [], st')
         ∧ mgr st' = mgr st
         ∧ heap st' !! session = Some v'
         ∧ (∀ l, l ≠ session → heap st' !! l = heap st !! l)
         ∧ audio_chunks_in v' = audio_chunks_in v + 1
         ∧ last_activity v' = now
         ∧ audio_chunks_out v' = audio_chunks_out v
         ∧ transcript v' = transcript v
         ∧ is_active v' = is_active v).
Proof.
  split.
  - intros Hbig.
    assert (Hbody : loop_body cfg session
              (Received (ReceiveBytes audio_chunk) now) st = (Continue, [], st)).
    { unfold loop_body. by rewrite bool_decide_eq_true_2. }
    split; [done|]. intros evs. cbn [main_loop]. rewrite Hbody.
    by destruct (main_loop cfg session evs st) as [[status out] st2].
  - intros Hsmall v Hv. unfold loop_body.
    rewrite bool_decide_eq_false_2 by lia. simpl.
    eexists _, _. split; [reflexivity|]. simpl. split; [done|].
    rewrite !list_lookup_alter_eq, Hv. simpl. split; [done|].
    split; [|done].
    intros l Hne. by rewrite !list_lookup_alter_ne.
Qed.

Lemma oversized_audio_dropped_witness :
  loop_body settings 0%nat
    (Received (ReceiveBytes (replicate (Z.to_nat 32001) x00)) 50)
    (run (init 4) [OpCreate "default" "s1" 0 0])
  = (Continue, [], run (init 4) [OpCreate "default" "s1" 0 0])
  ∧ ∃ st' v',
      loop_body settings 0%nat
        (Received (ReceiveBytes (replicate (Z.to_nat 32000) x00)) 50)
        (run (init 4) [OpCreate "default" "s1" 0 0])
      = (Continue, [], st')
      ∧ heap st' !! 0%nat = Some v'
      ∧ audio_chunks_in v' = 1 ∧ last_activity v' = 50.
Proof.
  split.
  - refine (proj1 (proj1 (oversized_audio_dropped settings 0%nat
      (replicate (Z.to_nat 32001) x00) 50
      (run (init 4) [OpCreate "default" "s1" 0 0])) _)).
    vm_compute. reflexivity.
  - destruct (proj2 (oversized_audio_dropped settings 0%nat
      (replicate (Z.to_nat 32000) x00) 50
      (run (init 4) [OpCreate "default" "s1" 0 0])))
      with (v := {| session_id := "s1"; persona := "default"; created_at := 0;
                    transcript := []; audio_chunks_in := 0;
                    audio_chunks_out := 0; is_active := true;
                    last_activity := 0 |})
      as (st' & v' & Hb & _ & Hv' & _ & Hin & Hact & _).
    + vm_compute. intros H. discriminate H.
    + vm_compute. reflexivity.
    + exists st', v'. by repeat split.
Defined.

End server_registry.

(* ===================================================================== *)
(** ** Properties of the context store *)
(* ===================================================================== *)

Section context_store.
Import ContextApi.

Section sort_by.
Context {A : Type} (key : A → Z).

Lemma insert_by_perm x l : insert_by key x l ≡ₚ x :: l.
Proof.
  induction l as [|y l IH]; simpl; [done|].
  case_bool_decide; [done|]. rewrite IH. apply Permutation_swap.
Qed.

Lemma sort_by_perm l : sort_by key l ≡ₚ l.
Proof.
  induction l as [|x l IH]; simpl; [done|].
  by rewrite insert_by_perm, IH.
Qed.

Lemma insert_by_sorted x l :
  StronglySorted (key_le key) l → StronglySorted (key_le key) (insert_by key x l).
Proof.
  induction 1 as [|y l Hl IH Hy]; simpl.
  - repeat constructor.
  - case_bool_decide as Hxy.
    + constructor; [by constructor|].
      constructor; [done|].
      eapply Forall_impl; [exact Hy|]. unfold key_le. intros z ?. lia.
    + constructor; [done|].
      rewrite insert_by_perm. constructor; [unfold key_le; lia | done].
Qed.

Lemma sort_by_sorted l : StronglySorted (key_le key) (sort_by key l).
Proof.
  induction l as [|x l IH]; simpl; [constructor|].
  by apply insert_by_sorted.
Qed.

(** Insertion keeps the order among the elements of one key. *)
Lemma insert_by_filter k x l :
  StronglySorted (key_le key) l →
  filter (λ y, key y = k) (insert_by key x l) =
  filter (λ y, key y = k) (x :: l).
Proof.
  induction 1 as [|y l Hl IH Hy]; simpl; [done|].
  case_bool_decide as Hxy; [done|].
  rewrite !filter_cons. rewrite filter_cons in IH.
  destruct (decide (key y = k)) as [Hyk|Hyk];
    destruct (decide (key x = k)) as [Hxk|Hxk]; try (by rewrite IH).
  lia.
Qed.

Lemma sort_by_stable k l :
  filter (λ y, key y = k) (sort_by key l) = filter (λ y, key y = k) l.
Proof.
  induction l as [|x l IH]; simpl; [done|].
  rewrite insert_by_filter by apply sort_by_sorted.
  by rewrite !filter_cons, IH.
Qed.

Lemma strongly_sorted_lookup l i j x y :
  StronglySorted (key_le key) l → (i < j)%nat →
  l !! i = Some x → l !! j = Some y → key x ≤ key y.
Proof.
  intros Hs. revert i j. induction Hs as [|z l Hl IH Hz]; intros i j Hij Hi Hj.
  - by rewrite lookup_nil in Hi.
  - destruct j as [|j]; [lia|]. destruct i as [|i]; simpl in *.
    + injection Hi as ->. rewrite Forall_forall in Hz.
      apply Hz. by eapply list_elem_of_lookup_2.
    + apply (IH i j); [lia|done..].
Qed.

End sort_by.

Section get_context.

Lemma get_loop_returns types include_expired now entries :
  Forall (λ e, raises types include_expired now e = false) entries →
  get_loop types include_expired now entries =
  ((λ e, if is_selected types include_expired now e
         then incr_accessed e else e) <$> entries,
   inr ((λ e, dict_of now (incr_accessed e)) <$>
          filter (λ e, is_selected types include_expired now e = true)
                 entries)).
Proof.
  induction 1 as [|e rest He _ IH]; [done|].
  cbn [get_loop]. rewrite IH, filter_cons, fmap_cons.
  unfold raises, is_selected, to_dict in *. cbn [ttl incr_accessed].
  destruct include_expired, (is_expired now e), (type_filtered types e),
    (fits_float (ttl e)); done.
Qed.

Lemma get_loop_raises types include_expired now pre bad post :
  Forall (λ e, raises types include_expired now e = false) pre →
  raises types include_expired now bad = true →
  get_loop types include_expired now (pre ++ bad :: post) =
  (((λ e, if is_selected types include_expired now e
          then incr_accessed e else e) <$> pre)
     ++ incr_accessed bad :: post,
   inl OverflowError).
Proof.
  intros Hpre Hbad. induction Hpre as [|e rest He _ IH].
  - cbn [app fmap list_fmap get_loop].
    unfold raises, is_selected, to_dict in *. cbn [ttl incr_accessed].
    destruct include_expired, (is_expired now bad),
      (type_filtered types bad), (fits_float (ttl bad)); done.
  - rewrite <- app_comm_cons. cbn [get_loop]. rewrite IH, fmap_cons.
    unfold raises, is_selected, to_dict in *. cbn [ttl incr_accessed].
    destruct include_expired, (is_expired now e), (type_filtered types e),
      (fits_float (ttl e)); done.
Qed.

(** The loop returns or meets a first entry that raises. *)
Lemma get_loop_cases types include_expired now entries :
  Forall (λ e, raises types include_expired now e = false) entries
  ∨ ∃ pre bad post,
      entries = pre ++ bad :: post
      ∧ Forall (λ e, raises types include_expired now e = false) pre
      ∧ raises types include_expired now bad = true.
Proof.
  induction entries as [|e rest IH]; [by left|].
  destruct (raises types include_expired now e) eqn:He.
  - right. by exists [], e, rest.
  - destruct IH as [IH|(pre & bad & post & -> & Hpre & Hbad)].
    + left. by constructor.
    + right. exists (e :: pre), bad, post. split; [done|].
      split; [by constructor|done].
Qed.

Lemma get_loop_inr types include_expired now entries ds :
  (get_loop types include_expired now entries).2 = inr ds →
  Forall (λ e, raises types include_expired now e = false) entries.
Proof.
  intros Hds.
  destruct (get_loop_cases types include_expired now entries)
    as [?|(pre & bad & post & -> & Hpre & Hbad)]; [done|].
  by rewrite (get_loop_raises _ _ _ _ _ _ Hpre Hbad) in Hds.
Qed.

Lemma get_loop_inl types include_expired now entries err :
  (get_loop types include_expired now entries).2 = inl err →
  err = OverflowError
  ∧ Exists (λ e, raises types include_expired now e = true) entries.
Proof.
  intros Herr.
  destruct (get_loop_cases types include_expired now entries)
    as [Hall|(pre & bad & post & -> & Hpre & Hbad)].
  - by rewrite (get_loop_returns _ _ _ _ Hall) in Herr.
  - rewrite (get_loop_raises _ _ _ _ _ _ Hpre Hbad) in Herr.
    split; [by injection Herr|].
    apply Exists_app. right. by left.
Qed.

(** Returning or not, the loop leaves every entry as it was or with its
    counter raised, and only a selected entry is touched. *)
Lemma get_loop_frame types include_expired now entries :
  Forall2 (λ e e', e' = e
                   ∨ (is_selected types include_expired now e = true
                      ∧ e' = incr_accessed e))
          entries (get_loop types include_expired now entries).1.
Proof.
  assert (Hfmap : ∀ l,
    Forall2 (λ e e', e' = e
                     ∨ (is_selected types include_expired now e = true
                        ∧ e' = incr_accessed e))
            l ((λ e, if is_selected types include_expired now e
                     then incr_accessed e else e) <$> l)).
  { induction l as [|e l IH]; [constructor|]. rewrite fmap_cons.
    constructor; [|done].
    destruct (is_selected types include_expired now e) eqn:E;
      [by right | by left]. }
  destruct (get_loop_cases types include_expired now entries)
    as [Hall|(pre & bad & post & -> & Hpre & Hbad)].
  - rewrite (get_loop_returns _ _ _ _ Hall). apply Hfmap.
  - rewrite (get_loop_raises _ _ _ _ _ _ Hpre Hbad). cbn [fst].
    apply Forall2_app; [apply Hfmap|]. constructor.
    + right. split; [|done]. unfold raises in Hbad.
      by apply andb_true_iff in Hbad as [? _].
    + apply Forall2_same_length_lookup. split; [done|].
      intros i x y Hx Hy. left. congruence.
Qed.

Lemma is_selected_no_filter include_expired now e :
  is_selected None include_expired now e = true ↔
  include_expired = true ∨ now - created_at e ≤ ttl e.
Proof.
  unfold is_selected, is_expired. simpl. rewrite andb_true_r.
  destruct include_expired; simpl.
  - naive_solver.
  - case_bool_decide; simpl; split; intros Hx; try done; try lia;
      try (destruct Hx; [done|lia]).
Qed.

Lemma is_expired_iff now e :
  is_expired now e = true ↔ now - created_at e > ttl e.
Proof. unfold is_expired. rewrite bool_decide_eq_true. lia. Qed.

Lemma get_context_returns sid types include_expired now st :
  Forall (λ e, raises types include_expired now e = false)
         (entries_of sid st) →
  (get_context sid types include_expired now st).1 =
  inr (sort_by (λ x, priority_order (d_priority x))
         ((λ e, dict_of now (incr_accessed e)) <$>
            filter (λ e, is_selected types include_expired now e = true)
                   (entries_of sid st))).
Proof.
  unfold get_context, entries_of.
  destruct (_store st !! sid) as [entries|]; simpl; [|done].
  intros Hall. by rewrite get_loop_returns.
Qed.

Lemma get_context_inr sid types include_expired now st result :
  (get_context sid types include_expired now st).1 = inr result →
  Forall (λ e, raises types include_expired now e = false)
         (entries_of sid st).
Proof.
  unfold get_context, entries_of.
  destruct (_store st !! sid) as [entries|]; simpl; [|constructor].
  destruct (get_loop types include_expired now entries) as [es' r] eqn:E.
  destruct r as [err|ds]; [done|]. intros _.
  apply (get_loop_inr _ _ _ _ ds). by rewrite E.
Qed.

Lemma get_context_result sid types include_expired now st result :
  (get_context sid types include_expired now st).1 = inr result →
  result =
  sort_by (λ x, priority_order (d_priority x))
    ((λ e, dict_of now (incr_accessed e)) <$>
       filter (λ e, is_selected types include_expired now e = true)
              (entries_of sid st)).
Proof.
  intros Hres. pose proof (get_context_inr _ _ _ _ _ _ Hres) as Hall.
  rewrite (get_context_returns _ _ _ _ _ Hall) in Hres. by injection Hres.
Qed.

Lemma get_context_inl sid types include_expired now st :
  Exists (λ e, raises types include_expired now e = true)
         (entries_of sid st) →
  (get_context sid types include_expired now st).1 = inl OverflowError.
Proof.
  intros Hex. unfold get_context. unfold entries_of in Hex.
  destruct (_store st !! sid) as [entries|]; simpl in *;
    [|by apply Exists_nil in Hex].
  destruct (get_loop types include_expired now entries) as [es' r] eqn:E.
  destruct r as [err|ds]; simpl.
  - f_equal. apply (get_loop_inl types include_expired now entries).
    by rewrite E.
  - exfalso. assert (Hall := get_loop_inr types include_expired now entries ds).
    rewrite E in Hall. specialize (Hall eq_refl).
    apply Exists_exists in Hex as (e & He & Hr).
    rewrite Forall_forall in Hall. specialize (Hall e He). congruence.
Qed.

(** Claim C4.  The list [get_context] returns is a rearrangement of the
    selected entries in which priorities never decrease in the order
    urgent, high, normal: every urgent entry stands before every high one
    and every high one before every normal one, and the entries of one
    priority keep the order in which they were stored.  The call returns
    whenever [to_dict] raises on none of the selected entries. *)
Theorem get_context_priority_order sid types include_expired now st :
  let selected :=
    (λ e, dict_of now (incr_accessed e)) <$>
      filter (λ e, is_selected types include_expired now e = true)
             (entries_of sid st) in
  (Forall (λ e, raises types include_expired now e = false)
          (entries_of sid st) →
   ∃ result, (get_context sid types include_expired now st).1 = inr result)
  ∧ ∀ result,
      (get_context sid types include_expired now st).1 = inr result →
      result ≡ₚ selected
      ∧ (∀ i j x y, (i < j)%nat →
           result !! i = Some x → result !! j = Some y →
           priority_order (d_priority x) ≤ priority_order (d_priority y))
      ∧ (∀ i j x y, result !! i = Some x → result !! j = Some y →
           (d_priority x = "urgent" ∧ d_priority y = "high")
           ∨ (d_priority x = "urgent" ∧ d_priority y = "normal")
           ∨ (d_priority x = "high" ∧ d_priority y = "normal") →
           (i < j)%nat)
      ∧ (∀ p, filter (λ x, d_priority x = p) result
              = filter (λ x, d_priority x = p) selected).
Proof.
  intros selected. split.
  { intros Hall. eexists. by apply get_context_returns. }
  intros result Hget.
  assert (Hres : result = sort_by (λ x, priority_order (d_priority x)) selected)
    by (by eapply get_context_result).
  assert (Hsorted : ∀ i j x y, (i < j)%nat →
            result !! i = Some x → result !! j = Some y →
            priority_order (d_priority x) ≤ priority_order (d_priority y)).
  { intros i j x y Hij Hi Hj. rewrite Hres in Hi, Hj.
    exact (strongly_sorted_lookup _ _ i j x y (sort_by_sorted _ _) Hij Hi Hj). }
  split; [rewrite Hres; apply sort_by_perm|]. split; [exact Hsorted|]. split.
  - intros i j x y Hi Hj Hprio.
    destruct (decide (i < j)%nat) as [|Hge]; [done|]. exfalso.
    assert (i ≠ j).
    { intros ->. rewrite Hi in Hj. injection Hj as ->.
      destruct Hprio as [[H1 H2]|[[H1 H2]|[H1 H2]]]; rewrite H1 in H2;
        discriminate. }
    assert (Hji : (j < i)%nat) by lia.
    pose proof (Hsorted j i y x Hji Hj Hi) as Hle.
    destruct Hprio as [[H1 H2]|[[H1 H2]|[H1 H2]]]; rewrite H1, H2 in Hle;
      vm_compute in Hle; by apply Hle.
  - intros p. rewrite Hres.
    rewrite <- (list_filter_filter_l
      (λ x, d_priority x = p)
      (λ x, priority_order (d_priority x) = priority_order p)
      (sort_by _ selected)) by (by intros x ->).
    rewrite <- (list_filter_filter_l
      (λ x, d_priority x = p)
      (λ x, priority_order (d_priority x) = priority_order p)
      selected) by (by intros x ->).
    by rewrite (sort_by_stable (λ x, priority_order (d_priority x))).
Qed.

Lemma get_context_priority_order_witness :
  ∃ result,
    (get_context "call-1" None false 5 (run empty_store two_adds)).1
      = inr result
    ∧ d_type <$> result = ["appointment"; "invoice"]
    ∧ ∀ i j x y,
        result !! i = Some x → result !! j = Some y →
        d_priority x = "urgent" ∧ d_priority y = "high" → (i < j)%nat.
Proof.
  destruct (get_context_priority_order "call-1" None false 5
              (run empty_store two_adds)) as [Hret Hord].
  destruct Hret as [result Hres].
  { apply (bool_decide_unpack _). vm_compute. exact I. }
  exists result. split; [exact Hres|]. split.
  - vm_compute in Hres. injection Hres as <-. reflexivity.
  - intros i j x y Hi Hj Hp.
    destruct (Hord result Hres) as (_ & _ & Ho & _).
    apply (Ho i j x y Hi Hj). by left.
Defined.

End get_context.

Section sweep.
Variable now : Z.

Lemma length_kept es :
  Z.of_nat (length es) - Z.of_nat (length (kept now es)) = expired_count now es.
Proof.
  unfold kept, expired_count. induction es as [|e es IH]; [done|].
  rewrite !filter_cons. destruct (is_expired now e); simpl in *; lia.
Qed.

Lemma sweep_step_store acc k es :
  sw_store (sweep_step now acc (k, es)) = <[k := kept now es]> (sw_store acc).
Proof. unfold sweep_step, kept. by destruct (filter _ es). Qed.

Lemma sweep_step_cleaned acc k es :
  sw_cleaned (sweep_step now acc (k, es)) = sw_cleaned acc + expired_count now es.
Proof.
  rewrite <- length_kept. unfold sweep_step, kept. by destruct (filter _ es).
Qed.

Lemma sweep_step_empty acc k es :
  sw_empty_sessions (sweep_step now acc (k, es)) =
  sw_empty_sessions acc ++ (if decide (kept now es = []) then [k] else []).
Proof.
  unfold sweep_step, kept. destruct (filter _ es); simpl; [done|].
  by rewrite app_nil_r.
Qed.

Lemma sweep_store_lookup items acc k :
  NoDup items.*1 →
  sw_store (foldl (sweep_step now) acc items) !! k =
  match list_to_map (M := gmap string (list ContextEntry)) items !! k with
  | Some es => Some (kept now es)
  | None => sw_store acc !! k
  end.
Proof.
  revert acc. induction items as [|[k0 es0] items IH]; intros acc Hnd.
  - simpl. by rewrite lookup_empty.
  - apply NoDup_cons in Hnd as [Hk0 Hnd]. cbn [foldl].
    rewrite IH by done. rewrite sweep_step_store, list_to_map_cons.
    destruct (decide (k0 = k)) as [->|Hne].
    + rewrite lookup_insert_eq.
      rewrite (not_elem_of_list_to_map_1 _ k) by done. by rewrite lookup_insert_eq.
    + rewrite !lookup_insert_ne by done. done.
Qed.

Lemma sweep_cleaned items acc :
  sw_cleaned (foldl (sweep_step now) acc items) =
  sw_cleaned acc + expired_count now (concat items.*2).
Proof.
  revert acc. induction items as [|[k0 es0] items IH]; intros acc.
  - unfold expired_count. simpl. lia.
  - cbn [foldl]. rewrite IH, sweep_step_cleaned.
    rewrite !fmap_cons. cbn [concat snd].
    unfold expired_count. rewrite filter_app, length_app. lia.
Qed.

Lemma sweep_empty items acc k :
  k ∈ sw_empty_sessions (foldl (sweep_step now) acc items) ↔
  k ∈ sw_empty_sessions acc ∨ ∃ es, (k, es) ∈ items ∧ kept now es = [].
Proof.
  revert acc. induction items as [|[k0 es0] items IH]; intros acc.
  - simpl. split; [by left|]. intros [?|(es & H & _)]; [done|].
    by apply elem_of_nil in H.
  - cbn [foldl]. rewrite IH, sweep_step_empty, elem_of_app. split.
    + intros [[?|Hk]|(es & Hin & Hk)].
      * by left.
      * right. case_decide as E; [|by apply elem_of_nil in Hk].
        apply list_elem_of_singleton in Hk as ->. exists es0. split; [left|done].
      * right. exists es. split; [by right|done].
    + intros [?|(es & Hin & Hk)]; [by left; left|].
      apply elem_of_cons in Hin as [[= -> ->]|Hin].
      * left. right. rewrite decide_True by done. by left.
      * right. eauto.
Qed.

End sweep.

Lemma cleanup_expired_lookup now st sid :
  _store (cleanup_expired now st).2 !! sid =
  match _store st !! sid with
  | Some es =>
      if decide (kept now es = []) then None else Some (kept now es)
  | None => None
  end.
Proof.
  unfold cleanup_expired. simpl. rewrite foldl_delete_lookup.
  rewrite sweep_store_lookup by apply NoDup_fst_map_to_list.
  rewrite list_to_map_to_list. simpl.
  case_bool_decide as Hin.
  - apply sweep_empty in Hin as [Hin|(es & Hin & Hk)];
      [by apply elem_of_nil in Hin|].
    apply elem_of_map_to_list in Hin. rewrite Hin. by rewrite decide_True.
  - destruct (_store st !! sid) as [es|] eqn:E; [|done].
    rewrite decide_False; [done|]. intros Hk. apply Hin, sweep_empty.
    right. exists es. split; [by apply elem_of_map_to_list|done].
Qed.

Lemma cleanup_expired_count now st :
  (cleanup_expired now st).1 =
  expired_count now (concat (map_to_list (_store st)).*2).
Proof. unfold cleanup_expired. simpl. by rewrite sweep_cleaned. Qed.

Lemma entries_of_cleanup now st sid :
  entries_of sid (cleanup_expired now st).2 = kept now (entries_of sid st).
Proof.
  unfold entries_of. rewrite cleanup_expired_lookup.
  destruct (_store st !! sid) as [es|]; simpl; [|done].
  case_decide as E; simpl; [by rewrite E | done].
Qed.

(** Property X22. Without a type filter [get_context], when it returns,
    returns exactly the entries with [now - created_at <= ttl], or all of
    them when [include_expired] is set, and it returns whenever the TTL of
    each of these has a float; [is_expired] holds exactly when
    [now - created_at > ttl]; and [cleanup_expired] keeps of every bucket
    exactly the entries that are not expired, in order, deletes a bucket
    exactly when nothing of it is left, returns the number of expired
    entries of the whole store and leaves the event log alone. *)
Theorem get_unexpired_sweep_expired :
  (∀ sid include_expired now st,
     let wanted :=
       filter (λ e, include_expired = true ∨ now - created_at e ≤ ttl e)
              (entries_of sid st) in
     (Forall (λ e, fits_float (ttl e) = true) wanted →
      ∃ result,
        (get_context sid None include_expired now st).1 = inr result)
     ∧ ∀ result,
         (get_context sid None include_expired now st).1 = inr result →
         result ≡ₚ (λ e, dict_of now (incr_accessed e)) <$> wanted
         ∧ (∀ e, e ∈ entries_of sid st →
              include_expired = true ∨ now - created_at e ≤ ttl e →
              dict_of now (incr_accessed e) ∈ result)
         ∧ (∀ d, d ∈ result →
              ∃ e, e ∈ entries_of sid st
                   ∧ d = dict_of now (incr_accessed e)
                   ∧ (include_expired = true ∨ now - created_at e ≤ ttl e)))
  ∧ (∀ now e, is_expired now e = true ↔ now - created_at e > ttl e)
  ∧ (∀ now st,
       let r := cleanup_expired now st in
       (∀ sid, entries_of sid r.2 =
               filter (λ e, ¬ ttl e < now - created_at e) (entries_of sid st))
       ∧ (∀ sid, _store r.2 !! sid = None ↔
                 Forall (λ e, ttl e < now - created_at e) (entries_of sid st))
       ∧ r.1 = Z.of_nat (length
                 (filter (λ e, ttl e < now - created_at e)
                         (concat (map_to_list (_store st)).*2)))
       ∧ _events r.2 = _events st).
Proof.
  split; [|split].
  - intros sid inc now st wanted. split.
    { intros Hfit. eexists. apply get_context_returns.
      apply Forall_forall. intros e He. unfold raises.
      destruct (is_selected None inc now e) eqn:Hsel; [|done]. simpl.
      rewrite Forall_forall in Hfit. rewrite (Hfit e); [done|].
      apply list_elem_of_filter. split; [|done].
      by apply is_selected_no_filter. }
    intros result Hget.
    assert (Hperm : result ≡ₚ (λ e, dict_of now (incr_accessed e)) <$> wanted).
    { rewrite (get_context_result _ _ _ _ _ _ Hget), sort_by_perm.
      apply fmap_Permutation. unfold wanted.
      erewrite list_filter_iff; [done|].
      intros e. apply is_selected_no_filter. }
    split; [done|]. split.
    + intros e He Hc. rewrite Hperm. apply list_elem_of_fmap.
      exists e. split; [done|]. by apply list_elem_of_filter.
    + intros d Hd. rewrite Hperm in Hd.
      apply list_elem_of_fmap in Hd as (e & -> & He).
      apply list_elem_of_filter in He as [Hc He]. eauto.
  - apply is_expired_iff.
  - intros now st r. subst r. split; [|split; [|split]].
    + intros sid. rewrite entries_of_cleanup. unfold kept.
      apply list_filter_iff. intros e. unfold is_expired.
      rewrite bool_decide_eq_false. done.
    + intros sid. rewrite cleanup_expired_lookup. unfold entries_of.
      destruct (_store st !! sid) as [es|]; simpl; [|done].
      assert (kept now es = [] ↔ Forall (λ e, ttl e < now - created_at e) es)
        as Hk.
      { unfold kept. induction es as [|e es IH]; [done|].
        rewrite filter_cons, Forall_cons. unfold is_expired at 1.
        case_decide as E.
        - apply bool_decide_eq_false in E. split; [done|]. intros [? _]. done.
        - rewrite IH. apply not_false_is_true, bool_decide_eq_true in E.
          split; [by split | by intros [_ ?]]. }
      case_decide as E; [by rewrite <- Hk|].
      split; [done|]. intros HF. by apply Hk in HF.
    + rewrite cleanup_expired_count. unfold expired_count. do 2 f_equal.
      apply list_filter_iff. intros e. unfold is_expired.
      by rewrite bool_decide_eq_true.
    + done.
Qed.

Lemma get_unexpired_sweep_expired_witness :
  (∃ result,
     (get_context "call-1" None false 61 (run empty_store two_adds)).1
       = inr result
     ∧ d_type <$> result = ["appointment"])
  ∧ type <$> entries_of "call-1" (cleanup_expired 61 (run empty_store two_adds)).2
    = ["appointment"]
  ∧ (cleanup_expired 61 (run empty_store two_adds)).1 = 1.
Proof.
  destruct get_unexpired_sweep_expired as (Hget & _ & Hsweep).
  destruct (Hsweep 61 (run empty_store two_adds)) as (Hkept & _ & Hcount & _).
  split; [|split].
  - destruct (Hget "call-1" false 61 (run empty_store two_adds))
      as [[result Hres] _].
    { apply (bool_decide_unpack _). vm_compute. exact I. }
    exists result. split; [exact Hres|].
    vm_compute in Hres. injection Hres as <-. reflexivity.
  - rewrite Hkept. vm_compute. reflexivity.
  - rewrite Hcount. vm_compute. reflexivity.
Defined.

Lemma add_context_entries payload default_ttl uuid now st sid :
  entries_of sid (add_context payload default_ttl uuid now st).2 =
  if decide (sid = p_session_id payload)
  then entries_of sid st ++
         [new_entry payload (or_int (p_ttl_seconds payload) default_ttl)
                    uuid now]
  else entries_of sid st.
Proof.
  unfold add_context, entries_of. simpl.
  case_decide as E.
  - subst sid. rewrite lookup_insert_eq. simpl.
    destruct (_store st !! p_session_id payload) as [es|] eqn:Hes; simpl.
    + by rewrite Hes.
    + by rewrite lookup_insert_eq.
  - rewrite lookup_insert_ne by done.
    destruct (_store st !! p_session_id payload); [done|].
    by rewrite lookup_insert_ne.
Qed.

(** Property X21. What [add_context] does apart from the TTL of a zero
    override: a non-zero override is the entry's TTL, without an override
    the default is; the entry is appended to its session's bucket, whose
    earlier entries and all other sessions stay as they were. *)
Lemma add_context_appends payload default_ttl uuid now st :
  let r := add_context payload default_ttl uuid now st in
  (∀ t, p_ttl_seconds payload = Some t → t ≠ 0 → ttl r.1 = t)
  ∧ (p_ttl_seconds payload = None → ttl r.1 = default_ttl)
  ∧ entries_of (p_session_id payload) r.2 =
      entries_of (p_session_id payload) st ++ [r.1]
  ∧ (∀ sid, sid ≠ p_session_id payload →
       entries_of sid r.2 = entries_of sid st).
Proof.
  intros r. subst r. split; [|split; [|split]].
  - intros t Ht Hne. simpl. rewrite Ht. simpl.
    by rewrite bool_decide_eq_false_2.
  - intros Ht. simpl. by rewrite Ht.
  - rewrite add_context_entries. by rewrite decide_True.
  - intros sid Hne. rewrite add_context_entries. by rewrite decide_False.
Qed.

(** Claim C3 at the failing input: an entry whose TTL has no float is
    stored, and a read that selects it -- before it expires, or with
    [include_expired] -- does not include it in a result: [get_context]
    raises [OverflowError] and returns nothing. *)
Theorem get_context_raises_on_huge_ttl (payload : ContextPayload)
    (default_ttl : Z) (uuid : string) (t now : Z) (include_expired : bool)
    (st : ContextStore) :
  let e := (add_context payload default_ttl uuid t st).1 in
  let st1 := (add_context payload default_ttl uuid t st).2 in
  fits_float (ttl e) = false →
  include_expired = true ∨ now - t ≤ ttl e →
  e ∈ entries_of (p_session_id payload) st1
  ∧ (include_expired = true ∨ now - created_at e ≤ ttl e)
  ∧ (get_context (p_session_id payload) None include_expired now st1).1
    = inl OverflowError.
Proof.
  intros e st1 Hfit Hsel. subst e st1.
  assert (Hin : (add_context payload default_ttl uuid t st).1
                ∈ entries_of (p_session_id payload)
                    (add_context payload default_ttl uuid t st).2).
  { rewrite add_context_entries, decide_True by done.
    apply elem_of_app. right. by left. }
  split; [exact Hin|]. split; [exact Hsel|].
  apply get_context_inl. apply Exists_exists.
  eexists. split; [exact Hin|]. unfold raises.
  rewrite Hfit. rewrite andb_true_r. by apply is_selected_no_filter.
Qed.

Lemma get_context_raises_on_huge_ttl_witness :
  (get_context "call-1" None false 1
     (add_context huge_ttl_payload 1800 "id-0" 0 empty_store).2).1
  = inl OverflowError.
Proof.
  apply (get_context_raises_on_huge_ttl huge_ttl_payload 1800 "id-0" 0 1
           false empty_store).
  - vm_compute. reflexivity.
  - right. vm_compute. intros H. discriminate H.
Defined.

(** Claim C5 at the failing input: an override of [0] is dropped and the
    entry gets the default TTL. *)
Theorem add_context_zero_ttl_uses_default
    (sid type : string) (data : Data) (priority source : string)
    (default_ttl : Z) (uuid : string) (now : Z) (st : ContextStore) :
  ttl (add_context
         {| p_session_id := sid; p_type := type; p_data := data;
            p_priority := priority; p_ttl_seconds := Some 0;
            p_source := source |}
         default_ttl uuid now st).1
  = default_ttl.
Proof. done. Qed.

Lemma payload_of_item_inr sid item ctx :
  payload_of_item sid item = inr ctx →
  p_session_id ctx = sid
  ∧ p_ttl_seconds ctx = None
  ∧ validated as_str "custom" (item_type item) = Some (p_type ctx)
  ∧ validated as_dict [] (item_data item) = Some (p_data ctx)
  ∧ validated as_str "normal" (item_priority item) = Some (p_priority ctx)
  ∧ validated as_str "n8n" (item_source item) = Some (p_source ctx).
Proof.
  unfold payload_of_item.
  destruct (validated as_str "custom" (item_type item)),
    (validated as_dict [] (item_data item)),
    (validated as_str "normal" (item_priority item)),
    (validated as_str "n8n" (item_source item)); try done.
  by intros [= <-].
Qed.

Lemma payload_of_item_inl sid item err :
  payload_of_item sid item = inl err → err = ValidationError.
Proof.
  unfold payload_of_item.
  destruct (validated as_str "custom" (item_type item)),
    (validated as_dict [] (item_data item)),
    (validated as_str "normal" (item_priority item)),
    (validated as_str "n8n" (item_source item)); try done;
    by intros [= <-].
Qed.

Lemma valid_payloads sid items :
  Forall (λ item, item_valid sid item = true) items →
  ∃ ctxs, Forall2 (λ item ctx, payload_of_item sid item = inr ctx) items ctxs.
Proof.
  induction 1 as [|item items Hv _ [ctxs IH]]; [by exists []|].
  unfold item_valid in Hv.
  destruct (payload_of_item sid item) as [|ctx] eqn:E; [done|].
  exists (ctx :: ctxs). by constructor.
Qed.

(** The loop over a batch all of whose items are accepted, [ctxs] being
    their payloads. *)
Lemma bulk_loop_spec cfg sid env i items ctxs st :
  Forall2 (λ item ctx, payload_of_item sid item = inr ctx) items ctxs →
  (bulk_loop cfg sid env i items st).1 =
    inr ((λ e, (id e, type e)) <$> bulk_entries cfg env i ctxs)
  ∧ (∀ sid',
       entries_of sid' (bulk_loop cfg sid env i items st).2 =
       if decide (sid' = sid)
       then entries_of sid' st ++ bulk_entries cfg env i ctxs
       else entries_of sid' st)
  ∧ _events (bulk_loop cfg sid env i items st).2 = _events st.
Proof.
  intros Hall. revert i st.
  induction Hall as [|item ctx items ctxs Hctx _ IH]; intros i st.
  - simpl. split; [done|]. split; [|done]. intros sid'.
    case_decide; [by rewrite app_nil_r | done].
  - cbn [bulk_loop bulk_entries]. rewrite Hctx.
    apply payload_of_item_inr in Hctx as (Hsid & Httl & _).
    destruct (add_context ctx (CONTEXT_TTL_SEC cfg) (env i).1 (env i).2 st)
      as [entry st1] eqn:Hadd.
    destruct (IH (S i) st1) as (IH1 & IH2 & IH3).
    destruct (bulk_loop cfg sid env (S i) items st1) as [results st2].
    simpl in *.
    assert (entry = (add_context ctx (CONTEXT_TTL_SEC cfg)
                       (env i).1 (env i).2 st).1) as He
      by (by rewrite Hadd).
    assert (st1 = (add_context ctx (CONTEXT_TTL_SEC cfg)
                     (env i).1 (env i).2 st).2) as Hst
      by (by rewrite Hadd).
    split; [|split].
    + rewrite IH1. do 2 f_equal. by rewrite He.
    + intros sid'. rewrite IH2, Hst, add_context_entries. simpl.
      rewrite Hsid. destruct (decide (sid' = sid)); [|done].
      by rewrite Httl, <- app_assoc.
    + by rewrite IH3, Hst.
Qed.

(** The loop over a batch whose first rejected item is [bad]. *)
Lemma bulk_loop_abort cfg sid env i pre bad post ctxs st :
  Forall2 (λ item ctx, payload_of_item sid item = inr ctx) pre ctxs →
  item_valid sid bad = false →
  (bulk_loop cfg sid env i (pre ++ bad :: post) st).1 = inl ValidationError
  ∧ (∀ sid',
       entries_of sid' (bulk_loop cfg sid env i (pre ++ bad :: post) st).2 =
       if decide (sid' = sid)
       then entries_of sid' st ++ bulk_entries cfg env i ctxs
       else entries_of sid' st)
  ∧ _events (bulk_loop cfg sid env i (pre ++ bad :: post) st).2 = _events st.
Proof.
  intros Hall Hbad. revert i st.
  induction Hall as [|item ctx items ctxs Hctx _ IH]; intros i st.
  - cbn [app bulk_loop bulk_entries]. unfold item_valid in Hbad.
    destruct (payload_of_item sid bad) as [err|] eqn:E; [|done].
    apply payload_of_item_inl in E as ->. simpl.
    split; [done|]. split; [|done]. intros sid'.
    case_decide; [by rewrite app_nil_r | done].
  - rewrite <- app_comm_cons. cbn [bulk_loop bulk_entries]. rewrite Hctx.
    apply payload_of_item_inr in Hctx as (Hsid & Httl & _).
    destruct (add_context ctx (CONTEXT_TTL_SEC cfg) (env i).1 (env i).2 st)
      as [entry st1] eqn:Hadd.
    destruct (IH (S i) st1) as (IH1 & IH2 & IH3).
    destruct (bulk_loop cfg sid env (S i) (items ++ bad :: post) st1)
      as [results st2].
    simpl in *.
    assert (st1 = (add_context ctx (CONTEXT_TTL_SEC cfg)
                     (env i).1 (env i).2 st).2) as Hst
      by (by rewrite Hadd).
    split; [|split].
    + by rewrite IH1.
    + intros sid'. rewrite IH2, Hst, add_context_entries. simpl.
      rewrite Hsid. destruct (decide (sid' = sid)); [|done].
      by rewrite Httl, <- app_assoc.
    + by rewrite IH3, Hst.
Qed.

Lemma bulk_entries_lookup cfg env i ctxs k ctx :
  ctxs !! k = Some ctx →
  bulk_entries cfg env i ctxs !! k =
  Some (new_entry ctx (CONTEXT_TTL_SEC cfg)
                  (env (i + k)%nat).1 (env (i + k)%nat).2).
Proof.
  revert i k. induction ctxs as [|x ctxs IH]; intros i k Hk.
  - by rewrite lookup_nil in Hk.
  - destruct k as [|k]; simpl in *.
    + injection Hk as ->. by rewrite Nat.add_0_r.
    + rewrite (IH (S i) k Hk). by rewrite Nat.add_succ_r.
Qed.

Lemma length_bulk_entries cfg env i ctxs :
  length (bulk_entries cfg env i ctxs) = length ctxs.
Proof.
  revert i. induction ctxs as [|x ctxs IH]; intros i; simpl; [done|].
  by rewrite IH.
Qed.

(** Claim C6, amended.  For a batch every item of which [ContextPayload]
    accepts, [receive_bulk_context] calls [add_context] once per item in
    list order and stores every item: the bucket grows by one entry per
    item, in order, and an item without a type is stored with the type
    "custom" (and the default priority, TTL and a zero counter), not
    skipped. *)
Theorem bulk_stores_every_item cfg sid env items st :
  Forall (λ item, item_valid sid item = true) items →
  let r := receive_bulk_context cfg sid env items st in
  ∃ resp stored,
    r.1 = inr resp
    ∧ entries_of sid r.2 = entries_of sid st ++ stored
    ∧ (∀ sid', sid' ≠ sid → entries_of sid' r.2 = entries_of sid' st)
    ∧ bulk_items resp = (λ e, (id e, type e)) <$> stored
    ∧ injected_count resp = Z.of_nat (length items)
    ∧ length stored = length items
    ∧ (∀ k item, items !! k = Some item →
         ∃ e, stored !! k = Some e
              ∧ id e = (env k).1
              ∧ created_at e = (env k).2
              ∧ validated as_str "custom" (item_type item) = Some (type e)
              ∧ validated as_dict [] (item_data item) = Some (data e)
              ∧ validated as_str "normal" (item_priority item)
                = Some (priority e)
              ∧ validated as_str "n8n" (item_source item) = Some (source e)
              ∧ (item_type item = None → type e = "custom")
              ∧ ttl e = CONTEXT_TTL_SEC cfg
              ∧ accessed_count e = 0).
Proof.
  intros Hvalid r. subst r. unfold receive_bulk_context.
  destruct (valid_payloads sid items Hvalid) as [ctxs Hctxs].
  destruct (bulk_loop_spec cfg sid env 0 items ctxs st Hctxs) as (H1 & H2 & _).
  destruct (bulk_loop cfg sid env 0 items st) as [results st1]. simpl in *.
  subst results. eexists _, (bulk_entries cfg env 0 ctxs).
  split; [done|]. split; [|split; [|split; [|split; [|split]]]].
  - rewrite H2. by rewrite decide_True.
  - intros sid' Hne. rewrite H2. by rewrite decide_False.
  - done.
  - simpl. rewrite length_fmap, length_bulk_entries.
    by rewrite (Forall2_length _ _ _ Hctxs).
  - rewrite length_bulk_entries. by rewrite (Forall2_length _ _ _ Hctxs).
  - intros k item Hk.
    destruct (Forall2_lookup_l _ _ _ _ _ Hctxs Hk) as (ctx & Hctx & Hpay).
    apply payload_of_item_inr in Hpay as (_ & _ & Ht & Hd & Hp & Hs).
    eexists. split; [by apply bulk_entries_lookup|]. simpl.
    do 6 (split; [done|]). split; [|done].
    intros Hnone. rewrite Hnone in Ht. simpl in Ht. by injection Ht.
Qed.

Lemma bulk_stores_every_item_witness :
  type <$> entries_of "call-1"
    (receive_bulk_context settings "call-1" three_env three_items
       empty_store).2
  = ["invoice"; "custom"; "appointment"].
Proof.
  destruct (bulk_stores_every_item settings "call-1" three_env three_items
              empty_store) as (resp & stored & _ & Hent & _).
  - apply (bool_decide_unpack _). vm_compute. exact I.
  - vm_compute. reflexivity.
Defined.

(** Claim C6 as written fails: of three items of which the second has no
    type, all three are stored, the second as "custom". *)
Lemma bulk_missing_type_is_stored :
  let r := receive_bulk_context settings "call-1" three_env three_items
             empty_store in
  type <$> entries_of "call-1" r.2 = ["invoice"; "custom"; "appointment"]
  ∧ (∃ resp, r.1 = inr resp
             ∧ bulk_items resp =
                 [("id-0", "invoice"); ("id-1", "custom");
                  ("id-2", "appointment")])
  ∧ ¬ (type <$> entries_of "call-1" r.2 = ["invoice"; "appointment"]).
Proof.
  intros r. split; [vm_compute; reflexivity|]. split.
  - eexists. split; [vm_compute; reflexivity|]. reflexivity.
  - vm_compute. intros H. discriminate H.
Qed.

(** Property X23. A batch stops at the first item [ContextPayload] rejects:
    the handler raises [ValidationError], the items before it are stored and
    stay so, and the items after it are not processed. *)
Theorem bulk_aborts_at_invalid_item cfg sid env pre bad post st :
  Forall (λ item, item_valid sid item = true) pre →
  item_valid sid bad = false →
  let r := receive_bulk_context cfg sid env (pre ++ bad :: post) st in
  ∃ stored,
    r.1 = inl ValidationError
    ∧ entries_of sid r.2 = entries_of sid st ++ stored
    ∧ length stored = length pre
    ∧ (∀ k item, pre !! k = Some item →
         ∃ e, stored !! k = Some e
              ∧ id e = (env k).1
              ∧ validated as_str "custom" (item_type item) = Some (type e))
    ∧ (∀ sid', sid' ≠ sid → entries_of sid' r.2 = entries_of sid' st)
    ∧ _events r.2 = _events st.
Proof.
  intros Hvalid Hbad r. subst r. unfold receive_bulk_context.
  destruct (valid_payloads sid pre Hvalid) as [ctxs Hctxs].
  destruct (bulk_loop_abort cfg sid env 0 pre bad post ctxs st Hctxs Hbad)
    as (H1 & H2 & H3).
  destruct (bulk_loop cfg sid env 0 (pre ++ bad :: post) st)
    as [results st1]. simpl in *.
  subst results. exists (bulk_entries cfg env 0 ctxs).
  split; [done|]. split; [|split; [|split; [|split]]].
  - rewrite H2. by rewrite decide_True.
  - rewrite length_bulk_entries. by rewrite (Forall2_length _ _ _ Hctxs).
  - intros k item Hk.
    destruct (Forall2_lookup_l _ _ _ _ _ Hctxs Hk) as (ctx & Hctx & Hpay).
    apply payload_of_item_inr in Hpay as (_ & _ & Ht & _).
    eexists. split; [by apply bulk_entries_lookup|]. done.
  - intros sid' Hne. rewrite H2. by rewrite decide_False.
  - done.
Qed.

Lemma bulk_aborts_at_invalid_item_witness :
  let r := receive_bulk_context settings "call-1" three_env null_type_items
             empty_store in
  r.1 = inl ValidationError
  ∧ type <$> entries_of "call-1" r.2 = ["invoice"].
Proof.
  destruct (bulk_aborts_at_invalid_item settings "call-1" three_env
              [ {| item_type := Some (JStr "invoice"); item_data := None;
                   item_priority := Some (JStr "high");
                   item_source := None |} ]
              {| item_type := Some JNull; item_data := None;
                 item_priority := None; item_source := None |}
              [ {| item_type := Some (JStr "appointment"); item_data := None;
                   item_priority := Some (JStr "urgent");
                   item_source := None |} ]
              empty_store) as (stored & Hraise & _).
  - apply (bool_decide_unpack _). vm_compute. exact I.
  - reflexivity.
  - split; [exact Hraise|]. vm_compute. reflexivity.
Defined.

Lemma run_app st ops1 ops2 : run st (ops1 ++ ops2) = run (run st ops1) ops2.
Proof. apply foldl_app. Qed.

Lemma returned_app sid st ops1 ops2 :
  returned sid st (ops1 ++ ops2) =
  returned sid st ops1 ++ returned sid (run st ops1) ops2.
Proof.
  revert st. induction ops1 as [|o ops1 IH]; intros st; [done|].
  simpl. rewrite IH. by rewrite app_assoc.
Qed.

Lemma added_ids_app ops1 ops2 :
  added_ids (ops1 ++ ops2) = added_ids ops1 ++ added_ids ops2.
Proof.
  induction ops1 as [|o ops1 IH]; [done|].
  destruct o; simpl; by rewrite IH.
Qed.

Lemma gets_return_app st ops1 ops2 :
  gets_return st (ops1 ++ ops2) =
  gets_return st ops1 && gets_return (run st ops1) ops2.
Proof.
  revert st. induction ops1 as [|o ops1 IH]; intros st; [done|].
  cbn [app gets_return]. rewrite IH. by rewrite andb_assoc.
Qed.

Lemma get_context_entries sid types include_expired now st sid' :
  Forall (λ e, raises types include_expired now e = false)
         (entries_of sid st) →
  entries_of sid' (get_context sid types include_expired now st).2 =
  if decide (sid' = sid)
  then (λ e, if is_selected types include_expired now e
             then incr_accessed e else e) <$> entries_of sid' st
  else entries_of sid' st.
Proof.
  unfold get_context, entries_of.
  destruct (_store st !! sid) as [es|] eqn:Hes; simpl; intros Hall.
  - rewrite get_loop_returns by done. simpl. case_decide as E.
    + subst sid'. by rewrite lookup_insert_eq, Hes.
    + by rewrite lookup_insert_ne.
  - case_decide as E; [|done]. subst sid'. by rewrite Hes.
Qed.

(** Returning or not, [get_context] touches nothing but counters of
    selected entries of the session it reads. *)
Lemma get_context_frame sid types include_expired now st :
  _events (get_context sid types include_expired now st).2 = _events st
  ∧ (∀ sid', sid' ≠ sid →
       _store (get_context sid types include_expired now st).2 !! sid'
       = _store st !! sid')
  ∧ Forall2 (λ e e', e' = e
                     ∨ (is_selected types include_expired now e = true
                        ∧ e' = incr_accessed e))
            (entries_of sid st)
            (entries_of sid (get_context sid types include_expired now st).2).
Proof.
  unfold get_context, entries_of.
  destruct (_store st !! sid) as [es|] eqn:Hes.
  - pose proof (get_loop_frame types include_expired now es) as Hfr.
    destruct (get_loop types include_expired now es) as [es' r]. simpl in *.
    split; [done|]. split.
    + intros sid' Hne. by rewrite lookup_insert_ne.
    + by rewrite lookup_insert_eq.
  - simpl. rewrite Hes. split; [done|]. split; [done|]. constructor.
Qed.

Lemma delete_context_entries sid st sid' :
  entries_of sid' (delete_context sid st).2 =
  if decide (sid' = sid) then [] else entries_of sid' st.
Proof.
  unfold delete_context, entries_of. simpl. case_decide as E.
  - subst sid'. by rewrite lookup_delete_eq.
  - by rewrite lookup_delete_ne.
Qed.

Lemma returned_ids_elem sid types include_expired now st i :
  Forall (λ e, raises types include_expired now e = false)
         (entries_of sid st) →
  i ∈ result_ids (get_context sid types include_expired now st).1 ↔
  ∃ e, e ∈ entries_of sid st
       ∧ is_selected types include_expired now e = true ∧ id e = i.
Proof.
  intros Hall. rewrite get_context_returns by done. cbn [result_ids].
  rewrite sort_by_perm, <- list_fmap_compose.
  rewrite list_elem_of_fmap. split.
  - intros (e & -> & He). apply list_elem_of_filter in He as [Hs He].
    by exists e.
  - intros (e & He & Hs & <-). exists e. split; [done|].
    by apply list_elem_of_filter.
Qed.

Lemma NoDup_fmap_eq {A B} (f : A → B) (l : list A) x y :
  NoDup (f <$> l) → x ∈ l → y ∈ l → f x = f y → x = y.
Proof.
  induction l as [|a l IH]; intros Hnd Hx Hy Hf.
  - by apply elem_of_nil in Hx.
  - rewrite fmap_cons in Hnd. apply NoDup_cons in Hnd as [Ha Hnd].
    apply elem_of_cons in Hx as [->|Hx]; apply elem_of_cons in Hy as [->|Hy].
    + done.
    + exfalso. apply Ha. rewrite Hf. by apply list_elem_of_fmap_2.
    + exfalso. apply Ha. rewrite <- Hf. by apply list_elem_of_fmap_2.
    + by apply IH.
Qed.

Lemma store_inv_empty : store_inv [] (λ _, []) empty_store.
Proof.
  intros sid. unfold entries_of. simpl. rewrite lookup_empty. simpl.
  split; [constructor|]. split; intros ? H; by apply elem_of_nil in H.
Qed.

Lemma store_inv_step added log st o :
  store_inv added log st →
  NoDup (added ++ added_ids [o]) →
  gets_return st [o] = true →
  store_inv (added ++ added_ids [o])
            (λ sid, log sid ++ returned sid st [o]) (step st o).
Proof.
  intros Hinv Hnd Hret. destruct o as [payload dttl uuid now|sid0 types inc now
                               |sid0|sid0|now];
    cbn [step added_ids returned app gets_return] in *.
  - (* add_context *)
    apply NoDup_app in Hnd as (_ & Hfresh & _).
    assert (uuid ∉ added) as Hu.
    { intros Hin. apply (Hfresh _ Hin). by left. }
    intros sid. destruct (Hinv sid) as (Hnd0 & Hent & Hlog).
    rewrite app_nil_r.
    rewrite add_context_entries.
    split; [|split].
    + case_decide; [|done]. rewrite fmap_app. apply NoDup_app.
      split; [done|]. split; [|apply NoDup_singleton].
      intros i Hi. simpl. rewrite list_elem_of_singleton. intros ->.
      apply list_elem_of_fmap in Hi as (e & He1 & He2).
      destruct (Hent e He2) as (? & _). congruence.
    + intros e He.
      assert (e ∈ entries_of sid st ∨
              e = new_entry payload (or_int (p_ttl_seconds payload) dttl)
                    uuid now) as [Hold|Hnew].
      { case_decide; [|by left]. apply elem_of_app in He as [?|He];
          [by left|]. right. by apply list_elem_of_singleton in He. }
      * destruct (Hent e Hold) as (? & ? & ?). split; [|done].
        apply elem_of_app. by left.
      * subst e. simpl. split; [apply elem_of_app; right; by left|].
        split; [done|]. split; [lia|]. intros Hin. by apply Hlog in Hin.
    + intros i Hi. apply elem_of_app. left. by apply Hlog.
  - (* get_context *)
    assert (Hall : Forall (λ e, raises types inc now e = false)
                          (entries_of sid0 st)).
    { destruct (get_context sid0 types inc now st).1 as [|result] eqn:Hres;
        [done|]. by eapply get_context_inr. }
    rewrite app_nil_r in *. intros sid. destruct (Hinv sid) as (Hnd0 & Hent & Hlog).
    rewrite get_context_entries by done. case_decide as E.
    + subst sid0. rewrite decide_True by done. split; [|split].
      * rewrite <- list_fmap_compose.
        erewrite list_fmap_ext; [exact Hnd0|].
        intros i e _. simpl. by destruct (is_selected _ _ _ e).
      * intros e' He'. apply list_elem_of_fmap in He' as (e & -> & He).
        destruct (Hent e He) as (Hadd & Hge & Hiff).
        destruct (is_selected types inc now e) eqn:Hsel; simpl.
        -- split; [done|]. split; [lia|]. split; [|lia]. intros _.
           apply elem_of_app. right. rewrite app_nil_r.
           apply returned_ids_elem; [done|]. by exists e.
        -- split; [done|]. split; [done|]. rewrite Hiff, elem_of_app.
           split; [by left|]. intros [?|Hin]; [done|]. exfalso.
           rewrite app_nil_r in Hin.
           apply returned_ids_elem in Hin as (e2 & He2 & Hsel2 & Hid);
             [|done].
           assert (e2 = e) by (by eapply (NoDup_fmap_eq id)).
           congruence.
      * intros i Hi. apply elem_of_app in Hi as [Hi|Hi]; [by apply Hlog|].
        rewrite app_nil_r in Hi.
        apply returned_ids_elem in Hi as (e & He & _ & <-); [|done].
        by destruct (Hent e He).
    + rewrite decide_False by done. simpl. rewrite app_nil_r. done.
  - (* delete_context *)
    intros sid. destruct (Hinv sid) as (Hnd0 & Hent & Hlog).
    rewrite !app_nil_r. rewrite delete_context_entries.
    case_decide; [|done].
    split; [constructor|]. split; [|done].
    intros e He. by apply elem_of_nil in He.
  - (* get_context_types_used *)
    intros sid. rewrite !app_nil_r. apply Hinv.
  - (* cleanup_expired *)
    intros sid. destruct (Hinv sid) as (Hnd0 & Hent & Hlog).
    rewrite !app_nil_r. rewrite entries_of_cleanup. unfold kept.
    split; [|split; [|done]].
    + eapply sublist_NoDup; [exact Hnd0|]. apply fmap_sublist, sublist_filter.
    + intros e He. apply list_elem_of_filter in He as [_ He]. by apply Hent.
Qed.

Lemma store_inv_run ops :
  NoDup (added_ids ops) →
  gets_return empty_store ops = true →
  store_inv (added_ids ops) (λ sid, returned sid empty_store ops)
            (run empty_store ops).
Proof.
  induction ops as [|o ops IH] using rev_ind; intros Hnd Hret.
  - apply store_inv_empty.
  - rewrite added_ids_app in Hnd. rewrite added_ids_app, run_app.
    rewrite gets_return_app in Hret. apply andb_true_iff in Hret as [Hr1 Hr2].
    assert (NoDup (added_ids ops)) as Hnd' by (by apply NoDup_app in Hnd as []).
    pose proof (store_inv_step _ _ _ o (IH Hnd' Hr1) Hnd Hr2) as Hstep.
    intros sid. destruct (Hstep sid) as (H1 & H2 & H3).
    rewrite returned_app. done.
Qed.

Lemma types_used_elem sid st t :
  t ∈ get_context_types_used sid st ↔
  ∃ e, e ∈ entries_of sid st ∧ type e = t ∧ 0 < accessed_count e.
Proof.
  unfold get_context_types_used. fold (entries_of sid st).
  rewrite elem_of_list_to_set, list_elem_of_fmap. split.
  - intros (e & -> & He). apply list_elem_of_filter in He as [Hc He]. eauto.
  - intros (e & He & <- & Hc). exists e. split; [done|].
    by apply list_elem_of_filter.
Qed.

(** Claim C7, amended.  With distinct uuids, after any call sequence each
    of whose [get_context] calls returned, [get_context_types_used] reports
    a type exactly when an entry of that type is still stored for the
    session and an earlier [get_context] for the session returned it,
    expired or not; a type none of whose stored entries was ever returned
    is not reported. *)
Theorem types_used_iff_returned (ops : list Op) (sid t : string) :
  NoDup (added_ids ops) →
  gets_return empty_store ops = true →
  let st := run empty_store ops in
  (t ∈ get_context_types_used sid st ↔
   ∃ e, e ∈ entries_of sid st ∧ type e = t
        ∧ id e ∈ returned sid empty_store ops)
  ∧ ((∀ e, e ∈ entries_of sid st → type e = t →
        id e ∉ returned sid empty_store ops) →
     t ∉ get_context_types_used sid st).
Proof.
  intros Hnd Hret st.
  destruct (store_inv_run ops Hnd Hret sid) as (_ & Hent & _). fold st in Hent.
  assert (Hiff : t ∈ get_context_types_used sid st ↔
            ∃ e, e ∈ entries_of sid st ∧ type e = t
                 ∧ id e ∈ returned sid empty_store ops).
  { rewrite types_used_elem. split.
    - intros (e & He & Ht & Hc). exists e. split; [done|]. split; [done|].
      by apply (Hent e He).
    - intros (e & He & Ht & Hr). exists e. split; [done|]. split; [done|].
      by apply (Hent e He). }
  split; [exact Hiff|].
  intros Hnever Hin. apply Hiff in Hin as (e & He & Ht & Hr).
  by apply (Hnever e He Ht).
Qed.

Lemma types_used_iff_returned_witness :
  "invoice" ∈ get_context_types_used "call-1"
    (run empty_store [OpAdd invoice_payload 1800 "id-0" 0;
                      OpAdd appointment_payload 1800 "id-1" 1;
                      OpGet "call-1" (Some ["invoice"]) false 5])
  ∧ "appointment" ∉ get_context_types_used "call-1"
    (run empty_store [OpAdd invoice_payload 1800 "id-0" 0;
                      OpAdd appointment_payload 1800 "id-1" 1;
                      OpGet "call-1" (Some ["invoice"]) false 5]).
Proof.
  split.
  - apply (proj1 (types_used_iff_returned
      [OpAdd invoice_payload 1800 "id-0" 0;
       OpAdd appointment_payload 1800 "id-1" 1;
       OpGet "call-1" (Some ["invoice"]) false 5] "call-1" "invoice"
      ltac:(apply (bool_decide_unpack _); vm_compute; exact I)
      ltac:(vm_compute; reflexivity))).
    exists {| id := "id-0"; session_id := "call-1"; type := "invoice";
              data := []; priority := "high"; source := "n8n";
              created_at := 0; ttl := 60; accessed_count := 1 |}.
    vm_compute. repeat split; repeat constructor.
  - apply (proj2 (types_used_iff_returned
      [OpAdd invoice_payload 1800 "id-0" 0;
       OpAdd appointment_payload 1800 "id-1" 1;
       OpGet "call-1" (Some ["invoice"]) false 5] "call-1" "appointment"
      ltac:(apply (bool_decide_unpack _); vm_compute; exact I)
      ltac:(vm_compute; reflexivity))).
    intros e He Ht. vm_compute in He. vm_compute.
    apply elem_of_cons in He as [->|He]; [discriminate Ht|].
    apply list_elem_of_singleton in He as ->.
    intros Hin. apply list_elem_of_singleton in Hin. discriminate Hin.
Defined.

(** Claim C7 as written fails: the only [get_context] of the sequence
    returns an entry that is expired at that time, so no call returned an
    unexpired entry, and yet its type is reported. *)
Lemma expired_read_is_reported :
  let ops := [OpAdd invoice_payload 1800 "id-0" 0;
              OpGet "call-1" None true 100] in
  let st := run empty_store ops in
  (∃ result,
     (get_context "call-1" None true 100
        (run empty_store [OpAdd invoice_payload 1800 "id-0" 0])).1
       = inr result
     ∧ d_type <$> result = ["invoice"])
  ∧ returned_unexpired "call-1" empty_store ops = []
  ∧ "invoice" ∈ get_context_types_used "call-1" st
  ∧ ¬ ("invoice" ∈ get_context_types_used "call-1" st ↔
       ∃ e, e ∈ entries_of "call-1" st ∧ type e = "invoice"
            ∧ id e ∈ returned_unexpired "call-1" empty_store ops).
Proof.
  intros ops st.
  assert (Hused : "invoice" ∈ get_context_types_used "call-1" st)
    by (apply (bool_decide_unpack _); vm_compute; exact I).
  assert (Hnone : returned_unexpired "call-1" empty_store ops = [])
    by (vm_compute; reflexivity).
  split.
  { eexists. split; [vm_compute; reflexivity|]. reflexivity. }
  split; [exact Hnone|].
  split; [exact Hused|].
  intros [Hclaim _]. destruct (Hclaim Hused) as (e & _ & _ & Hin).
  rewrite Hnone in Hin. by apply elem_of_nil in Hin.
Qed.

(** Property X24. A read that raises has already counted the entries it
    selected up to the one [to_dict] failed on, that one included, and
    returns none of them, so that the type of that entry is reported as
    used; the entries behind it are not visited. *)
Theorem aborted_read_still_counts (sid : string)
    (types : option (list string)) (include_expired : bool) (now : Z)
    (st : ContextStore) (pre post : list ContextEntry) (bad : ContextEntry) :
  _store st !! sid = Some (pre ++ bad :: post) →
  Forall (λ e, raises types include_expired now e = false) pre →
  raises types include_expired now bad = true →
  0 ≤ accessed_count bad →
  let r := get_context sid types include_expired now st in
  r.1 = inl OverflowError
  ∧ entries_of sid r.2 =
      ((λ e, if is_selected types include_expired now e
             then incr_accessed e else e) <$> pre)
      ++ incr_accessed bad :: post
  ∧ type bad ∈ get_context_types_used sid r.2.
Proof.
  intros Hst Hpre Hbad Hcount r. subst r. unfold get_context, entries_of.
  rewrite Hst. rewrite (get_loop_raises _ _ _ _ _ _ Hpre Hbad).
  cbn [fst snd _store]. rewrite lookup_insert_eq. cbn [default].
  split; [done|]. split; [done|].
  apply types_used_elem. exists (incr_accessed bad).
  split; [|split; [done|]].
  - unfold entries_of. cbn [_store]. rewrite lookup_insert_eq. cbn [default].
    apply elem_of_app. right. by left.
  - cbn [accessed_count incr_accessed]. lia.
Qed.

Lemma aborted_read_still_counts_witness :
  let st := run empty_store [OpAdd invoice_payload 1800 "id-0" 0;
                             OpAdd huge_ttl_payload 1800 "id-1" 0;
                             OpAdd appointment_payload 1800 "id-2" 0] in
  let r := get_context "call-1" None false 5 st in
  r.1 = inl OverflowError
  ∧ accessed_count <$> entries_of "call-1" r.2 = [1; 1; 0]
  ∧ "invoice" ∈ get_context_types_used "call-1" r.2.
Proof.
  intros st r.
  destruct (aborted_read_still_counts "call-1" None false 5 st
    [ {| id := "id-0"; session_id := "call-1"; type := "invoice";
         data := []; priority := "high"; source := "n8n";
         created_at := 0; ttl := 60; accessed_count := 0 |} ]
    [ {| id := "id-2"; session_id := "call-1"; type := "appointment";
         data := []; priority := "urgent"; source := "n8n";
         created_at := 0; ttl := 1800; accessed_count := 0 |} ]
    {| id := "id-1"; session_id := "call-1"; type := "invoice";
       data := []; priority := "high"; source := "n8n";
       created_at := 0; ttl := 2 ^ 1024; accessed_count := 0 |})
    as (Hraise & Hent & Hused).
  - vm_compute. reflexivity.
  - apply (bool_decide_unpack _). vm_compute. exact I.
  - vm_compute. reflexivity.
  - simpl. lia.
  - split; [exact Hraise|]. split; [|exact Hused].
    fold r in Hent. rewrite Hent. vm_compute. reflexivity.
Defined.

End context_store.

(* ===================================================================== *)
(** ** Further properties of the server *)
(* ===================================================================== *)

Section server_more.
Import Server.

Lemma stale_keys timeout now st k :
  k ∈ (filter (λ kv : string * ref,
                 is_stale (heap st) now timeout kv.2 = true)
              (map_to_list (sessions (mgr st)))).*1
  ↔ ∃ l, sessions (mgr st) !! k = Some l
         ∧ is_stale (heap st) now timeout l = true.
Proof.
  rewrite list_elem_of_fmap. split.
  - intros ([k' l] & -> & Hin). apply list_elem_of_filter in Hin as [Hs Hin].
    apply elem_of_map_to_list in Hin. eauto.
  - intros (l & Hl & Hs). exists (k, l). split; [done|].
    apply list_elem_of_filter. split; [done|]. by apply elem_of_map_to_list.
Qed.

Lemma cleanup_stale_lookup timeout now st sid :
  sessions (mgr (cleanup_stale timeout now st).2) !! sid =
  match sessions (mgr st) !! sid with
  | Some l => if is_stale (heap st) now timeout l then None else Some l
  | None => None
  end.
Proof.
  unfold cleanup_stale. cbn [snd with_sessions mgr sessions].
  rewrite foldl_delete_lookup. case_bool_decide as Hin.
  - apply stale_keys in Hin as (l & -> & ->). done.
  - destruct (sessions (mgr st) !! sid) as [l|] eqn:E; [|done].
    destruct (is_stale (heap st) now timeout l) eqn:Hs; [|done].
    exfalso. apply Hin, stale_keys. eauto.
Qed.

Lemma cleanup_stale_to_list timeout now st :
  map_to_list (sessions (mgr (cleanup_stale timeout now st).2)) ≡ₚ
  filter (λ kv : string * ref, ¬ is_stale (heap st) now timeout kv.2 = true)
         (map_to_list (sessions (mgr st))).
Proof.
  apply NoDup_Permutation.
  - apply NoDup_map_to_list.
  - apply NoDup_filter, NoDup_map_to_list.
  - intros [k l]. rewrite elem_of_map_to_list, cleanup_stale_lookup.
    rewrite list_elem_of_filter, elem_of_map_to_list. simpl.
    destruct (sessions (mgr st) !! k) as [l'|];
      [|split; [done|intros [_ ?]; done]].
    destruct (is_stale (heap st) now timeout l') eqn:Hs.
    + split; [done|]. intros [Hn [= ->]]. by rewrite Hs in Hn.
    + split; [intros [= ->]|intros [_ ?]]; [|done].
      split; [|done]. by rewrite Hs.
Qed.

(** Property X1. [cleanup_stale] evicts exactly the registered sessions with
    [now - last_activity > timeout_sec] and no other, touches no session
    object, and returns the number evicted, which is the loss in registry
    size. *)
Theorem cleanup_stale_evicts_exactly_stale (timeout now : Z) (st : State) :
  let r := cleanup_stale timeout now st in
  heap r.2 = heap st
  ∧ max_sessions (mgr r.2) = max_sessions (mgr st)
  ∧ (∀ sid l v, sessions (mgr st) !! sid = Some l → heap st !! l = Some v →
       sessions (mgr r.2) !! sid =
         if bool_decide (timeout < now - last_activity v) then None
         else Some l)
  ∧ (∀ sid, sessions (mgr st) !! sid = None →
       sessions (mgr r.2) !! sid = None)
  ∧ r.1 = Z.of_nat (size (sessions (mgr st)))
          - Z.of_nat (size (sessions (mgr r.2)))
  ∧ 0 ≤ r.1.
Proof.
  intros r. subst r. split; [done|]. split; [done|]. split; [|split].
  - intros sid l v Hsid Hv. rewrite cleanup_stale_lookup, Hsid.
    unfold is_stale. by rewrite Hv.
  - intros sid Hsid. by rewrite cleanup_stale_lookup, Hsid.
  - assert (Hlen : Z.of_nat (size (sessions (mgr st))) =
                   (cleanup_stale timeout now st).1
                   + Z.of_nat (size (sessions
                                 (mgr (cleanup_stale timeout now st).2)))).
    { rewrite <- !length_map_to_list, cleanup_stale_to_list.
      unfold cleanup_stale. cbn [fst]. rewrite length_fmap.
      rewrite <- Nat2Z.inj_add, <- length_app.
      f_equal. symmetry. apply Permutation_length, filter_app_complement. }
    split; [lia|]. unfold cleanup_stale. cbn [fst]. lia.
Qed.

Lemma cleanup_stale_evicts_exactly_stale_witness :
  (cleanup_stale 300 400 (run (init 4) two_turns)).1 = 1
  ∧ sessions (mgr (cleanup_stale 300 400 (run (init 4) two_turns)).2) !! "s1"
    = None.
Proof.
  destruct (cleanup_stale_evicts_exactly_stale 300 400
              (run (init 4) two_turns)) as (_ & _ & Hev & _ & Hcount & _).
  split.
  - rewrite Hcount. vm_compute. reflexivity.
  - rewrite (Hev "s1" 0%nat
      {| session_id := "s1"; persona := "support"; created_at := 2;
         transcript :=
           [ {| speaker := "user"; text := "a"; timestamp := 4 |};
             {| speaker := "user"; text := "b"; timestamp := 5 |} ];
         audio_chunks_in := 0; audio_chunks_out := 0; is_active := true;
         last_activity := 3 |}); vm_compute; reflexivity.
Defined.

Lemma filter_none {A} (P : A → Prop) `{!∀ x, Decision (P x)} (l : list A) :
  Forall (λ x, ¬ P x) l → filter P l = [].
Proof.
  induction 1 as [|x l Hx _ IH]; [done|]. by rewrite filter_cons_False.
Qed.

Lemma with_sessions_id st : with_sessions (sessions (mgr st)) st = st.
Proof. by destruct st as [h [m mx]]. Qed.

(** Property X2. A second sweep at the same instant finds nothing left to
    evict. *)
Theorem cleanup_stale_twice (timeout now : Z) (st : State) :
  cleanup_stale timeout now (cleanup_stale timeout now st).2
  = (0, (cleanup_stale timeout now st).2).
Proof.
  set (st1 := (cleanup_stale timeout now st).2).
  assert (Hnone : filter (λ kv : string * ref,
                     is_stale (heap st1) now timeout kv.2 = true)
                   (map_to_list (sessions (mgr st1))) = []).
  { apply filter_none, Forall_forall. intros [k l] Hin Hs. simpl in Hs.
    apply elem_of_map_to_list in Hin. unfold st1 in Hin.
    rewrite cleanup_stale_lookup in Hin.
    destruct (sessions (mgr st) !! k) as [l'|]; [|done].
    destruct (is_stale (heap st) now timeout l') eqn:Hs'; [done|].
    injection Hin as ->. change (heap st1) with (heap st) in Hs. congruence. }
  unfold cleanup_stale at 1. rewrite Hnone.
  cbn [fmap list_fmap foldl length Z.of_nat]. by rewrite with_sessions_id.
Qed.

(** Property X3. An accepted audio frame at [t] keeps the session registered
    through every sweep up to [t + timeout]. *)
Theorem process_audio_keeps_alive
    (audio_chunk : list byte) (sid : string) (l : ref) (v : VoiceSession)
    (t timeout now : Z) (st : State) :
  sessions (mgr st) !! sid = Some l →
  heap st !! l = Some v →
  now - t ≤ timeout →
  sessions (mgr (cleanup_stale timeout now
                   (process_audio audio_chunk l t st).2).2) !! sid = Some l.
Proof.
  intros Hsid Hv Hle. rewrite cleanup_stale_lookup. simpl. rewrite Hsid.
  unfold is_stale. rewrite !list_lookup_alter_eq, Hv. simpl.
  by rewrite bool_decide_eq_false_2 by lia.
Qed.

Lemma process_audio_keeps_alive_witness :
  sessions (mgr (cleanup_stale 300 400
    (process_audio [] 0%nat 100 (run (init 4) two_turns)).2).2) !! "s1"
  = Some 0%nat.
Proof.
  apply (process_audio_keeps_alive [] "s1" 0%nat
    {| session_id := "s1"; persona := "support"; created_at := 2;
       transcript :=
         [ {| speaker := "user"; text := "a"; timestamp := 4 |};
           {| speaker := "user"; text := "b"; timestamp := 5 |} ];
       audio_chunks_in := 0; audio_chunks_out := 0; is_active := true;
       last_activity := 3 |} 100 300 400 (run (init 4) two_turns));
    [vm_compute; reflexivity | vm_compute; reflexivity | lia].
Defined.

(** Property X4. A session the sweep evicts is dropped without a summary and
    without being marked inactive: its handler's [end] finds nothing. *)
Theorem evicted_session_has_no_summary
    (sid : string) (l : ref) (v : VoiceSession) (timeout now t_end : Z)
    (st : State) :
  sessions (mgr st) !! sid = Some l →
  heap st !! l = Some v →
  timeout < now - last_activity v →
  let st1 := (cleanup_stale timeout now st).2 in
  heap st1 !! l = Some v
  ∧ end_ sid t_end st1 = (None, st1)
  ∧ finish sid t_end Left st1 = ([SessionEnded None], st1)
  ∧ (∃ e, (end_session sid t_end st1).1 = inl e).
Proof.
  intros Hsid Hv Hstale st1.
  assert (Hgone : sessions (mgr st1) !! sid = None).
  { unfold st1. rewrite cleanup_stale_lookup, Hsid. unfold is_stale.
    rewrite Hv. by rewrite bool_decide_eq_true_2. }
  assert (Hend : end_ sid t_end st1 = (None, st1))
    by (unfold end_; by rewrite Hgone).
  split; [done|]. split; [done|]. split.
  - unfold finish. by rewrite Hend.
  - unfold end_session. rewrite Hend. eauto.
Qed.

Lemma evicted_session_has_no_summary_witness :
  finish "s1" 401 Left (cleanup_stale 300 400 (run (init 4) two_turns)).2
  = ([SessionEnded None], (cleanup_stale 300 400 (run (init 4) two_turns)).2).
Proof.
  refine (proj1 (proj2 (proj2 (evicted_session_has_no_summary "s1" 0%nat
    {| session_id := "s1"; persona := "support"; created_at := 2;
       transcript :=
         [ {| speaker := "user"; text := "a"; timestamp := 4 |};
           {| speaker := "user"; text := "b"; timestamp := 5 |} ];
       audio_chunks_in := 0; audio_chunks_out := 0; is_active := true;
       last_activity := 3 |} 300 400 401 (run (init 4) two_turns) _ _ _))));
    [vm_compute; reflexivity | vm_compute; reflexivity | simpl; lia].
Defined.

End server_more.

Section server_endpoints.
Import Server.

Lemma end_registered st sid l v now :
  sessions (mgr st) !! sid = Some l → heap st !! l = Some v →
  end_ sid now st =
  (Some {| sum_session_id := sid;
           sum_persona := persona v;
           duration_seconds := now - created_at v;
           turn_count := Z.of_nat (length (transcript v));
           sum_transcript := transcript v;
           sum_audio_chunks_in := audio_chunks_in v;
           sum_audio_chunks_out := audio_chunks_out v |},
   update l (set_is_active false)
     (with_sessions (delete sid (sessions (mgr st))) st)).
Proof.
  intros Hsid Hv. unfold end_. rewrite Hsid.
  unfold update at 1, with_sessions at 1. cbn [heap].
  by rewrite list_lookup_alter_eq, Hv.
Qed.

Lemma depends_rejected {A} cfg key (handler : State → (exn + A) * State) st :
  key_rejected cfg key = true →
  depends_verify_api_key cfg key handler st
  = (inl (HTTPException 401 "Invalid API key"), st).
Proof. intros Hk. unfold depends_verify_api_key, verify_api_key. by rewrite Hk. Qed.

Lemma depends_accepted {A} cfg key (handler : State → (exn + A) * State) st :
  key_rejected cfg key = false →
  depends_verify_api_key cfg key handler st = handler st.
Proof. intros Hk. unfold depends_verify_api_key, verify_api_key. by rewrite Hk. Qed.

(** Property X5. [DELETE /sessions/{id}] answers 401 to a request whose key
    is rejected and changes nothing.  To a request whose key is accepted it
    answers 404 exactly for an id that is not registered, changes nothing
    then, and answers 404 to a repeated delete. *)
Theorem end_session_not_found (cfg : Settings) (key : option string)
    (max : Z) (ops : list Op) (sid : string) (now : Z) :
  let st := run (init max) ops in
  let r := delete_session_route cfg key sid now st in
  (key_rejected cfg key = true →
   r = (inl (HTTPException 401 "Invalid API key"), st))
  ∧ (key_rejected cfg key = false →
     ((∃ e, r.1 = inl e) ↔ sessions (mgr st) !! sid = None)
     ∧ (∀ e, r.1 = inl e →
          e = HTTPException 404 "Session not found" ∧ r.2 = st)
     ∧ (∀ s, r.1 = inr s →
          sum_session_id s = sid
          ∧ sessions (mgr r.2) = delete sid (sessions (mgr st)))
     ∧ (∀ now', (delete_session_route cfg key sid now' r.2).1
                = inl (HTTPException 404 "Session not found"))).
Proof.
  intros st r. subst r. unfold delete_session_route.
  split; [apply depends_rejected|]. intros Hk.
  rewrite depends_accepted by done.
  assert (Hok : registry_ok st) by apply registry_ok_run, registry_ok_init.
  unfold end_session in *.
  destruct (sessions (mgr st) !! sid) as [l|] eqn:Hsid.
  - destruct (Hok _ _ Hsid) as (v & Hv & _).
    rewrite (end_registered st sid l v now Hsid Hv).
    cbn [fst snd]. split; [|split; [|split]].
    + split; [intros [e [=]]|done].
    + intros e [=].
    + intros s' [= <-]. done.
    + intros now'. rewrite depends_accepted by done.
      rewrite end_unregistered; [done|].
      simpl. apply lookup_delete_eq.
  - unfold end_. rewrite Hsid. simpl. split; [|split; [|split]].
    + split; [done|]. eauto.
    + by intros e [= <-].
    + intros s [=].
    + intros now'. rewrite depends_accepted by done. by rewrite Hsid.
Qed.

Lemma end_session_not_found_witness :
  (delete_session_route settings None "nobody" 9 (run (init 4) two_turns)).1
  = inl (HTTPException 404 "Session not found").
Proof.
  destruct (end_session_not_found settings None 4 two_turns "nobody" 9)
    as [_ Hacc].
  destruct Hacc as (Hiff & H404 & _); [vm_compute; reflexivity|].
  destruct (proj2 Hiff) as [e He]; [vm_compute; reflexivity|].
  rewrite He. f_equal. by apply H404.
Defined.

Lemma length_omap_all {A B} (f : A → option B) (l : list A) :
  Forall (λ x, is_Some (f x)) l → length (omap f l) = length l.
Proof.
  induction 1 as [|x l [y Hy] _ IH]; [done|]. simpl. rewrite Hy. simpl.
  f_equal. exact IH.
Qed.

(** Property X6. [GET /sessions] answers 401 to a request whose key is
    rejected.  To a request whose key is accepted it lists exactly the
    registered sessions, every one of them with status "active": an ended
    session is never listed; the registry is left as it was. *)
Theorem list_sessions_all_active (cfg : Settings) (key : option string)
    (max : Z) (ops : list Op) (now : Z) :
  let st := run (init max) ops in
  let r := get_sessions_route cfg key now st in
  (key_rejected cfg key = true →
   r = (inl (HTTPException 401 "Invalid API key"), st))
  ∧ (key_rejected cfg key = false →
     ∃ infos,
       r = (inr infos, st)
       ∧ (∀ i, i ∈ infos ↔
             ∃ sid l v, sessions (mgr st) !! sid = Some l
                        ∧ heap st !! l = Some v
                        ∧ i = {| info_session_id := sid;
                                 info_persona := persona v;
                                 info_created_at := created_at v;
                                 info_duration_seconds := now - created_at v;
                                 info_turn_count :=
                                   Z.of_nat (length (transcript v));
                                 info_status := "active" |})
       ∧ Z.of_nat (length infos) = active_count st
       ∧ Forall (λ i, info_status i = "active") infos).
Proof.
  intros st r. subst r. unfold get_sessions_route.
  split; [apply depends_rejected|]. intros Hk.
  rewrite depends_accepted by done.
  exists (list_sessions now st). split; [done|].
  assert (Hok : registry_ok st) by apply registry_ok_run, registry_ok_init.
  assert (Helem : ∀ i, i ∈ list_sessions now st ↔
        ∃ sid l v, sessions (mgr st) !! sid = Some l
                   ∧ heap st !! l = Some v
                   ∧ i = {| info_session_id := sid;
                            info_persona := persona v;
                            info_created_at := created_at v;
                            info_duration_seconds := now - created_at v;
                            info_turn_count :=
                              Z.of_nat (length (transcript v));
                            info_status := "active" |}).
  { intros i. unfold list_sessions. rewrite list_elem_of_omap. split.
    - intros (l & Hl & Hi). apply list_elem_of_fmap in Hl as ([sid l'] & -> & Hin).
      apply elem_of_map_to_list in Hin. simpl in Hi.
      destruct (Hok _ _ Hin) as (v & Hv & Hact & Hid).
      rewrite Hv in Hi. simpl in Hi. injection Hi as <-.
      exists sid, l', v. rewrite Hact, Hid. done.
    - intros (sid & l & v & Hsid & Hv & ->). exists l. split.
      + apply list_elem_of_fmap. exists (sid, l). split; [done|].
        by apply elem_of_map_to_list.
      + destruct (Hok _ _ Hsid) as (v' & Hv' & Hact & Hid).
        rewrite Hv in Hv'. injection Hv' as <-. rewrite Hv. simpl.
        by rewrite Hact, Hid. }
  split; [exact Helem|]. split.
  - rewrite (active_count_size _ Hok). unfold list_sessions.
    rewrite length_omap_all, length_fmap, length_map_to_list; [done|].
    apply Forall_forall. intros l Hl.
    apply list_elem_of_fmap in Hl as ([sid l'] & -> & Hin).
    apply elem_of_map_to_list in Hin.
    destruct (Hok _ _ Hin) as (v & Hv & _). simpl. rewrite Hv. by eexists.
  - apply Forall_forall. intros i Hi.
    apply Helem in Hi as (sid & l & v & _ & _ & ->). done.
Qed.

Lemma list_sessions_all_active_witness :
  ∃ infos,
    get_sessions_route settings None 9 (run (init 4) two_turns)
      = (inr infos, run (init 4) two_turns)
    ∧ Z.of_nat (length infos) = active_count (run (init 4) two_turns).
Proof.
  destruct (list_sessions_all_active settings None 4 two_turns 9)
    as [_ Hacc].
  destruct Hacc as (infos & Hr & _ & Hlen & _); [vm_compute; reflexivity|].
  exists infos. split; [exact Hr | exact Hlen].
Defined.

(** *** The main loop *)

Lemma loop_body_terminal cfg session ev st :
  is_terminal ev = true →
  ∃ c out, loop_body cfg session ev st = (c, out, st)
           ∧ c ≠ Continue
           ∧ (out = [] ∨ out = [TimeoutWarning]).
Proof.
  intros Ht. destruct ev as [[chunk|[e|data]| | |] now|]; simpl in *;
    try discriminate.
  - eexists _, _. split; [done|]. split; [done|]. by left.
  - apply bool_decide_eq_true in Ht. rewrite Ht. simpl.
    eexists _, _. split; [done|]. split; [done|]. by left.
  - eexists _, _. split; [done|]. split; [done|]. by left.
  - eexists _, _. split; [done|]. split; [done|]. by right.
Qed.

(** What one event that does not end the loop does to the session. *)
Lemma loop_body_live cfg session ev st v :
  heap st !! session = Some v →
  is_terminal ev = false →
  ∃ out st1 v1,
    loop_body cfg session ev st = (Continue, out, st1)
    ∧ mgr st1 = mgr st
    ∧ length (heap st1) = length (heap st)
    ∧ (∀ l, l ≠ session → heap st1 !! l = heap st !! l)
    ∧ heap st1 !! session = Some v1
    ∧ transcript v1 = transcript v ++ omap turn_of [ev]
    ∧ audio_chunks_in v1 =
        audio_chunks_in v
        + Z.of_nat (length (filter (λ e, is_accepted_audio cfg e = true) [ev]))
    ∧ last_activity v1 = default (last_activity v) (last_audio cfg [ev])
    ∧ audio_chunks_out v1 = audio_chunks_out v
    ∧ is_active v1 = is_active v
    ∧ session_id v1 = session_id v
    ∧ persona v1 = persona v
    ∧ created_at v1 = created_at v
    ∧ Forall (λ f, f = TranscriptAck) out.
Proof.
  intros Hv Ht.
  destruct ev as [[chunk|[e|data]| | |] now|]; simpl in Ht; try discriminate;
    try by (exists [], st, v; simpl; rewrite app_nil_r, Z.add_0_r;
            repeat split).
  - (* audio *)
    unfold loop_body, last_audio. cbn [omap list_omap is_accepted_audio].
    rewrite filter_cons, filter_nil. cbn [is_accepted_audio].
    case_bool_decide as Hbig.
    + rewrite bool_decide_eq_false_2 by lia.
      rewrite decide_False by done.
      exists [], st, v. simpl. rewrite app_nil_r, Z.add_0_r. by repeat split.
    + rewrite bool_decide_eq_true_2 by lia.
      rewrite decide_True by done. simpl.
      eexists _, _, _. split; [reflexivity|]. simpl.
      split; [done|]. split; [by rewrite !length_alter|].
      split; [intros l Hne; by rewrite !list_lookup_alter_ne|].
      rewrite !list_lookup_alter_eq, Hv. simpl.
      split; [done|]. rewrite app_nil_r. by repeat split.
  - (* control message *)
    unfold loop_body. cbn [omap list_omap turn_of].
    rewrite filter_cons_False by (simpl; done).
    destruct (action data) as [a|] eqn:Ha.
    + destruct (decide (a = "transcript")) as [->|Hne].
      * rewrite !bool_decide_eq_true_2 by done.
        eexists _, _, _. split; [reflexivity|]. simpl.
        split; [done|]. split; [by rewrite length_alter|].
        split; [intros l Hne; by rewrite list_lookup_alter_ne|].
        rewrite list_lookup_alter_eq, Hv. simpl.
        split; [done|]. rewrite Z.add_0_r. repeat split; try done.
        by repeat constructor.
      * rewrite (bool_decide_eq_false_2 (Some a = Some "transcript"))
          by congruence.
        rewrite (bool_decide_eq_false_2 (a = "transcript")) by done.
        apply bool_decide_eq_false in Ht.
        rewrite (bool_decide_eq_false_2 (a = "end")) by congruence.
        exists [], st, v. simpl. rewrite app_nil_r, Z.add_0_r.
        by repeat split.
    + rewrite bool_decide_eq_false_2 by done.
      exists [], st, v. simpl. rewrite app_nil_r, Z.add_0_r. by repeat split.
Qed.

Lemma last_audio_cons cfg ev evs :
  last_audio cfg (ev :: evs) =
  match last_audio cfg evs with
  | Some t => Some t
  | None => last_audio cfg [ev]
  end.
Proof.
  unfold last_audio. change (ev :: evs) with ([ev] ++ evs).
  by rewrite omap_app, last_app.
Qed.

Lemma main_loop_run (cfg : Settings) (session : ref)
    (evs : list Event) (st : State) (v : VoiceSession) :
  heap st !! session = Some v →
  let r := main_loop cfg session evs st in
  (r.1.1 = Waiting ↔ live evs = evs)
  ∧ mgr r.2 = mgr st
  ∧ length (heap r.2) = length (heap st)
  ∧ (∀ l, l ≠ session → heap r.2 !! l = heap st !! l)
  ∧ (∃ v', heap r.2 !! session = Some v'
       ∧ transcript v' = transcript v ++ omap turn_of (live evs)
       ∧ audio_chunks_in v' =
           audio_chunks_in v
           + Z.of_nat (length (filter (λ e, is_accepted_audio cfg e = true)
                                      (live evs)))
       ∧ last_activity v' =
           default (last_activity v) (last_audio cfg (live evs))
       ∧ audio_chunks_out v' = audio_chunks_out v
       ∧ is_active v' = is_active v
       ∧ session_id v' = session_id v
       ∧ persona v' = persona v
       ∧ created_at v' = created_at v)
  ∧ Forall (λ f, f = TranscriptAck ∨ f = TimeoutWarning) r.1.2.
Proof.
  revert st v. induction evs as [|ev evs IH]; intros st v Hv r; subst r.
  - simpl. split; [done|]. do 3 (split; [done|]). split; [|constructor].
    exists v. rewrite app_nil_r, Z.add_0_r. by repeat split.
  - cbn [main_loop live]. destruct (is_terminal ev) eqn:Hterm.
    + destruct (loop_body_terminal cfg session ev st Hterm)
        as (c & out & -> & Hc & Hout).
      assert (Hfr : Forall (λ f, f = TranscriptAck ∨ f = TimeoutWarning) out).
      { destruct Hout as [->| ->]; [constructor|].
        constructor; [by right | constructor]. }
      destruct c as [| |e]; [done| |]; simpl.
      * split; [split; intros; discriminate|]. do 3 (split; [done|]).
        split; [|done]. exists v. rewrite app_nil_r, Z.add_0_r.
        by repeat split.
      * split; [split; intros; discriminate|]. do 3 (split; [done|]).
        split; [|done]. exists v. rewrite app_nil_r, Z.add_0_r.
        by repeat split.
    + destruct (loop_body_live cfg session ev st v Hv Hterm)
        as (out & st1 & v1 & -> & Hm1 & Hlen1 & Hoth1 & Hv1 & Ht1 & Ha1
            & Hl1 & Ho1 & Hact1 & Hid1 & Hp1 & Hc1 & Hfr1).
      destruct (IH st1 v1 Hv1)
        as (Hw & Hm & Hlen & Hoth & (v' & Hv' & Ht & Ha & Hl & Ho & Hact
            & Hid & Hp & Hc) & Hfr).
      destruct (main_loop cfg session evs st1) as [[status out'] st2].
      cbn [fst snd] in *. split; [|split; [|split; [|split; [|split]]]].
      * rewrite Hw. split; [by intros ->|]. by intros [= ->].
      * congruence.
      * congruence.
      * intros l Hne. by rewrite Hoth, Hoth1.
      * exists v'. split; [done|]. split.
        { rewrite Ht, Ht1, <- app_assoc.
          by rewrite <- omap_app. }
        split.
        { rewrite Ha, Ha1. change (ev :: live evs) with ([ev] ++ live evs).
          rewrite filter_app, length_app. lia. }
        split.
        { rewrite Hl, Hl1, (last_audio_cons cfg ev (live evs)).
          by destruct (last_audio cfg (live evs)). }
        repeat split; congruence.
      * apply Forall_app. split; [|done].
        eapply Forall_impl; [exact Hfr1|]. intros f ->. by left.
Qed.

(** Property X7. The main loop handles the events up to the first one that
    ends it, and all it does is append the transcript turns, count the
    accepted audio frames and stamp the time of the last of them: it never
    touches the registry, another session, [audio_chunks_out] or
    [is_active], and it never sends audio or an error. *)
Theorem main_loop_effect (cfg : Settings) (session : ref)
    (evs : list Event) (st : State) (v : VoiceSession) :
  heap st !! session = Some v →
  let r := main_loop cfg session evs st in
  (r.1.1 = Waiting ↔ live evs = evs)
  ∧ mgr r.2 = mgr st
  ∧ length (heap r.2) = length (heap st)
  ∧ (∀ l, l ≠ session → heap r.2 !! l = heap st !! l)
  ∧ (∃ v', heap r.2 !! session = Some v'
       ∧ transcript v' = transcript v ++ omap turn_of (live evs)
       ∧ audio_chunks_in v' =
           audio_chunks_in v
           + Z.of_nat (length (filter (λ e, is_accepted_audio cfg e = true)
                                      (live evs)))
       ∧ last_activity v' =
           default (last_activity v) (last_audio cfg (live evs))
       ∧ audio_chunks_out v' = audio_chunks_out v
       ∧ is_active v' = is_active v
       ∧ session_id v' = session_id v
       ∧ persona v' = persona v
       ∧ created_at v' = created_at v)
  ∧ Forall (λ f, f = TranscriptAck ∨ f = TimeoutWarning) r.1.2.
Proof.
  intros Hv r.
  destruct (main_loop_run cfg session evs st v Hv)
    as (Hwait & Hmgr & Hlen & Hother & Hsession & Hframes).
  split; [exact Hwait|]. split; [exact Hmgr|]. split; [exact Hlen|].
  split; [exact Hother|]. split; [exact Hsession | exact Hframes].
Qed.

Lemma main_loop_effect_witness :
  ∃ v', heap (main_loop settings 0%nat
                [Received (ReceiveBytes []) 7;
                 Received (ReceiveText
                   (inr {| action := Some "transcript";
                           ctl_speaker := None; ctl_text := Some "alo" |})) 8;
                 TimeoutError;
                 Received (ReceiveBytes []) 9]
                (run (init 4) two_turns)).2 !! 0%nat = Some v'
        ∧ length (transcript v') = 3%nat
        ∧ audio_chunks_in v' = 1
        ∧ last_activity v' = 7.
Proof.
  destruct (main_loop_effect settings 0%nat
              [Received (ReceiveBytes []) 7;
               Received (ReceiveText
                 (inr {| action := Some "transcript";
                         ctl_speaker := None; ctl_text := Some "alo" |})) 8;
               TimeoutError;
               Received (ReceiveBytes []) 9]
              (run (init 4) two_turns)
              {| session_id := "s1"; persona := "support"; created_at := 2;
                 transcript :=
                   [ {| speaker := "user"; text := "a"; timestamp := 4 |};
                     {| speaker := "user"; text := "b"; timestamp := 5 |} ];
                 audio_chunks_in := 0; audio_chunks_out := 0;
                 is_active := true; last_activity := 3 |})
    as (_ & _ & _ & _ & (v' & Hv' & Ht & Ha & Hl & _) & _).
  - vm_compute. reflexivity.
  - exists v'. split; [exact Hv'|]. split; [by rewrite Ht|].
    split; [exact Ha | exact Hl].
Defined.

Lemma active_count_ext st1 st2 :
  mgr st1 = mgr st2 →
  (∀ l, active_at (heap st1) l = active_at (heap st2) l) →
  active_count st1 = active_count st2.
Proof.
  intros Hm Hh. unfold active_count. rewrite Hm. do 2 f_equal.
  apply list_filter_iff. intros l. by rewrite Hh.
Qed.

(** Property X8. A handshake that is refused creates nothing: a timeout or
    disconnect before the configuration message, a wrong key, or a server at
    capacity leave the state as it was, and no session is announced. *)
Theorem websocket_refused (cfg : Settings) (hs : Handshake) (uuid : string)
    (t_created t_activity : Z) (evs : list Event) (t_end : Z) (st : State) :
  hs = ConfigTimeout ∨ hs = ConfigDisconnect
  ∨ (∃ key persona, hs = Config key persona
       ∧ (key_rejected cfg key = true
          ∨ max_sessions (mgr st) ≤ active_count st)) →
  let r := websocket_endpoint cfg hs uuid t_created t_activity evs t_end st in
  r.2 = st
  ∧ Forall (λ f, match f with
                 | SessionStarted _ _ | InLoop _ => False
                 | _ => True
                 end) r.1.
Proof.
  intros [->|[->|(key & persona & -> & Hrej)]]; simpl.
  - split; [done|]. by repeat constructor.
  - split; [done|]. constructor.
  - destruct (key_rejected cfg key) eqn:Hk.
    + split; [done|]. by repeat constructor.
    + destruct Hrej as [?|Hcap]; [done|]. unfold create.
      rewrite bool_decide_eq_true_2 by done. simpl.
      split; [done|]. by repeat constructor.
Qed.

Lemma websocket_refused_witness :
  (websocket_endpoint
     {| API_KEY := "secret"; MAX_CONCURRENT_SESSIONS := 4;
        SESSION_TIMEOUT_SEC := 300; MAX_AUDIO_CHUNK_SIZE := 32000 |}
     (Config (Some "guess") None) "u1" 5 5 [TimeoutError] 6
     (run (init 4) two_turns)).2
  = run (init 4) two_turns.
Proof.
  refine (proj1 (websocket_refused
     {| API_KEY := "secret"; MAX_CONCURRENT_SESSIONS := 4;
        SESSION_TIMEOUT_SEC := 300; MAX_AUDIO_CHUNK_SIZE := 32000 |}
     (Config (Some "guess") None) "u1" 5 5 [TimeoutError] 6
     (run (init 4) two_turns) _)).
  right. right. exists (Some "guess"), None. split; [reflexivity|].
  left. vm_compute. reflexivity.
Defined.

(** Property X9. Once a connection that was admitted leaves its loop, on any
    exit path, the session is gone from the registry and the last frame
    carries its summary: the transcript messages and accepted audio frames
    handled before the exit, and the time since creation. *)
Theorem websocket_session_closed (cfg : Settings)
    (key chosen : option string) (uuid : string)
    (t_created t_activity : Z) (evs : list Event) (t_end : Z) (st : State) :
  key_rejected cfg key = false →
  active_count st < max_sessions (mgr st) →
  sessions (mgr st) !! uuid = None →
  live evs ≠ evs →
  let r := websocket_endpoint cfg (Config key chosen) uuid t_created
             t_activity evs t_end st in
  sessions (mgr r.2) = sessions (mgr st)
  ∧ active_count r.2 = active_count st
  ∧ head r.1 = Some (SessionStarted uuid (default "default" chosen))
  ∧ ∃ s, last r.1 = Some (InLoop (SessionEnded (Some s)))
         ∧ sum_session_id s = uuid
         ∧ sum_persona s = default "default" chosen
         ∧ duration_seconds s = t_end - t_created
         ∧ turn_count s = Z.of_nat (length (omap turn_of (live evs)))
         ∧ sum_transcript s = omap turn_of (live evs)
         ∧ sum_audio_chunks_in s =
             Z.of_nat (length (filter (λ e, is_accepted_audio cfg e = true)
                                      (live evs)))
         ∧ sum_audio_chunks_out s = 0.
Proof.
  intros Hkey Hcap Hfresh Hleft r. subst r. unfold websocket_endpoint.
  rewrite Hkey. unfold create. rewrite bool_decide_eq_false_2 by lia.
  set (new := {| session_id := uuid; persona := default "default" chosen;
                 created_at := t_created; transcript := [];
                 audio_chunks_in := 0; audio_chunks_out := 0;
                 is_active := true; last_activity := t_activity |}).
  set (l := length (heap st)).
  set (st1 := {| heap := heap st ++ [new];
                 mgr := {| sessions := <[uuid:=l]> (sessions (mgr st));
                           max_sessions := max_sessions (mgr st) |} |}).
  assert (Hnew : heap st1 !! l = Some new).
  { simpl. unfold l. by rewrite lookup_app_r, Nat.sub_diag. }
  destruct (main_loop_run cfg l evs st1 new Hnew)
    as (Hw & Hm & Hlen & Hoth & (v' & Hv' & Ht & Ha & _ & Ho & Hact & Hid
        & Hp & Hc) & _).
  destruct (main_loop cfg l evs st1) as [[status out] st2].
  cbn [fst snd] in *.
  assert (Hsid : sessions (mgr st2) !! uuid = Some l).
  { rewrite Hm. simpl. apply lookup_insert_eq. }
  pose proof (end_registered st2 uuid l v' t_end Hsid Hv') as Hend.
  set (s := {| sum_session_id := uuid;
               sum_persona := persona v';
               duration_seconds := t_end - created_at v';
               turn_count := Z.of_nat (length (transcript v'));
               sum_transcript := transcript v';
               sum_audio_chunks_in := audio_chunks_in v';
               sum_audio_chunks_out := audio_chunks_out v' |}) in *.
  set (st3 := update l (set_is_active false)
                (with_sessions (delete uuid (sessions (mgr st2))) st2)) in *.
  assert (Hreg : sessions (mgr st3) = sessions (mgr st)).
  { simpl. rewrite Hm. simpl. by apply delete_insert_id. }
  assert (Hcount : active_count st3 = active_count st).
  { apply active_count_ext.
    - destruct st as [h [m mx]]. simpl in *. rewrite Hm. simpl.
      by rewrite delete_insert_id.
    - intros l0. unfold active_at. simpl. rewrite list_lookup_alter.
      case_decide as E.
      + subst l0. rewrite Hv'. simpl.
        by rewrite (lookup_ge_None_2 (heap st) l) by (unfold l; lia).
      + rewrite (Hoth l0) by done. simpl.
        destruct (decide (l0 < l)%nat).
        * by rewrite lookup_app_l.
        * rewrite lookup_app_r by (unfold l in *; lia).
          rewrite (lookup_ge_None_2 (heap st)) by (unfold l in *; lia).
          unfold l in *.
          by destruct (l0 - length (heap st))%nat as [|[|?]] eqn:?; [lia|..]. }
  assert (Hs : sum_session_id s = uuid
         ∧ sum_persona s = default "default" chosen
         ∧ duration_seconds s = t_end - t_created
         ∧ turn_count s = Z.of_nat (length (omap turn_of (live evs)))
         ∧ sum_transcript s = omap turn_of (live evs)
         ∧ sum_audio_chunks_in s =
             Z.of_nat (length (filter (λ e, is_accepted_audio cfg e = true)
                                      (live evs)))
         ∧ sum_audio_chunks_out s = 0).
  { unfold s. simpl. rewrite Ht, Ha, Ho, Hp, Hc. simpl. by repeat split. }
  destruct status as [| |e].
  - exfalso. apply Hleft. by apply Hw.
  - unfold finish. rewrite Hend. cbn [fst snd].
    split; [done|]. split; [done|]. split; [done|].
    exists s. split; [|done].
    rewrite last_cons, last_app. done.
  - unfold finish. rewrite Hend. cbn [fst snd].
    split; [done|]. split; [done|]. split; [done|].
    exists s. split; [|done].
    rewrite last_cons, last_app. done.
Qed.

Lemma websocket_session_closed_witness :
  active_count
    (websocket_endpoint settings (Config None (Some "support")) "u1" 10 10
       idle_after_two_turns 400 (init 4)).2 = 0
  ∧ ∃ s, last (websocket_endpoint settings (Config None (Some "support"))
                 "u1" 10 10 idle_after_two_turns 400 (init 4)).1
         = Some (InLoop (SessionEnded (Some s)))
         ∧ turn_count s = 2 ∧ sum_persona s = "support".
Proof.
  destruct (websocket_session_closed settings None (Some "support") "u1"
              10 10 idle_after_two_turns 400 (init 4))
    as (_ & Hcount & _ & (s & Hlast & _ & Hp & _ & Ht & _)).
  - vm_compute. reflexivity.
  - vm_compute. reflexivity.
  - vm_compute. reflexivity.
  - vm_compute. intros H. discriminate H.
  - split; [rewrite Hcount; vm_compute; reflexivity|].
    exists s. split; [exact Hlast|]. split; [exact Ht | exact Hp].
Defined.
End server_endpoints.

Section infer.
Import Server.

Lemma prefix_spec w s : String.prefix w s = true ↔ ∃ b, s = w +:+ b.
Proof.
  revert s. induction w as [|c w IH]; intros s.
  - split; [intros _; by exists s | intros _; by destruct s].
  - destruct s as [|c' s]; simpl; [split; [done|intros [b [=]]]|].
    destruct (Ascii.ascii_dec c c') as [->|Hne].
    + rewrite IH. split; intros [b Hb]; exists b; [by rewrite Hb|].
      by injection Hb.
    + split; [done|]. intros [b [= Hc _]]. done.
Qed.

Lemma contains_spec w s : contains w s = true ↔ occurs w s.
Proof.
  unfold occurs. induction s as [|c s IH].
  - destruct w as [|c w]; simpl.
    + split; [intros _; by exists "", ""|done].
    + split; [done|]. intros (a & b & Hab). by destruct a.
  - cbn [contains]. rewrite orb_true_iff, prefix_spec, IH. split.
    + intros [[b Hb]|(a & b & Hab)].
      * by exists "", b.
      * exists (String c a), b. simpl. by rewrite Hab.
    + intros (a & b & Hab). destruct a as [|c' a].
      * left. by exists b.
      * right. injection Hab as _ Hab. eauto.
Qed.

Lemma any_in_spec ws s :
  any_in ws s = true ↔ ∃ w, w ∈ ws ∧ occurs w s.
Proof.
  unfold any_in. rewrite existsb_exists. split.
  - intros (w & Hin & Hc). exists w. split; [by apply list_elem_of_In|].
    by apply contains_spec.
  - intros (w & Hin & Hc). exists w. split; [by apply list_elem_of_In|].
    by apply contains_spec.
Qed.

Lemma any_in_false ws s : any_in ws s = false ↔ ¬ has_word ws s.
Proof.
  unfold has_word. rewrite <- any_in_spec. by destruct (any_in ws s).
Qed.

(** Property X10. The keyword classifier looks at the lowercased text only,
    and the first group with a word in the text decides, in the order
    appointment, complaint, information, cancellation; without any word the
    intent is "unknown". The persona plays no part. *)
Theorem infer_text_first_group_decides (lower : string → string)
    (latency : Z) (text persona : string) :
  let r := infer_text lower latency text persona in
  let s := lower text in
  (has_word appointment_words s →
     intent r = "appointment" ∧ confidence_pct r = 90)
  ∧ (¬ has_word appointment_words s → has_word complaint_words s →
     intent r = "complaint" ∧ confidence_pct r = 85)
  ∧ (¬ has_word appointment_words s → ¬ has_word complaint_words s →
     has_word info_words s →
     intent r = "info_request" ∧ confidence_pct r = 80)
  ∧ (¬ has_word appointment_words s → ¬ has_word complaint_words s →
     ¬ has_word info_words s → has_word cancellation_words s →
     intent r = "cancellation" ∧ confidence_pct r = 90)
  ∧ (¬ has_word appointment_words s → ¬ has_word complaint_words s →
     ¬ has_word info_words s → ¬ has_word cancellation_words s →
     intent r = "unknown" ∧ confidence_pct r = 50)
  ∧ latency_ms r = latency
  ∧ 50 ≤ confidence_pct r ≤ 90
  ∧ (∀ persona', infer_text lower latency text persona' = r).
Proof.
  intros r s. subst r s. unfold infer_text.
  change ["randevu"; "görüşme"; "tarih"; "saat"] with appointment_words.
  change ["şikayet"; "sorun"; "problem"; "memnun değil"]
    with complaint_words.
  change ["bilgi"; "fiyat"; "nasıl"; "nedir"] with info_words.
  change ["iptal"; "vazgeç"; "istemiyorum"] with cancellation_words.
  destruct (any_in appointment_words (lower text)) eqn:H1;
    [apply any_in_spec in H1 | apply any_in_false in H1];
    [simpl; repeat split; try done; lia|].
  destruct (any_in complaint_words (lower text)) eqn:H2;
    [apply any_in_spec in H2 | apply any_in_false in H2];
    [simpl; repeat split; try done; lia|].
  destruct (any_in info_words (lower text)) eqn:H3;
    [apply any_in_spec in H3 | apply any_in_false in H3];
    [simpl; repeat split; try done; lia|].
  destruct (any_in cancellation_words (lower text)) eqn:H4;
    [apply any_in_spec in H4 | apply any_in_false in H4];
    simpl; repeat split; try done; lia.
Qed.

Lemma infer_text_first_group_decides_witness :
  intent (infer_text (λ s, s) 3 "randevu iptal" "sales") = "appointment"
  ∧ intent (infer_text (λ s, s) 3 "sorun var, iptal" "sales") = "complaint".
Proof.
  split.
  - apply (infer_text_first_group_decides (λ s, s) 3 "randevu iptal" "sales").
    exists "randevu". split; [by left|]. by exists "", " iptal".
  - apply (infer_text_first_group_decides (λ s, s) 3 "sorun var, iptal"
             "sales").
    + intros Hw. apply any_in_spec in Hw. vm_compute in Hw. discriminate Hw.
    + exists "sorun". split; [right; by left|]. by exists "", " var, iptal".
Defined.

(** Property X11. [/infer] answers 401 to a request whose key is rejected
    and creates no session.  To a request whose key is accepted, with the
    keyword classifier as its inference step, it fails only with one of the
    two 503s, "Model not ready" when the model is not loaded and otherwise
    "Server at capacity" when no slot is free; in every other case it
    answers with the classifier's intent for the text and the id of the
    session it used. *)
Theorem infer_endpoint_outcomes (cfg : Settings) (key : option string)
    (loaded : bool) (lower : string → string)
    (latency : Z) (env : InferEnv) (request : InferRequest) (st : State) :
  let r := post_infer_route cfg key loaded
             (λ text persona, inr (infer_text lower latency text persona))
             env request st in
  (key_rejected cfg key = true →
   r = (inl (HTTPException 401 "Invalid API key"), st))
  ∧ (key_rejected cfg key = false → loaded = false →
     r = (inl (HTTPException 503 "Model not ready"), st))
  ∧ (key_rejected cfg key = false → loaded = true →
     max_sessions (mgr st) ≤ active_count st →
     r = (inl (HTTPException 503 "Server at capacity"), st))
  ∧ (key_rejected cfg key = false → loaded = true →
     active_count st < max_sessions (mgr st) →
     ∃ resp, r.1 = inr resp
             ∧ resp_session_id resp = env_uuid env
             ∧ resp_intent resp =
                 intent (infer_text lower latency (req_text request)
                           (req_persona request))
             ∧ resp_response_text resp =
                 response_text (infer_text lower latency (req_text request)
                                  (req_persona request))).
Proof.
  intros r. subst r. unfold post_infer_route, depends_verify_api_key,
    verify_api_key, text_inference.
  split; [|split; [|split]].
  - by intros ->.
  - by intros -> ->.
  - intros -> -> Hcap. simpl. unfold create.
    by rewrite bool_decide_eq_true_2.
  - intros -> -> Hfree. simpl. unfold create.
    rewrite bool_decide_eq_false_2 by lia. unfold try_finally_end.
    match goal with
    | |- context [end_ ?a ?b ?c] => destruct (end_ a b c) as [s st2]
    end.
    eexists. split; [reflexivity|]. done.
Qed.

Lemma infer_endpoint_outcomes_witness :
  ∃ resp, (post_infer_route settings None true
             (λ text persona, inr (infer_text (λ s, s) 3 text persona))
             {| env_uuid := "u1"; env_created := 5; env_activity := 5;
                env_user_turn := 6; env_assistant_turn := 6; env_end := 7 |}
             {| req_text := "fiyat nedir"; req_persona := "sales" |}
             (init 4)).1 = inr resp
          ∧ resp_intent resp = "info_request".
Proof.
  destruct (infer_endpoint_outcomes settings None true (λ s, s) 3
              {| env_uuid := "u1"; env_created := 5; env_activity := 5;
                 env_user_turn := 6; env_assistant_turn := 6; env_end := 7 |}
              {| req_text := "fiyat nedir"; req_persona := "sales" |}
              (init 4)) as (_ & _ & _ & Hok).
  destruct Hok as (resp & Hr & _ & Hi & _);
    [vm_compute; reflexivity | reflexivity | vm_compute; reflexivity |].
  exists resp. split; [exact Hr|]. rewrite Hi. vm_compute. reflexivity.
Defined.
End infer.

Section context_more.
Import ContextApi.

(** Property X12. [delete_context] reports how many entries the session had
    and leaves nothing of it: no entry, no event, nothing to read, nothing
    reported as used; other sessions keep what they had, and a second delete
    finds nothing. *)
Theorem delete_context_clears (sid : string) (st : ContextStore) :
  let r := delete_context sid st in
  r.1 = Z.of_nat (length (entries_of sid st))
  ∧ entries_of sid r.2 = []
  ∧ get_events sid r.2 = []
  ∧ (∀ sid', sid' ≠ sid →
       entries_of sid' r.2 = entries_of sid' st
       ∧ get_events sid' r.2 = get_events sid' st)
  ∧ (∀ types include_expired now,
       get_context sid types include_expired now r.2 = (inr [], r.2))
  ∧ get_context_types_used sid r.2 = ∅
  ∧ delete_context sid r.2 = (0, r.2)
  ∧ (_store st !! sid = None → _events st !! sid = None → r = (0, st)).
Proof.
  intros r. subst r. unfold delete_context, entries_of, get_events. simpl.
  rewrite !lookup_delete_eq. simpl.
  split; [done|]. split; [done|]. split; [done|]. split.
  { intros sid' Hne. by rewrite !lookup_delete_ne. }
  split.
  { intros types inc now. unfold get_context. simpl.
    by rewrite lookup_delete_eq. }
  split.
  { unfold get_context_types_used. simpl. by rewrite lookup_delete_eq. }
  split.
  { by rewrite !delete_delete_eq. }
  intros H1 H2. rewrite H1. simpl. rewrite !delete_id by done.
  by destruct st.
Qed.

Lemma delete_context_clears_witness :
  (delete_context "call-1" (run empty_store two_adds)).1 = 2
  ∧ delete_context "call-2" empty_store = (0, empty_store).
Proof.
  split.
  - rewrite (proj1 (delete_context_clears "call-1" (run empty_store two_adds))).
    vm_compute. reflexivity.
  - apply (delete_context_clears "call-2" empty_store); reflexivity.
Defined.

Lemma step_no_empty_bucket st o :
  (∀ sid es, _store st !! sid = Some es → es ≠ []) →
  ∀ sid es, _store (step st o) !! sid = Some es → es ≠ [].
Proof.
  intros Hinv sid es. destruct o as [payload dttl uuid now|sid0 types inc now
                                    |sid0|sid0|now]; cbn [step].
  - unfold add_context. cbn [snd _store].
    destruct (decide (sid = p_session_id payload)) as [->|Hne].
    + rewrite lookup_insert_eq. intros [= <-].
      intros [_ ?]%app_eq_nil. discriminate.
    + rewrite lookup_insert_ne by done.
      destruct (_store st !! p_session_id payload) eqn:E; [apply Hinv|].
      rewrite lookup_insert_ne by done. apply Hinv.
  - destruct (get_context_frame sid0 types inc now st) as (_ & Hoth & Hfr).
    destruct (decide (sid = sid0)) as [->|Hne].
    + intros Hes Hnil. subst es. unfold entries_of in Hfr.
      rewrite Hes in Hfr. cbn [default] in Hfr.
      apply Forall2_nil_inv_r in Hfr.
      destruct (_store st !! sid0) as [es0|] eqn:E.
      * cbn [default] in Hfr. by apply (Hinv _ _ E).
      * unfold get_context in Hes. rewrite E in Hes. cbn [snd] in Hes.
        congruence.
    + rewrite Hoth by done. apply Hinv.
  - unfold delete_context. cbn [snd _store]. intros Hl.
    apply lookup_delete_Some in Hl as [_ Hl]. by apply (Hinv _ _ Hl).
  - apply Hinv.
  - rewrite cleanup_expired_lookup. destruct (_store st !! sid) as [es0|];
      [|done]. case_decide as E; [done|]. by intros [= <-].
Qed.

(** Property X13. No bucket of a store reached from the empty one is empty:
    a session is a key of the store exactly while it has an entry. *)
Theorem no_empty_bucket (ops : list Op) (sid : string) :
  let st := run empty_store ops in
  (∀ es, _store st !! sid = Some es → es ≠ [])
  ∧ (_store st !! sid = None ↔ entries_of sid st = []).
Proof.
  intros st.
  assert (Hinv : ∀ sid es, _store st !! sid = Some es → es ≠ []).
  { subst st. induction ops as [|o ops IH] using rev_ind.
    - intros s es. simpl. by rewrite lookup_empty.
    - rewrite run_app. apply step_no_empty_bucket, IH. }
  split; [apply Hinv|]. unfold entries_of.
  destruct (_store st !! sid) as [es|] eqn:E; simpl; [|done].
  split; [done|]. intros ->. by destruct (Hinv _ _ E).
Qed.

(** Property X14. A read changes nothing but access counters, whether it
    returns or raises: the bucket keeps its entries in place with their id,
    type, data, priority, source, creation time and TTL, no counter moves
    by more than one and that of an entry the read does not select not at
    all; other sessions and the event log are untouched.  When the read
    returns, exactly the returned entries have their counter raised by
    one. *)
Theorem get_context_only_counts (sid : string)
    (types : option (list string)) (include_expired : bool) (now : Z)
    (st : ContextStore) :
  let r := get_context sid types include_expired now st in
  _events r.2 = _events st
  ∧ (∀ sid', sid' ≠ sid → _store r.2 !! sid' = _store st !! sid')
  ∧ length (entries_of sid r.2) = length (entries_of sid st)
  ∧ (∀ i e, entries_of sid st !! i = Some e →
       ∃ e', entries_of sid r.2 !! i = Some e'
             ∧ id e' = id e ∧ session_id e' = session_id e
             ∧ type e' = type e ∧ data e' = data e
             ∧ priority e' = priority e ∧ source e' = source e
             ∧ created_at e' = created_at e ∧ ttl e' = ttl e
             ∧ (accessed_count e' = accessed_count e
                ∨ (is_selected types include_expired now e = true
                   ∧ accessed_count e' = accessed_count e + 1)))
  ∧ (∀ result, r.1 = inr result →
       ∀ i e, entries_of sid st !! i = Some e →
         ∃ e', entries_of sid r.2 !! i = Some e'
               ∧ accessed_count e' =
                   accessed_count e
                   + (if is_selected types include_expired now e
                      then 1 else 0)).
Proof.
  intros r. subst r.
  destruct (get_context_frame sid types include_expired now st)
    as (Hev & Hoth & Hfr).
  split; [exact Hev|]. split; [exact Hoth|]. split; [|split].
  - symmetry. by eapply Forall2_length.
  - intros i e Hi.
    destruct (Forall2_lookup_l _ _ _ _ _ Hfr Hi) as (e' & He' & Hrel).
    exists e'. split; [exact He'|].
    destruct Hrel as [->|[Hsel ->]]; simpl.
    + do 8 (split; [done|]). by left.
    + do 8 (split; [done|]). by right.
  - intros result Hres i e Hi.
    rewrite get_context_entries, decide_True
      by (done || by eapply get_context_inr).
    rewrite list_lookup_fmap, Hi. simpl. eexists. split; [done|].
    destruct (is_selected types include_expired now e); simpl; lia.
Qed.

Lemma get_context_only_counts_witness :
  ∃ e', entries_of "call-1"
          (get_context "call-1" (Some ["invoice"]) false 5
             (run empty_store two_adds)).2 !! 1%nat = Some e'
        ∧ type e' = "appointment" ∧ accessed_count e' = 0.
Proof.
  destruct (get_context_only_counts "call-1" (Some ["invoice"]) false 5
              (run empty_store two_adds)) as (_ & _ & _ & Hent & _).
  destruct (Hent 1%nat
    {| id := "id-1"; session_id := "call-1"; type := "appointment";
       data := []; priority := "urgent"; source := "n8n"; created_at := 0;
       ttl := 1800; accessed_count := 0 |})
    as (e' & He' & _ & _ & Ht & _ & _ & _ & _ & _ & Hc).
  - vm_compute. reflexivity.
  - exists e'. split; [exact He'|]. split; [exact Ht|].
    destruct Hc as [Hc|[Hsel _]]; [exact Hc|].
    vm_compute in Hsel. discriminate Hsel.
Defined.





Lemma split_comma_nonempty s : split_comma s ≠ [].
Proof.
  destruct s as [|c s]; simpl; [done|].
  case_bool_decide; [done|]. by destruct (split_comma s).
Qed.

Lemma merged_lookup (l : list ContextDict) (m : gmap string Data) t :
  foldl (λ m ctx, <[d_type ctx := d_data ctx]> m) m l !! t =
  match last (filter (λ d, d_type d = t) l) with
  | Some d => Some (d_data d)
  | None => m !! t
  end.
Proof.
  revert m. induction l as [|d l IH]; intros m; [done|].
  cbn [foldl]. rewrite IH, filter_cons. case_decide as E.
  - rewrite last_cons. destruct (last (filter _ l)); [done|].
    subst t. by rewrite lookup_insert_eq.
  - destruct (last (filter _ l)); [done|]. by rewrite lookup_insert_ne.
Qed.

Lemma get_context_elem sid types include_expired now st result d :
  (get_context sid types include_expired now st).1 = inr result →
  d ∈ result ↔
  ∃ e, e ∈ entries_of sid st
       ∧ is_selected types include_expired now e = true
       ∧ d = dict_of now (incr_accessed e).
Proof.
  intros Hres. rewrite (get_context_result _ _ _ _ _ _ Hres).
  rewrite sort_by_perm, list_elem_of_fmap. split.
  - intros (e & -> & He). apply list_elem_of_filter in He as [Hsel He]. eauto.
  - intros (e & He & Hsel & ->). exists e. split; [done|].
    by apply list_elem_of_filter.
Qed.

Lemma get_context_sorted sid types include_expired now st result :
  (get_context sid types include_expired now st).1 = inr result →
  StronglySorted (key_le (λ x, priority_order (d_priority x))) result.
Proof.
  intros Hres. rewrite (get_context_result _ _ _ _ _ _ Hres).
  apply sort_by_sorted.
Qed.

Lemma StronglySorted_filter {A} (R : relation A) (P : A → Prop)
    `{!∀ x, Decision (P x)} (l : list A) :
  StronglySorted R l → StronglySorted R (filter P l).
Proof.
  induction 1 as [|x l Hl IH Hx]; [constructor|].
  rewrite filter_cons. case_decide; [|done]. constructor; [done|].
  apply Forall_forall. intros y Hy. apply list_elem_of_filter in Hy as [_ Hy].
  rewrite Forall_forall in Hx. by apply Hx.
Qed.

(** Property X17. The handler of [GET /context/{id}] answers exactly when
    the store's read returns.  In its answer the count is the number of
    contexts; for each type the merged view holds the data of the last
    returned context of that type, which among the returned contexts of the
    type is one of lowest priority; a comma list restricts the answer to the
    listed types and an empty or missing one does not restrict it. *)
Theorem get_context_endpoint_merged (sid : string) (types : option string)
    (include_expired : bool) (now : Z) (st : ContextStore) :
  let type_list :=
    match types with
    | Some s => if bool_decide (s = "") then None else Some (split_comma s)
    | None => None
    end in
  (∀ err, (get_context_endpoint sid types include_expired now st).1 = inl err
          ↔ (get_context sid type_list include_expired now st).1 = inl err)
  ∧ (∀ result,
       (get_context sid type_list include_expired now st).1 = inr result →
       ∃ r, (get_context_endpoint sid types include_expired now st).1 = inr r
            ∧ contexts r = result)
  ∧ ∀ r, (get_context_endpoint sid types include_expired now st).1 = inr r →
      context_count r = Z.of_nat (length (contexts r))
      ∧ (∀ t, merged r !! t =
              d_data <$> last (filter (λ d, d_type d = t) (contexts r)))
      ∧ (∀ t d, last (filter (λ d, d_type d = t) (contexts r)) = Some d →
           ∀ x, x ∈ contexts r → d_type x = t →
             priority_order (d_priority x) ≤ priority_order (d_priority d))
      ∧ (∀ s, types = Some s → s ≠ "" →
           Forall (λ d, d_type d ∈ split_comma s) (contexts r))
      ∧ (types = None ∨ types = Some "" →
           (get_context sid None include_expired now st).1
           = inr (contexts r)).
Proof.
  intros type_list. unfold get_context_endpoint. fold type_list.
  destruct (get_context sid type_list include_expired now st)
    as [res st1] eqn:Hget.
  assert (Hctxs : res = (get_context sid type_list include_expired now st).1)
    by (by rewrite Hget).
  cbn [fst]. destruct res as [err0|ctxs]; cbn [fst].
  { split; [intros err; split; intros [= <-]; reflexivity|].
    split; [intros result [=]|]. intros r [=]. }
  split; [intros err; split; intros [=]|]. split.
  { intros result [= <-]. eexists. by split. }
  intros r [= <-]. cbn [contexts context_count merged].
  symmetry in Hctxs.
  split; [done|]. split.
  { intros t. rewrite merged_lookup. by destruct (last _). }
  split.
  { intros t d Hlast x Hx Ht.
    apply last_Some in Hlast as [l' Hl'].
    assert (Hs : StronglySorted
                   (key_le (λ x, priority_order (d_priority x)))
                   (l' ++ [d])).
    { rewrite <- Hl'. eapply StronglySorted_filter, get_context_sorted.
      exact Hctxs. }
    assert (Hin : x ∈ l' ++ [d]).
    { rewrite <- Hl'. by apply list_elem_of_filter. }
    apply elem_of_app in Hin as [Hin|Hin].
    - apply (StronglySorted_app_1_elem_of _ _ _ _ _ Hs Hin). by left.
    - apply list_elem_of_singleton in Hin as ->. lia. }
  split.
  { intros s -> Hne. apply Forall_forall. intros d Hd.
    apply (get_context_elem _ _ _ _ _ _ _ Hctxs) in Hd as (e & _ & Hsel & ->).
    unfold type_list in Hsel. rewrite bool_decide_eq_false_2 in Hsel by done.
    unfold is_selected in Hsel. apply andb_true_iff in Hsel as [_ H2].
    pose proof (split_comma_nonempty s) as Hn.
    destruct (split_comma s) as [|t ts]; [done|]. simpl in *.
    apply negb_true_iff, bool_decide_eq_false in H2. by apply dec_stable. }
  intros [->| ->]; exact Hctxs.
Qed.

Lemma get_context_endpoint_merged_witness :
  ∃ r, (get_context_endpoint "call-1" (Some "invoice,appointment") false 5
          (run empty_store same_type_twice)).1 = inr r
       ∧ merged r !! "invoice" = Some [("amount", JStr "old")].
Proof.
  destruct (get_context_endpoint_merged "call-1"
              (Some "invoice,appointment") false 5
              (run empty_store same_type_twice)) as (_ & _ & Hr).
  eexists. split; [vm_compute; reflexivity|].
  rewrite (proj1 (proj2 (Hr _ eq_refl))). vm_compute. reflexivity.
Defined.

Lemma start_event_app es1 es2 :
  start_event (es1 ++ es2) =
  match start_event es1 with
  | Some e => Some e
  | None => start_event es2
  end.
Proof.
  unfold start_event. rewrite filter_app, head_app.
  by destruct (filter _ es1).
Qed.

Lemma get_events_add_event sid r st sid' :
  get_events sid' (add_event sid r st) =
  if decide (sid' = sid) then get_events sid st ++ [r]
  else get_events sid' st.
Proof.
  unfold get_events, add_event. simpl. case_decide as E.
  - subst sid'. by rewrite lookup_insert_eq.
  - by rewrite lookup_insert_ne.
Qed.

(** The callback and the cleanup [receive_event] schedules, when it
    schedules them. *)
Lemma receive_event_scheduled payload t_event t_now t_stamp st bg :
  (receive_event payload t_event t_now t_stamp st).1 = inr (Some bg) →
  e_event payload = "call_end"
  ∧ bg_delayed_cleanup bg = e_session_id payload
  ∧ cb_session_id (bg_callback bg) = e_session_id payload
  ∧ cb_event (bg_callback bg) = "call_ended"
  ∧ cb_context_used (bg_callback bg)
    = get_context_types_used (e_session_id payload) st
  ∧ cb_duration_seconds (bg_callback bg) =
      match start_event
              (get_events (e_session_id payload) st ++
                 [ {| ev_event := e_event payload; ev_timestamp := t_event;
                      ev_data := default [] (e_data payload) |} ]) with
      | Some e => t_now - ev_timestamp e
      | None => 0
      end
  ∧ validated as_transcript []
      (data_get "transcript" (default [] (e_data payload)))
    = Some (cb_transcript (bg_callback bg))
  ∧ validated as_str ""
      (data_get "intent_summary" (default [] (e_data payload)))
    = Some (cb_intent_summary (bg_callback bg)).
Proof.
  unfold receive_event. case_bool_decide as Hend; [|done].
  destruct (validated as_transcript [] _) as [tr|]; [|done].
  destruct (validated as_str "" _) as [summary|]; [|done].
  cbn [fst]. intros [= <-]. cbn.
  rewrite get_events_add_event, decide_True by done. done.
Qed.

(** Property X18. [receive_event] records the event at the end of the
    session's log and leaves the contexts alone, whether it returns or
    raises.  An event other than "call_end" schedules nothing.  A
    "call_end" schedules the callback and the cleanup when
    [CallbackPayload] accepts the transcript and the intent summary of the
    event's data (or their defaults), and raises [ValidationError] with
    nothing scheduled when it does not.  The callback names the context
    types read so far and the time since the session's FIRST "call_start"
    event, or zero when there is none; the cleanup, once run, leaves the
    session without entries and events. *)
Theorem receive_event_callback (payload : EventPayload)
    (t_event t_now t_stamp : Z) (st : ContextStore) :
  let r := receive_event payload t_event t_now t_stamp st in
  let sid := e_session_id payload in
  let accepted :=
    is_Some (validated as_transcript []
               (data_get "transcript" (default [] (e_data payload))))
    ∧ is_Some (validated as_str ""
                 (data_get "intent_summary" (default [] (e_data payload)))) in
  (e_event payload ≠ "call_end" → r.1 = inr None)
  ∧ (e_event payload = "call_end" → accepted → ∃ bg, r.1 = inr (Some bg))
  ∧ (e_event payload = "call_end" → ¬ accepted → r.1 = inl ValidationError)
  ∧ _store r.2 = _store st
  ∧ get_events sid r.2 =
      get_events sid st ++
        [ {| ev_event := e_event payload; ev_timestamp := t_event;
             ev_data := default [] (e_data payload) |} ]
  ∧ (∀ sid', sid' ≠ sid → get_events sid' r.2 = get_events sid' st)
  ∧ (∀ bg, r.1 = inr (Some bg) →
       bg_delayed_cleanup bg = sid
       ∧ cb_session_id (bg_callback bg) = sid
       ∧ cb_event (bg_callback bg) = "call_ended"
       ∧ cb_context_used (bg_callback bg) = get_context_types_used sid st
       ∧ cb_duration_seconds (bg_callback bg) =
           match start_event (get_events sid st) with
           | Some e => t_now - ev_timestamp e
           | None => 0
           end
       ∧ entries_of sid (delayed_cleanup bg r.2) = []
       ∧ get_events sid (delayed_cleanup bg r.2) = []).
Proof.
  intros r sid accepted.
  set (rec := {| ev_event := e_event payload; ev_timestamp := t_event;
                 ev_data := default [] (e_data payload) |}).
  assert (Hst : r.2 = add_event (e_session_id payload) rec st).
  { subst r. unfold receive_event. case_bool_decide; [|done].
    destruct (validated as_transcript [] _); [|done].
    by destruct (validated as_str "" _). }
  split; [|split; [|split; [|split; [|split; [|split]]]]].
  - intros Hne. subst r. unfold receive_event.
    by rewrite bool_decide_eq_false_2.
  - intros Hend [[tr Htr] [summary Hsum]]. subst r. unfold receive_event.
    rewrite bool_decide_eq_true_2 by done. rewrite Htr, Hsum. by eexists.
  - intros Hend Hnot. subst r. unfold receive_event.
    rewrite bool_decide_eq_true_2 by done.
    destruct (validated as_transcript [] _) as [tr|] eqn:Htr; [|done].
    destruct (validated as_str "" _) as [summary|] eqn:Hsum; [|done].
    exfalso. apply Hnot. split; by eexists.
  - by rewrite Hst.
  - rewrite Hst. unfold sid. by rewrite get_events_add_event, decide_True.
  - intros sid' Hne. rewrite Hst.
    by rewrite get_events_add_event, decide_False.
  - intros bg Hbg.
    apply receive_event_scheduled in Hbg
      as (Hend & Hc & Hs & He & Hu & Hd & _).
    do 4 (split; [done|]). split.
    + rewrite Hd, start_event_app. fold sid.
      destruct (start_event (get_events sid st)); [done|].
      unfold start_event. rewrite filter_cons_False; [done|].
      simpl. rewrite Hend. done.
    + rewrite Hst. unfold delayed_cleanup, delete_context, entries_of,
        get_events. rewrite Hc. simpl. fold sid.
      by rewrite !lookup_delete_eq.
Qed.

Lemma receive_event_callback_witness :
  (receive_event
     {| e_session_id := "call-1"; e_event := "call_end";
        e_data := Some [("transcript", JStr "hello")];
        e_customer_phone := None; e_customer_name := None;
        e_agent_id := None |} 90 91 92 empty_store).1
  = inl ValidationError.
Proof.
  apply (receive_event_callback
     {| e_session_id := "call-1"; e_event := "call_end";
        e_data := Some [("transcript", JStr "hello")];
        e_customer_phone := None; e_customer_name := None;
        e_agent_id := None |} 90 91 92 empty_store).
  - reflexivity.
  - simpl. intros [[tr Htr] _]. discriminate Htr.
Defined.

Lemma start_event_none es :
  Forall (λ e, ev_event e ≠ "call_start") es → start_event es = None.
Proof.
  unfold start_event. induction 1 as [|e es He _ IH]; [done|].
  rewrite filter_cons_False by done. exact IH.
Qed.

(** Property X19. The duration a "call_end" reports runs from the first
    "call_start" of the session's log: events before it that are not a
    start, and whatever follows it, later starts included, play no part.
    The report is made whenever [CallbackPayload] accepts the transcript
    and the intent summary of the event's data. *)
Theorem call_end_duration (payload : EventPayload)
    (t_event t_now t_stamp : Z) (st : ContextStore)
    (earlier later : list EventRecord) (e0 : EventRecord) :
  e_event payload = "call_end" →
  get_events (e_session_id payload) st = earlier ++ e0 :: later →
  ev_event e0 = "call_start" →
  Forall (λ e, ev_event e ≠ "call_start") earlier →
  (is_Some (validated as_transcript []
              (data_get "transcript" (default [] (e_data payload)))) →
   is_Some (validated as_str ""
              (data_get "intent_summary" (default [] (e_data payload)))) →
   ∃ bg, (receive_event payload t_event t_now t_stamp st).1 = inr (Some bg)
         ∧ cb_duration_seconds (bg_callback bg) = t_now - ev_timestamp e0)
  ∧ ∀ bg, (receive_event payload t_event t_now t_stamp st).1 = inr (Some bg) →
          cb_duration_seconds (bg_callback bg) = t_now - ev_timestamp e0.
Proof.
  intros Hend Hlog Hstart Hearlier.
  assert (Hdur : ∀ bg,
    (receive_event payload t_event t_now t_stamp st).1 = inr (Some bg) →
    cb_duration_seconds (bg_callback bg) = t_now - ev_timestamp e0).
  { intros bg Hbg.
    apply receive_event_scheduled in Hbg as (_ & _ & _ & _ & _ & Hd & _).
    rewrite Hd, Hlog, <- app_assoc, start_event_app.
    rewrite (start_event_none earlier) by done.
    unfold start_event. cbn [app]. by rewrite filter_cons_True. }
  split; [|exact Hdur].
  intros [tr Htr] [summary Hsum].
  assert (∃ bg, (receive_event payload t_event t_now t_stamp st).1
                = inr (Some bg)) as [bg Hbg].
  { unfold receive_event. rewrite bool_decide_eq_true_2 by done.
    rewrite Htr, Hsum. by eexists. }
  exists bg. split; [exact Hbg|]. by apply Hdur.
Qed.

Lemma call_end_duration_witness :
  ∃ bg, (receive_event
           {| e_session_id := "call-1"; e_event := "call_end";
              e_data := None; e_customer_phone := None;
              e_customer_name := None; e_agent_id := None |}
           90 91 92
           (add_event "call-1"
              {| ev_event := "call_start"; ev_timestamp := 50;
                 ev_data := [] |}
              (add_event "call-1"
                 {| ev_event := "call_start"; ev_timestamp := 20;
                    ev_data := [] |}
                 empty_store))).1 = inr (Some bg)
        ∧ cb_duration_seconds (bg_callback bg) = 71.
Proof.
  apply (call_end_duration _ 90 91 92 _ []
           [ {| ev_event := "call_start"; ev_timestamp := 50;
                ev_data := [] |} ]
           {| ev_event := "call_start"; ev_timestamp := 20; ev_data := [] |}).
  - reflexivity.
  - vm_compute. reflexivity.
  - reflexivity.
  - constructor.
  - simpl. by eexists.
  - simpl. by eexists.
Defined.

(** *** Statistics *)

Lemma sum_lengths_kept now (vals : list (list ContextEntry)) :
  Z.of_nat (sum_list_with length vals)
  - Z.of_nat (sum_list_with (λ es, length (kept now es)) vals)
  = expired_count now (concat vals).
Proof.
  induction vals as [|es vals IH].
  - unfold expired_count. simpl. lia.
  - cbn [sum_list_with concat]. pose proof (length_kept now es) as Hes.
    unfold expired_count in *. rewrite filter_app, length_app. lia.
Qed.

Lemma cleanup_expired_omap now st :
  _store (cleanup_expired now st).2 =
  omap (λ es, if decide (kept now es = []) then None
              else Some (kept now es)) (_store st).
Proof.
  apply map_eq. intros sid. rewrite cleanup_expired_lookup, lookup_omap.
  by destruct (_store st !! sid).
Qed.

Lemma sum_omap_kept now (m : gmap string (list ContextEntry)) :
  sum_list_with length
    (map_to_list (omap (λ es, if decide (kept now es = []) then None
                              else Some (kept now es)) m)).*2
  = sum_list_with (λ es, length (kept now es)) (map_to_list m).*2.
Proof.
  induction m as [|i x m Hi IH] using map_ind.
  - by rewrite omap_empty, !map_to_list_empty.
  - rewrite omap_insert. rewrite (map_to_list_insert m) by done.
    rewrite fmap_cons. cbn [sum_list_with snd]. case_decide as E.
    + rewrite delete_id by (by rewrite lookup_omap, Hi).
      rewrite IH, E. done.
    + rewrite map_to_list_insert by (by rewrite lookup_omap, Hi).
      rewrite fmap_cons. cbn [sum_list_with snd]. by rewrite IH.
Qed.

(** Property X20. The sweep's count is exactly what the statistics lose: the
    entries counted after [cleanup_expired] are those counted before less
    the number it returns; it never adds a session and leaves the events
    alone. *)
Theorem cleanup_expired_accounting (now : Z) (st : ContextStore) :
  let r := cleanup_expired now st in
  total_entries (stats r.2) = total_entries (stats st) - r.1
  ∧ 0 ≤ r.1 ≤ total_entries (stats st)
  ∧ active_sessions (stats r.2) ≤ active_sessions (stats st)
  ∧ total_events (stats r.2) = total_events (stats st).
Proof.
  intros r. subst r.
  assert (Hacc : total_entries (stats (cleanup_expired now st).2)
                 = total_entries (stats st) - (cleanup_expired now st).1).
  { unfold stats. cbn [total_entries].
    rewrite cleanup_expired_omap, sum_omap_kept, cleanup_expired_count.
    rewrite <- sum_lengths_kept. lia. }
  split; [exact Hacc|]. split; [|split; [|done]].
  - split.
    + rewrite cleanup_expired_count. unfold expired_count. lia.
    + assert (0 ≤ total_entries (stats (cleanup_expired now st).2))
        by (unfold stats; cbn [total_entries]; lia).
      lia.
  - unfold stats. cbn [active_sessions]. rewrite cleanup_expired_omap.
    apply inj_le. rewrite <- !size_dom. apply subseteq_size, dom_omap_subseteq.
Qed.
End context_more.
